(** * GPS stability and corridor intelligence: a shallow embedding

    The development follows the TypeScript sources of the repository:

    - [lib/gps-processing]        drop detection, corridor extraction,
                                  median / percentile, alert severity;
    - [lib/baseline-computation]  hourly and global baselines, baseline
                                  lookup, delay and overspeed checks;
    - [lib/alert-service]         alert creation with de-duplication;
    - [app/api/ingest]            the ingestion handler that drives them;
    - [app/api/compute]           the batch alert check and the batch
                                  baseline computation;
    - [app/api/heatmap]           the per-cell aggregation of the heatmap.

    Conventions of the embedding.

    - A JavaScript [number] is a rational ([Q]).  Sums, differences and
      quotients of the integers and millisecond times of the program are
      kept exact.  IEEE-754 binary64 rounding (to nearest, ties to even; no
      subnormal numbers, no overflow) is modelled by [Js.fl] and applied
      where a rounded intermediate result decides a branch or an index: the
      product [tauShort * 1.2] of the drop classifier and the product
      [(p / 100) * length] of [percentile].  There the literal [1.2] is the
      double [Js.c12] nearest to [6/5].  In the alert severity and the
      baseline checks the constants [1.2] and [0.1] are the exact rationals
      [6/5] and [1/10]; [22.5] and [1.5] are doubles.
    - A [Date] is its [getTime()] value: an integer number of milliseconds
      ([Z]).  Invalid dates do not occur (the ingestion schema rejects them).
    - [Array.prototype.sort] is stable (ECMAScript 2019); it is embedded as
      the stable insertion sort, which computes the same array as any other
      stable sort.
    - The geodesy library calls ([latLngToCell], [distance], [bearing]) and
      the ISO-8601 parser behind [z.string().datetime()] / [new Date(s)] are
      external: they are parameters of the development.
    - The store never fails.  The exceptions of the ingestion handler that
      are embedded are those of [request.json()] on a body that is not JSON
      and of [latLngToCell] on a resolution outside 0, ..., 15. *)

From Stdlib Require Import ZArith QArith Qround Qabs Qpower List String Bool Lia.
From Stdlib Require Import Permutation Sorted DecimalString Lqa.
Import ListNotations.

Local Open Scope Z_scope.
Local Open Scope list_scope.

(** ** JavaScript numbers and dates *)

Module Js.

Definition number := Q.

(** [x < y], [x <= y], [x > y], [x >= y] and [x === y] on numbers. *)
Definition ltb (x y : Q) : bool := negb (Qle_bool y x).
Definition leb (x y : Q) : bool := Qle_bool x y.
Definition gtb (x y : Q) : bool := ltb y x.
Definition geb (x y : Q) : bool := leb y x.
Definition eqb (x y : Q) : bool := Qeq_bool x y.

(** [Math.floor], [Math.ceil], [Math.round] (halves go up) and [Math.abs]. *)
Definition Math_floor (x : Q) : Z := Qfloor x.
Definition Math_ceil (x : Q) : Z := Qceiling x.
Definition Math_round (x : Q) : Z := Qfloor (x + (1 # 2))%Q.
Definition Math_abs (x : Q) : Q := Qabs x.
Definition Math_max (x y : Q) : Q := if leb x y then y else x.

(** Truncation toward zero and the remainder operator [%], whose result has
    the sign of the dividend. *)
Definition trunc (x : Q) : Z := if leb 0 x then Qfloor x else Qceiling x.
Definition rem (x y : Q) : Q := (x - inject_Z (trunc (x / y)) * y)%Q.

(** IEEE-754 binary64 arithmetic.  [ilog2 a] is the exponent of the binade
    of a positive [a], [rne] rounds to the nearest integer with ties to
    even, and [fl q] is the double nearest to [q]: the 53-bit significand
    [q / 2^(e - 52)] is rounded to an integer and scaled back.  A product or a
    quotient of two doubles is the rounding of the exact result. *)
Definition pow2 (e : Z) : Q := (2 ^ e)%Q.

Definition ilog2 (a : Q) : Z :=
  if Qle_bool 1 a then Z.log2 (Qfloor a) else - Z.log2_up (Qceiling (/ a)).

Definition rne (s : Q) : Z :=
  let f := Qfloor s in
  match (s - inject_Z f ?= 1 # 2)%Q with
  | Lt => f
  | Gt => f + 1
  | Eq => if Z.even f then f else f + 1
  end.

Definition fl (q : Q) : Q :=
  if Qeq_bool q 0 then 0%Q
  else
    let e := ilog2 (Qabs q) - 52 in
    (inject_Z (rne (q / pow2 e)) * pow2 e)%Q.

Definition fmul (x y : Q) : Q := fl (x * y).
Definition fdiv (x y : Q) : Q := fl (x / y).

(** The literal [1.2]. *)
Definition c12 : Q := fl (6 # 5).

(** A [Date] is its epoch time in milliseconds. *)
Definition Date := Z.
Definition getTime (d : Date) : Z := d.
Definition getUTCHours (d : Date) : Z := (d / 3600000) mod 24.

(** [arr.sort((a, b) => key(a) - key(b))] for an integer key: the comparator
    is negative or zero exactly when [key a <= key b], and the sort is stable,
    so an element is inserted in front of the elements that are not smaller. *)
Section SortBy.
Context {A : Type} (key : A -> Z).

Fixpoint insertBy (x : A) (l : list A) : list A :=
  match l with
  | [] => [x]
  | y :: ys => if key x <=? key y then x :: y :: ys else y :: insertBy x ys
  end.

Fixpoint sortBy (l : list A) : list A :=
  match l with
  | [] => []
  | x :: xs => insertBy x (sortBy xs)
  end.

End SortBy.

End Js.

(** ** [Map]: insertion-ordered, one entry per key *)

Module JsMap.

Section Ops.
Context {K V : Type} (eqb : K -> K -> bool).

Definition t := list (K * V).

Fixpoint has (k : K) (m : list (K * V)) : bool :=
  match m with
  | [] => false
  | (h, _) :: rest => if eqb h k then true else has k rest
  end.

Fixpoint get (k : K) (m : list (K * V)) : option V :=
  match m with
  | [] => None
  | (h, v) :: rest => if eqb h k then Some v else get k rest
  end.

(** [set] overwrites in place when the key is present and appends a new
    entry otherwise. *)
Fixpoint set (k : K) (v : V) (m : list (K * V)) : list (K * V) :=
  match m with
  | [] => [(k, v)]
  | (h, w) :: rest =>
      if eqb h k then (h, v) :: rest else (h, w) :: set k v rest
  end.

End Ops.

(** [m.get(k)!.push(x)]: the array held by the map is extended in place. *)
Definition push {K X : Type} (eqb : K -> K -> bool) (k : K) (x : X)
  (m : list (K * list X)) : list (K * list X) :=
  match get eqb k m with
  | Some v => set eqb k (v ++ [x]) m
  | None => m
  end.

(** [if (!m.has(k)) m.set(k, []); m.get(k)!.push(x)] *)
Definition pushTo {K X : Type} (eqb : K -> K -> bool) (k : K) (x : X)
  (m : list (K * list X)) : list (K * list X) :=
  let m1 := if negb (has eqb k m) then set eqb k [] m else m in
  push eqb k x m1.

End JsMap.

(** ** Statistics primitives ([median], [percentile]) *)

Module Stats.

(** [[...values].sort((a, b) => a - b)]: stable, ascending. *)
Fixpoint insertNum (x : Q) (l : list Q) : list Q :=
  match l with
  | [] => [x]
  | y :: ys => if Js.leb x y then x :: y :: ys else y :: insertNum x ys
  end.

Fixpoint sortNum (l : list Q) : list Q :=
  match l with
  | [] => []
  | x :: xs => insertNum x (sortNum xs)
  end.

(** [sorted[i]] for an index inside the array. *)
Definition at_ (l : list Q) (i : Z) : Q := nth (Z.to_nat i) l 0%Q.

Definition median (values : list Q) : Q :=
  match values with
  | [] => 0%Q
  | _ =>
      let sorted := sortNum values in
      let len := Z.of_nat (List.length sorted) in
      let mid := Js.Math_floor (inject_Z len / 2) in
      if len mod 2 =? 0
      then ((at_ sorted (mid - 1) + at_ sorted mid) / 2)%Q
      else at_ sorted mid
  end.

(** [Math.ceil((p / 100) * sorted.length) - 1]: the quotient and the product
    are doubles. *)
Definition percentile (values : list Q) (p : Q) : Q :=
  match values with
  | [] => 0%Q
  | _ =>
      let sorted := sortNum values in
      let index :=
        Js.Math_ceil
          (Js.fmul (Js.fdiv p 100) (inject_Z (Z.of_nat (List.length sorted))))
        - 1 in
      at_ sorted (Z.max 0 index)
  end.

End Stats.

(** ** GPS processing: drops and corridors *)

Module Gps.

Record GPSFix := mkFix {
  ts : Js.Date;
  lat : Q;
  lon : Q;
  speed : option Q;
  accuracy : option Q;
  heading : option Q
}.

Inductive DropReason := weak_signal | long_gap | micro_drop.

Record Drop := mkDrop {
  startTs : Js.Date;
  endTs : Js.Date;
  startLat : Q;
  startLon : Q;
  endLat : Q;
  endLon : Q;
  durationSec : Q;
  reason : DropReason
}.

Record CorridorKey := mkKey {
  aH3 : string;
  bH3 : string;
  direction : Z
}.

Record Traversal := mkTraversal {
  corridorKey : CorridorKey;
  t_startTs : Js.Date;
  t_endTs : Js.Date;
  travelSec : Q;
  avgSpeedKmh : Q;
  t_startLat : Q;
  t_startLon : Q;
  t_endLat : Q;
  t_endLon : Q
}.

Definition reason_eqb (a b : DropReason) : bool :=
  match a, b with
  | weak_signal, weak_signal | long_gap, long_gap | micro_drop, micro_drop => true
  | _, _ => false
  end.

Definition isStrongFix (fix_ : GPSFix) : bool :=
  match accuracy fix_ with
  | Some a => Js.leb a 30
  | None => true
  end.

(** [[...points].sort((a, b) => a.ts.getTime() - b.ts.getTime())] *)
Definition sortByTs (points : list GPSFix) : list GPSFix :=
  Js.sortBy (fun p => Js.getTime (ts p)) points.

(** [(curr.ts.getTime() - prev.ts.getTime()) / 1000] *)
Definition gapSecOf (prev curr : GPSFix) : Q :=
  (inject_Z (Js.getTime (ts curr) - Js.getTime (ts prev)) / 1000)%Q.

(** The first loop of [detectDrops]: the gaps strictly between 0 and 300
    seconds, from which the modal interval is taken. *)
Fixpoint modalGaps (prev : GPSFix) (rest : list GPSFix) : list Q :=
  match rest with
  | [] => []
  | curr :: rest' =>
      let gap := gapSecOf prev curr in
      (if Js.gtb gap 0 && Js.ltb gap 300 then [gap] else [])
        ++ modalGaps curr rest'
  end.

Definition modalInterval (sorted : list GPSFix) : Q :=
  match sorted with
  | [] => 30%Q
  | p :: rest =>
      let gaps := modalGaps p rest in
      if (0 <? Z.of_nat (List.length gaps))
      then Stats.at_ (Stats.sortNum gaps)
             (Js.Math_floor (inject_Z (Z.of_nat (List.length gaps)) / 2))
      else 30%Q
  end.

(** Computed by the source and never read afterwards. *)
Definition dropThreshold (tauShort : Q) (sorted : list GPSFix) : Q :=
  Js.Math_max tauShort (modalInterval sorted * 2)%Q.

(** The conditional expression that picks the [reason] of a drop.  The
    variable [gapSec] of the source holds the double nearest to the quotient
    that [gapSecOf] keeps exact, and [tauShort * 1.2] is a rounded product.
    Against a whole number of seconds, such as 600, the double and the exact
    quotient of a whole number of milliseconds compare alike
    ([DropDetector.gap_le_fl] below). *)
Definition classify (tauShort gapSec : Q) : DropReason :=
  if Js.gtb gapSec 600 then long_gap
  else if Js.leb (Js.fl gapSec) (Js.fmul tauShort Js.c12) then micro_drop
  else weak_signal.

Definition dropOf (prev curr : GPSFix) (tauShort : Q) : Drop :=
  let gapSec := gapSecOf prev curr in
  {| startTs := ts prev;
     endTs := ts curr;
     startLat := lat prev;
     startLon := lon prev;
     endLat := lat curr;
     endLon := lon curr;
     durationSec := gapSec;
     reason := classify tauShort gapSec |}.

(** The second loop of [detectDrops], over the consecutive pairs
    [(sorted[i-1], sorted[i])]. *)
Fixpoint scanGaps (tauShort : Q) (prev : GPSFix) (rest : list GPSFix)
  : list Drop :=
  match rest with
  | [] => []
  | curr :: rest' =>
      (if Js.gtb (gapSecOf prev curr) tauShort
       then [dropOf prev curr tauShort] else [])
        ++ scanGaps tauShort curr rest'
  end.

(** The gap events of an array that is already in time order. *)
Definition gapEvents (tauShort : Q) (sorted : list GPSFix) : list Drop :=
  match sorted with
  | [] => []
  | p :: rest => scanGaps tauShort p rest
  end.

Definition detectDrops (points : list GPSFix) (tauShort : Q) : list Drop :=
  if (Z.of_nat (List.length points) <? 2) then []
  else
    let sorted := sortByTs points in
    let _unused := dropThreshold tauShort sorted in
    gapEvents tauShort sorted.

(** The geodesy calls of [extractCorridors].  A point is the GeoJSON pair
    [[lon, lat]] built by [point]. *)
Record Geo := mkGeo {
  latLngToCell : Q -> Q -> Z -> string;
  distance : Q * Q -> Q * Q -> Q;   (* kilometres *)
  bearing : Q * Q -> Q * Q -> Q     (* degrees *)
}.

Definition point (lonlat : Q * Q) : Q * Q := lonlat.

Section Corridors.

Variable geo : Geo.

Definition distanceKmOf (drop : Drop) : Q :=
  distance geo (point (startLon drop, startLat drop))
               (point (endLon drop, endLat drop)).

Definition avgSpeedKmhOf (drop : Drop) : Q :=
  if Js.gtb (durationSec drop) 0
  then (distanceKmOf drop / (durationSec drop / 3600))%Q
  else 0%Q.

Definition directionBucketOf (drop : Drop) : Z :=
  let bearingDeg :=
    bearing geo (point (startLon drop, startLat drop))
                (point (endLon drop, endLat drop)) in
  let normalizedBearing := Js.rem (bearingDeg + 360)%Q 360 in
  Z.rem (Js.Math_floor (normalizedBearing / (45 # 2))%Q) 16.

(** One iteration of the loop of [extractCorridors]: [None] stands for
    [continue], [Some t] for [traversals.push(t)]. *)
Definition resolveDrop (h3Resolution : Z) (drop : Drop) : option Traversal :=
  if reason_eqb (reason drop) long_gap then None
  else
    let a := latLngToCell geo (startLat drop) (startLon drop) h3Resolution in
    let b := latLngToCell geo (endLat drop) (endLon drop) h3Resolution in
    let directionBucket := directionBucketOf drop in
    let distanceKm := distanceKmOf drop in
    let avgSpeed := avgSpeedKmhOf drop in
    if Js.ltb distanceKm (1 # 100) then None
    else if Js.gtb avgSpeed 200 then None
    else Some {| corridorKey :=
                   {| aH3 := a; bH3 := b; direction := directionBucket |};
                 t_startTs := startTs drop;
                 t_endTs := endTs drop;
                 travelSec := durationSec drop;
                 avgSpeedKmh := avgSpeed;
                 t_startLat := startLat drop;
                 t_startLon := startLon drop;
                 t_endLat := endLat drop;
                 t_endLon := endLon drop |}.

Fixpoint extractCorridors (drops : list Drop) (h3Resolution : Z)
  : list Traversal :=
  match drops with
  | [] => []
  | drop :: rest =>
      match resolveDrop h3Resolution drop with
      | Some t => t :: extractCorridors rest h3Resolution
      | None => extractCorridors rest h3Resolution
      end
  end.

End Corridors.

(** [latLngToCell] of h3-js takes a resolution from 0 to 15 and throws for
    any other, whatever the coordinates; [Geo] gives the cell it returns.
    [extractCorridors] calls it for every drop that is not a long gap, so it
    throws at the first such drop when the resolution is not valid, and
    returns the array above otherwise. *)
Definition validResolution (h3Resolution : Z) : bool :=
  (0 <=? h3Resolution) && (h3Resolution <=? 15).

Definition extractionThrows (drops : list Drop) (h3Resolution : Z) : bool :=
  negb (validResolution h3Resolution)
  && existsb (fun drop => negb (reason_eqb (reason drop) long_gap)) drops.

Definition calculateInstabilityScore
  (shortDrops longDrops traversals wShort wLong : Q) : Q :=
  if Js.eqb traversals 0 then 0%Q
  else ((wShort * shortDrops + wLong * longDrops)
          / Js.Math_max 1 traversals)%Q.

Inductive Severity := low | medium | high.
Inductive AlertType := delay | overspeed.

(** [ratio = Math.abs(deltaValue) / threshold].  A zero threshold makes the
    ratio [Infinity] (every comparison with a finite number holds) unless the
    delta is zero too, when it is [NaN] (every comparison fails). *)
Definition getAlertSeverity (type : AlertType) (deltaValue threshold : Q)
  : Severity :=
  if Js.eqb threshold 0 then
    if Js.eqb deltaValue 0 then low else high
  else
    let ratio := (Js.Math_abs deltaValue / threshold)%Q in
    if Js.geb ratio 2 then high
    else if Js.geb ratio (3 # 2) then medium
    else low.

End Gps.

(** ** The earlier revision of the drop classifier and corridor loop

    The repository still carries, next to the baseline library, an earlier
    copy of [gps-processing]: it tests for a micro drop first, with 1.5 and
    300 as constants, and its corridor loop skips micro drops only and has no
    quality filter.  The revision embedded in [Gps] above superseded it; the
    two are kept apart here so that they can be compared. *)

Module GpsLegacy.

Import Gps.

Definition classify (tauShort gapSec : Q) : DropReason :=
  if Js.leb gapSec (tauShort * (3 # 2))%Q then micro_drop
  else if Js.gtb gapSec 300 then long_gap
  else weak_signal.

Definition resolveDrop (geo : Geo) (h3Resolution : Z) (drop : Drop)
  : option Traversal :=
  if reason_eqb (reason drop) micro_drop then None
  else
    Some {| corridorKey :=
              {| aH3 := latLngToCell geo (startLat drop) (startLon drop)
                                     h3Resolution;
                 bH3 := latLngToCell geo (endLat drop) (endLon drop)
                                     h3Resolution;
                 direction := directionBucketOf geo drop |};
            t_startTs := startTs drop;
            t_endTs := endTs drop;
            travelSec := durationSec drop;
            avgSpeedKmh := avgSpeedKmhOf geo drop;
            t_startLat := startLat drop;
            t_startLon := startLon drop;
            t_endLat := endLat drop;
            t_endLon := endLon drop |}.

End GpsLegacy.

(** ** Baseline computation *)

Module Baseline.

Record CorridorBaseline := mkBaseline {
  corridorId : string;
  bucketHour : Z;            (* -1 for global, 0-23 for hourly *)
  count : Z;
  medianTravelSec : Q;
  p95SpeedKmh : Q
}.

Record TraversalData := mkData {
  travelSec : Q;
  avgSpeedKmh : Q;
  startTs : Js.Date
}.

Definition getHourBucket (date : Js.Date) : Z := Js.getUTCHours date.

(** [Map<number, TraversalData[]>] *)
Definition Buckets := list (Z * list TraversalData).

(** The body of the grouping loop. *)
Definition groupStep (m : Buckets) (traversal : TraversalData) : Buckets :=
  let hour := getHourBucket (startTs traversal) in
  JsMap.pushTo Z.eqb hour traversal m.

Definition groupByHour (traversals : list TraversalData) : Buckets :=
  fold_left groupStep traversals [].

Definition baselineOf (corridorId : string) (hour : Z)
  (ts : list TraversalData) : CorridorBaseline :=
  let travelTimes := map travelSec ts in
  let speeds := map avgSpeedKmh ts in
  {| corridorId := corridorId;
     bucketHour := hour;
     count := Z.of_nat (List.length ts);
     medianTravelSec := inject_Z (Js.Math_round (Stats.median travelTimes));
     p95SpeedKmh := Stats.percentile speeds 95 |}.

(** The loop over [hourlyBuckets.entries()]. *)
Fixpoint hourlyBaselines (corridorId : string) (minSamplesForHourly : Z)
  (m : Buckets) : list CorridorBaseline :=
  match m with
  | [] => []
  | (hour, hourTraversals) :: rest =>
      if Z.of_nat (List.length hourTraversals) >=? minSamplesForHourly
      then baselineOf corridorId hour hourTraversals
             :: hourlyBaselines corridorId minSamplesForHourly rest
      else hourlyBaselines corridorId minSamplesForHourly rest
  end.

Definition computeBaselines (corridorId : string)
  (traversals : list TraversalData) (minSamplesForHourly : Z)
  : list CorridorBaseline :=
  hourlyBaselines corridorId minSamplesForHourly (groupByHour traversals)
    ++ (if Z.of_nat (List.length traversals) >? 0
        then [baselineOf corridorId (-1) traversals]
        else []).

Definition defaultMinSamples : Z := 5.

Definition getApplicableBaseline (baselines : list CorridorBaseline)
  (timestamp : Js.Date) : option CorridorBaseline :=
  let hour := getHourBucket timestamp in
  match find (fun b => bucketHour b =? hour) baselines with
  | Some hourlyBaseline => Some hourlyBaseline
  | None => find (fun b => bucketHour b =? -1) baselines
  end.

Record DelayCheck := mkDelayCheck { d_isAlert : bool; deltaSec : Q }.
Record OverspeedCheck := mkOverspeedCheck { o_isAlert : bool; deltaSpeedKmh : Q }.

Definition checkDelayAlert (travelSec : Q) (baseline : CorridorBaseline)
  (thresholdMinutes : Q) : DelayCheck :=
  let deltaSec := (travelSec - medianTravelSec baseline)%Q in
  let thresholdSec := (thresholdMinutes * 60)%Q in
  {| d_isAlert := Js.geb deltaSec thresholdSec; deltaSec := deltaSec |}.

Definition checkOverspeedAlert (avgSpeedKmh : Q) (baseline : CorridorBaseline)
  : OverspeedCheck :=
  let deltaSpeedKmh := (avgSpeedKmh - p95SpeedKmh baseline)%Q in
  {| o_isAlert := Js.gtb deltaSpeedKmh 0 && Js.gtb (p95SpeedKmh baseline) 0;
     deltaSpeedKmh := deltaSpeedKmh |}.

End Baseline.

(** ** The persistent store and the alert stream

    The tables are those the code reads and writes through the Prisma client;
    a table is the list of its rows in creation order.  Row identifiers are
    generated by the store: here they are drawn from a counter.  Creation
    time stamps, which no modelled code reads, are left out. *)

Module Db.

Inductive Details :=
| DelayDetails (travelSec baselineMedianSec : Q) (bucketHour : Z)
| OverspeedDetails (avgSpeedKmh p95SpeedKmh : Q) (bucketHour : Z).

Record Vehicle := mkVehicle { v_id : string; v_name : string }.

Record Trip := mkTrip {
  trip_id : string;
  trip_vehicleId : string;
  startTime : Js.Date;
  endTime : Js.Date;
  source : string
}.

Record GPSPoint := mkGPSPoint { gp_tripId : string; gp_fix : Gps.GPSFix }.
Record DropRow := mkDropRow { dr_tripId : string; dr_drop : Gps.Drop }.
Record Corridor := mkCorridor { c_id : string; c_key : Gps.CorridorKey }.

Record TraversalRow := mkTraversalRow {
  tr_corridorId : string;
  tr_tripId : string;
  tr_data : Gps.Traversal
}.

Record Alert := mkAlert {
  a_id : string;
  a_type : Gps.AlertType;
  a_corridorId : string;
  a_tripId : string;
  a_vehicleId : string;
  a_severity : Gps.Severity;
  a_deltaValue : Q;
  a_details : Details;
  a_resolvedAt : option Js.Date
}.

Record State := mkState {
  vehicles : list Vehicle;
  trips : list Trip;
  gpsPoints : list GPSPoint;
  drops : list DropRow;
  corridors : list Corridor;
  traversals : list TraversalRow;
  corridorStats : list Baseline.CorridorBaseline;
  alerts : list Alert;
  emitted : list Alert;          (* what [alertEmitter.emit] has sent *)
  nextId : nat
}.

Definition empty : State := mkState [] [] [] [] [] [] [] [] [] 0.

(** A small state monad for the [await]-sequenced store calls. *)
Definition M (A : Type) : Type := State -> A * State.
Definition ret {A} (a : A) : M A := fun s => (a, s).
Definition bind {A B} (c : M A) (k : A -> M B) : M B :=
  fun s => let (a, s') := c s in k a s'.
Definition gets {A} (f : State -> A) : M A := fun s => (f s, s).
Definition modify (f : State -> State) : M unit := fun s => (tt, f s).

Declare Scope db_scope.
Delimit Scope db_scope with db.
Notation "x <- c ;; k" := (bind c (fun x => k))
  (at level 61, c at next level, right associativity) : db_scope.
Notation "c ;;; k" := (bind c (fun _ => k))
  (at level 61, right associativity) : db_scope.
Local Open Scope db_scope.

Fixpoint forEach {A} (l : list A) (body : A -> M unit) : M unit :=
  match l with
  | [] => ret tt
  | x :: rest => body x ;;; forEach rest body
  end.

Definition idOf (n : nat) : string :=
  String.append "id" (NilEmpty.string_of_uint (Nat.to_uint n)).

Definition freshId : M string :=
  fun s =>
    (idOf (nextId s),
     mkState (vehicles s) (trips s) (gpsPoints s) (drops s) (corridors s)
             (traversals s) (corridorStats s) (alerts s) (emitted s)
             (S (nextId s))).

Definition set_vehicles v s :=
  mkState v (trips s) (gpsPoints s) (drops s) (corridors s) (traversals s)
          (corridorStats s) (alerts s) (emitted s) (nextId s).
Definition set_trips v s :=
  mkState (vehicles s) v (gpsPoints s) (drops s) (corridors s) (traversals s)
          (corridorStats s) (alerts s) (emitted s) (nextId s).
Definition set_gpsPoints v s :=
  mkState (vehicles s) (trips s) v (drops s) (corridors s) (traversals s)
          (corridorStats s) (alerts s) (emitted s) (nextId s).
Definition set_drops v s :=
  mkState (vehicles s) (trips s) (gpsPoints s) v (corridors s) (traversals s)
          (corridorStats s) (alerts s) (emitted s) (nextId s).
Definition set_corridors v s :=
  mkState (vehicles s) (trips s) (gpsPoints s) (drops s) v (traversals s)
          (corridorStats s) (alerts s) (emitted s) (nextId s).
Definition set_traversals v s :=
  mkState (vehicles s) (trips s) (gpsPoints s) (drops s) (corridors s) v
          (corridorStats s) (alerts s) (emitted s) (nextId s).
Definition set_corridorStats v s :=
  mkState (vehicles s) (trips s) (gpsPoints s) (drops s) (corridors s)
          (traversals s) v (alerts s) (emitted s) (nextId s).
Definition set_alerts v s :=
  mkState (vehicles s) (trips s) (gpsPoints s) (drops s) (corridors s)
          (traversals s) (corridorStats s) v (emitted s) (nextId s).
Definition set_emitted v s :=
  mkState (vehicles s) (trips s) (gpsPoints s) (drops s) (corridors s)
          (traversals s) (corridorStats s) (alerts s) v (nextId s).

(** [prisma.vehicle] *)
Definition vehicle_findUnique (name : string) : M (option Vehicle) :=
  gets (fun s => find (fun v => String.eqb (v_name v) name) (vehicles s)).

Definition vehicle_create (name : string) : M Vehicle :=
  id <- freshId ;;
  let v := mkVehicle id name in
  modify (fun s => set_vehicles (vehicles s ++ [v]) s) ;;;
  ret v.

(** [prisma.trip] *)
Definition trip_findUnique (id : string) : M (option Trip) :=
  gets (fun s => find (fun t => String.eqb (trip_id t) id) (trips s)).

Definition trip_create (vehicleId : string) (startTime endTime : Js.Date)
  (source : string) : M Trip :=
  id <- freshId ;;
  let t := mkTrip id vehicleId startTime endTime source in
  modify (fun s => set_trips (trips s ++ [t]) s) ;;;
  ret t.

Definition trip_update (id : string) (endTime' : Js.Date) : M unit :=
  modify (fun s =>
    set_trips
      (map (fun t =>
              if String.eqb (trip_id t) id
              then mkTrip (trip_id t) (trip_vehicleId t) (startTime t)
                          endTime' (source t)
              else t) (trips s)) s).

(** [prisma.gPSPoint.createMany] and [prisma.drop.createMany] *)
Definition gPSPoint_createMany (rows : list GPSPoint) : M unit :=
  modify (fun s => set_gpsPoints (gpsPoints s ++ rows) s).

Definition drop_createMany (rows : list DropRow) : M unit :=
  modify (fun s => set_drops (drops s ++ rows) s).

(** [prisma.corridor], unique on [(aH3, bH3, direction)] *)
Definition key_eqb (a b : Gps.CorridorKey) : bool :=
  String.eqb (Gps.aH3 a) (Gps.aH3 b)
  && String.eqb (Gps.bH3 a) (Gps.bH3 b)
  && (Gps.direction a =? Gps.direction b).

Definition corridor_findUnique (key : Gps.CorridorKey) : M (option Corridor) :=
  gets (fun s => find (fun c => key_eqb (c_key c) key) (corridors s)).

Definition corridor_create (key : Gps.CorridorKey) : M Corridor :=
  id <- freshId ;;
  let c := mkCorridor id key in
  modify (fun s => set_corridors (corridors s ++ [c]) s) ;;;
  ret c.

(** [prisma.traversal] *)
Definition traversal_create (row : TraversalRow) : M unit :=
  modify (fun s => set_traversals (traversals s ++ [row]) s).

Definition traversal_findMany (corridorId : string) : M (list TraversalRow) :=
  gets (fun s =>
    filter (fun r => String.eqb (tr_corridorId r) corridorId) (traversals s)).

(** [prisma.corridorStats], unique on [(corridorId, bucketHour)] *)
Definition stats_match (b c : Baseline.CorridorBaseline) : bool :=
  String.eqb (Baseline.corridorId c) (Baseline.corridorId b)
  && (Baseline.bucketHour c =? Baseline.bucketHour b).

Definition corridorStats_upsert (b : Baseline.CorridorBaseline) : M unit :=
  modify (fun s =>
    let rows := corridorStats s in
    if existsb (stats_match b) rows
    then set_corridorStats
           (map (fun c => if stats_match b c then b else c) rows) s
    else set_corridorStats (rows ++ [b]) s).

Definition corridorStats_findMany (corridorId : string)
  : M (list Baseline.CorridorBaseline) :=
  gets (fun s =>
    filter (fun b => String.eqb (Baseline.corridorId b) corridorId)
           (corridorStats s)).

(** [prisma.alert] *)
Definition type_eqb (a b : Gps.AlertType) : bool :=
  match a, b with
  | Gps.delay, Gps.delay | Gps.overspeed, Gps.overspeed => true
  | _, _ => false
  end.

Definition isUnresolved (a : Alert) : bool :=
  match a_resolvedAt a with None => true | Some _ => false end.

(** [where: { type, tripId, corridorId, resolvedAt: null }] *)
Definition alert_where (type : Gps.AlertType) (tripId corridorId : string)
  (a : Alert) : bool :=
  type_eqb (a_type a) type
  && String.eqb (a_tripId a) tripId
  && String.eqb (a_corridorId a) corridorId
  && isUnresolved a.

Definition alert_findFirst (type : Gps.AlertType) (tripId corridorId : string)
  : M (option Alert) :=
  gets (fun s => find (alert_where type tripId corridorId) (alerts s)).

(** A created alert is unresolved: [resolvedAt] is not among the data. *)
Definition alert_create (type : Gps.AlertType)
  (corridorId tripId vehicleId : string) (severity : Gps.Severity)
  (deltaValue : Q) (details : Details) : M Alert :=
  id <- freshId ;;
  let a := mkAlert id type corridorId tripId vehicleId severity deltaValue
                   details None in
  modify (fun s => set_alerts (alerts s ++ [a]) s) ;;;
  ret a.

(** [alertEmitter.emit(alert)] *)
Definition emit (a : Alert) : M unit :=
  modify (fun s => set_emitted (emitted s ++ [a]) s).

End Db.

(** ** Alert service *)

Module AlertService.

Import Db.
Local Open Scope db_scope.

Record AlertInput := mkInput {
  corridorId : string;
  tripId : string;
  vehicleId : string;
  travelSec : Q;
  avgSpeedKmh : Q;
  timestamp : Js.Date
}.

(** The delay branch: [alerts] is the local array the function returns. *)
Definition delayBranch (input : AlertInput)
  (applicableBaseline : Baseline.CorridorBaseline) (delayThresholdMin : Z)
  (alerts : list Alert) : M (list Alert) :=
  let delayCheck :=
    Baseline.checkDelayAlert (travelSec input) applicableBaseline
                             (inject_Z delayThresholdMin) in
  if Baseline.d_isAlert delayCheck then
    existing <- alert_findFirst Gps.delay (tripId input) (corridorId input) ;;
    match existing with
    | Some _ => ret alerts
    | None =>
        let severity :=
          Gps.getAlertSeverity Gps.delay (Baseline.deltaSec delayCheck)
                               (inject_Z delayThresholdMin * 60)%Q in
        alert <- alert_create Gps.delay (corridorId input) (tripId input)
                   (vehicleId input) severity (Baseline.deltaSec delayCheck)
                   (DelayDetails (travelSec input)
                      (Baseline.medianTravelSec applicableBaseline)
                      (Baseline.bucketHour applicableBaseline)) ;;
        emit alert ;;;
        ret (alerts ++ [alert])
    end
  else ret alerts.

Definition overspeedBranch (input : AlertInput)
  (applicableBaseline : Baseline.CorridorBaseline)
  (alerts : list Alert) : M (list Alert) :=
  let overspeedCheck :=
    Baseline.checkOverspeedAlert (avgSpeedKmh input) applicableBaseline in
  if Baseline.o_isAlert overspeedCheck then
    existing <- alert_findFirst Gps.overspeed (tripId input) (corridorId input) ;;
    match existing with
    | Some _ => ret alerts
    | None =>
        let severity :=
          Gps.getAlertSeverity Gps.overspeed
            (Baseline.deltaSpeedKmh overspeedCheck)
            (Baseline.p95SpeedKmh applicableBaseline * (1 # 10))%Q in
        alert <- alert_create Gps.overspeed (corridorId input) (tripId input)
                   (vehicleId input) severity
                   (Baseline.deltaSpeedKmh overspeedCheck)
                   (OverspeedDetails (avgSpeedKmh input)
                      (Baseline.p95SpeedKmh applicableBaseline)
                      (Baseline.bucketHour applicableBaseline)) ;;
        emit alert ;;;
        ret (alerts ++ [alert])
    end
  else ret alerts.

(** [None] is the [undefined] of the two early returns; [Some alerts] is the
    returned array.  [delayThresholdMin] is
    [parseInt(process.env.DELAY_THRESHOLD_MINUTES || '15')]. *)
Definition checkAndCreateAlerts (delayThresholdMin : Z) (input : AlertInput)
  : M (option (list Alert)) :=
  baselines <- corridorStats_findMany (corridorId input) ;;
  if (Z.of_nat (List.length baselines) =? 0) then ret None
  else
    match Baseline.getApplicableBaseline baselines (timestamp input) with
    | None => ret None
    | Some applicableBaseline =>
        alerts1 <- delayBranch input applicableBaseline delayThresholdMin [] ;;
        alerts2 <- overspeedBranch input applicableBaseline alerts1 ;;
        ret (Some alerts2)
    end.

End AlertService.

(** ** Ingestion: [POST /api/ingest] *)

Module Ingest.

Import Db.
Local Open Scope db_scope.

(** A point of the request body, before validation.  The fields have the
    JSON types the schema asks for; what the schema still has to check is the
    range of [lat] and [lon] and the format of [ts]. *)
Record RawPoint := mkRaw {
  r_vehicleId : string;
  r_tripId : option string;
  r_ts : string;
  r_lat : Q;
  r_lon : Q;
  r_speed : option Q;
  r_accuracy : option Q;
  r_heading : option Q
}.

(** A validated point; [ts] is kept as the time [new Date(p.ts)] denotes. *)
Record Point := mkPt {
  vehicleId : string;
  tripId : option string;
  ts : Js.Date;
  lat : Q;
  lon : Q;
  speed : option Q;
  accuracy : option Q;
  heading : option Q
}.

(** The request body: the value [request.json()] returns, one point or an
    array of points, or [NotJson] when the body is not JSON and
    [request.json()] throws. *)
Inductive Body :=
| Single (p : RawPoint)
| Batch (ps : list RawPoint)
| NotJson.

Record TripResult := mkResult {
  res_tripId : string;
  res_vehicleId : string;
  pointsProcessed : Z;
  dropsDetected : Z;
  corridorsTraversed : Z
}.

Inductive Response :=
| Ok200 (results : list TripResult)
| Error400 (error : string)
| Error500.

(** What a part of the [try] block comes to: the value it returns, or an
    exception that is not a [ZodError].  The exceptions embedded are those of
    [request.json()] and of [latLngToCell]; the store itself never fails. *)
Inductive Outcome (A : Type) :=
| Returned (a : A)
| Thrown.

Arguments Returned {A} a.
Arguments Thrown {A}.

(** Sequencing inside the [try] block: an exception skips what follows. *)
Definition andThen {A B} (c : M (Outcome A)) (k : A -> M (Outcome B))
  : M (Outcome B) :=
  r <- c ;;
  match r with
  | Returned a => k a
  | Thrown => ret Thrown
  end.

Notation "x <-? c ;; k" := (andThen c (fun x => k))
  (at level 61, c at next level, right associativity) : db_scope.

Record Config := mkConfig {
  TAU_SHORT : Z;
  H3_RESOLUTION : Z;
  DELAY_THRESHOLD_MINUTES : Z
}.

Definition defaultConfig : Config := mkConfig 60 7 15.

Definition TRIP_GAP_MINUTES : Q := 20.

Section Handler.

(** [parseDatetime s] is [Some t] when [s] passes [z.string().datetime()],
    [t] being [new Date(s).getTime()], and [None] otherwise. *)
Variable parseDatetime : string -> option Js.Date.
Variable geo : Gps.Geo.
Variable config : Config.

(** [GPS_POINT_SCHEMA]: [lat] in [[-90, 90]], [lon] in [[-180, 180]], [ts] an
    ISO-8601 date-time. *)
Definition validatePoint (p : RawPoint) : option Point :=
  match parseDatetime (r_ts p) with
  | None => None
  | Some t =>
      if Js.geb (r_lat p) (-90) && Js.leb (r_lat p) 90
         && Js.geb (r_lon p) (-180) && Js.leb (r_lon p) 180
      then Some (mkPt (r_vehicleId p) (r_tripId p) t (r_lat p) (r_lon p)
                      (r_speed p) (r_accuracy p) (r_heading p))
      else None
  end.

(** [BATCH_SCHEMA.parse]: [None] stands for the thrown [ZodError]. *)
Fixpoint validateBatch (ps : list RawPoint) : option (list Point) :=
  match ps with
  | [] => Some []
  | p :: rest =>
      match validatePoint p, validateBatch rest with
      | Some v, Some vs => Some (v :: vs)
      | _, _ => None
      end
  end.

Definition groupByVehicle (points : list Point) : list (string * list Point) :=
  fold_left (fun m point => JsMap.pushTo String.eqb (vehicleId point) point m)
            points [].

(** The segmentation loop; [currentTrip] and [trips] are its two variables. *)
Fixpoint segmentTrips (sorted currentTrip : list Point)
  (trips : list (list Point)) : list (list Point) :=
  match sorted with
  | [] =>
      if (Z.of_nat (List.length currentTrip) >? 0)
      then trips ++ [currentTrip] else trips
  | point :: rest =>
      match List.last (map Some currentTrip) None with
      | None => segmentTrips rest (currentTrip ++ [point]) trips
      | Some lastPoint =>
          let gapMinutes := (inject_Z (ts point - ts lastPoint) / 60000)%Q in
          if Js.gtb gapMinutes TRIP_GAP_MINUTES
          then segmentTrips rest [point] (trips ++ [currentTrip])
          else segmentTrips rest (currentTrip ++ [point]) trips
      end
  end.

Definition toFix (p : Point) : Gps.GPSFix :=
  Gps.mkFix (ts p) (lat p) (lon p) (speed p) (accuracy p) (heading p).

Definition toData (r : TraversalRow) : Baseline.TraversalData :=
  Baseline.mkData (Gps.travelSec (tr_data r)) (Gps.avgSpeedKmh (tr_data r))
                  (Gps.t_startTs (tr_data r)).

Definition updateCorridorBaselines (corridorId : string) : M unit :=
  rows <- traversal_findMany corridorId ;;
  if (Z.of_nat (List.length rows) =? 0) then ret tt
  else
    let baselines :=
      Baseline.computeBaselines corridorId (map toData rows)
                                Baseline.defaultMinSamples in
    forEach baselines corridorStats_upsert.

Definition processTraversal (trip : Trip) (vehicle : Vehicle)
  (traversal : Gps.Traversal) : M unit :=
  let corridorKey := Gps.corridorKey traversal in
  found <- corridor_findUnique corridorKey ;;
  corridor <- match found with
              | Some c => ret c
              | None => corridor_create corridorKey
              end ;;
  traversal_create (mkTraversalRow (c_id corridor) (trip_id trip) traversal) ;;;
  updateCorridorBaselines (c_id corridor) ;;;
  AlertService.checkAndCreateAlerts (DELAY_THRESHOLD_MINUTES config)
    (AlertService.mkInput (c_id corridor) (trip_id trip) (v_id vehicle)
       (Gps.travelSec traversal) (Gps.avgSpeedKmh traversal)
       (Gps.t_startTs traversal)) ;;;
  ret tt.

(** One iteration of the loop over [trips]; the result row is [None] when the
    trip is skipped for having fewer than two points.  The trip, its points
    and its drops are stored before [extractCorridors] is called, and stay
    stored when that call throws. *)
Definition processTrip (vehicle : Vehicle) (tripPoints : list Point)
  : M (Outcome (option TripResult)) :=
  match tripPoints with
  | [] | [_] => ret (Returned None)
  | first :: _ =>
      let startTime := ts first in
      let endTime := ts (List.last tripPoints first) in
      (* [tripPoints[0].tripId ? ... : null]: the empty string is falsy *)
      found <- match tripId first with
               | Some id =>
                   if String.eqb id "" then ret None else trip_findUnique id
               | None => ret None
               end ;;
      trip <- match found with
              | None => trip_create (v_id vehicle) startTime endTime "api_ingest"
              | Some t => trip_update (trip_id t) endTime ;;; ret t
              end ;;
      gPSPoint_createMany
        (map (fun p => mkGPSPoint (trip_id trip) (toFix p)) tripPoints) ;;;
      let gpsFixes := map toFix tripPoints in
      let drops := Gps.detectDrops gpsFixes (inject_Z (TAU_SHORT config)) in
      (if (Z.of_nat (List.length drops) >? 0)
       then drop_createMany (map (mkDropRow (trip_id trip)) drops)
       else ret tt) ;;;
      if Gps.extractionThrows drops (H3_RESOLUTION config) then ret Thrown
      else
        let traversals :=
          Gps.extractCorridors geo drops (H3_RESOLUTION config) in
        forEach traversals (processTraversal trip vehicle) ;;;
        ret (Returned
               (Some (mkResult (trip_id trip) (v_id vehicle)
                        (Z.of_nat (List.length tripPoints))
                        (Z.of_nat (List.length drops))
                        (Z.of_nat (List.length traversals)))))
  end.

Fixpoint processTrips (vehicle : Vehicle) (trips : list (list Point))
  : M (Outcome (list TripResult)) :=
  match trips with
  | [] => ret (Returned [])
  | tripPoints :: rest =>
      r <-? processTrip vehicle tripPoints ;;
      rs <-? processTrips vehicle rest ;;
      ret (Returned (match r with Some x => x :: rs | None => rs end))
  end.

Definition processVehicle (entry : string * list Point)
  : M (Outcome (list TripResult)) :=
  let (vehicleId, vehiclePoints) := entry in
  found <- vehicle_findUnique vehicleId ;;
  vehicle <- match found with
             | Some v => ret v
             | None => vehicle_create vehicleId
             end ;;
  let sorted := Js.sortBy ts vehiclePoints in
  processTrips vehicle (segmentTrips sorted [] []).

Fixpoint processVehicles (entries : list (string * list Point))
  : M (Outcome (list TripResult)) :=
  match entries with
  | [] => ret (Returned [])
  | e :: rest =>
      rs <-? processVehicle e ;;
      rs' <-? processVehicles rest ;;
      ret (Returned (rs ++ rs'))
  end.

(** The [try] block from [BATCH_SCHEMA.parse] on.  A [ZodError] ends in the
    [catch] block with the 400 answer, an exception of the loop with the 500
    answer; what was written before the exception stays written. *)
Definition ingestPoints (points : list RawPoint) : M Response :=
  match validateBatch points with
  | None => ret (Error400 "Validation error")
  | Some validatedPoints =>
      if (Z.of_nat (List.length validatedPoints) =? 0)
      then ret (Error400 "No points provided")
      else
        results <- processVehicles (groupByVehicle validatedPoints) ;;
        match results with
        | Returned rows => ret (Ok200 rows)
        | Thrown => ret Error500
        end
  end.

(** The handler: [Array.isArray(body) ? body : [body]] for a JSON body, and
    the 500 answer of the [catch] block for a body that is not JSON. *)
Definition POST (body : Body) : M Response :=
  match body with
  | Single p => ingestPoints [p]
  | Batch ps => ingestPoints ps
  | NotJson => ret Error500
  end.

End Handler.

End Ingest.

(** ** Batch alert check: [POST /api/compute/alerts] *)

Module AlertBatch.

Import Db.
Local Open Scope db_scope.

(** The counters of the response. *)
Record Summary := mkSummary {
  checked : Z;
  alertsCreated : Z;
  errors : Z;
  total : Z
}.

(** [x || 0] on a number: 0 is the falsy one. *)
Definition orZero (x : Q) : Q := if Js.eqb x 0 then 0 else x.

Definition DAY_MS : Z := 24 * 60 * 60 * 1000.

(** [prisma.traversal.findMany] with [startTs >= oneDayAgo],
    [include: { trip: true }] and [orderBy: { startTs: 'desc' }]; rows with
    the same [startTs] are kept in table order.  [now] is [Date.now()]. *)
Definition recentTraversals (now : Js.Date)
  : M (list (TraversalRow * option Trip)) :=
  gets (fun s =>
    let oneDayAgo := now - DAY_MS in
    let rows :=
      filter (fun r => oneDayAgo <=? Gps.t_startTs (tr_data r))
             (traversals s) in
    map (fun r =>
           (r, find (fun t => String.eqb (trip_id t) (tr_tripId r)) (trips s)))
        (Js.sortBy (fun r => - Gps.t_startTs (tr_data r)) rows)).

Definition inputOf (traversal : TraversalRow) (trip : Trip)
  : AlertService.AlertInput :=
  AlertService.mkInput (tr_corridorId traversal) (tr_tripId traversal)
    (trip_vehicleId trip) (Gps.travelSec (tr_data traversal))
    (orZero (Gps.avgSpeedKmh (tr_data traversal)))
    (Gps.t_startTs (tr_data traversal)).

(** The loop over the traversals; [acc] holds [checked], [alertsCreated] and
    [errors].  A traversal without its trip makes [traversal.trip.vehicleId]
    throw, which the [catch] of the loop body counts as an error. *)
Fixpoint checkAll (delayThresholdMin : Z)
  (rows : list (TraversalRow * option Trip)) (acc : Z * Z * Z)
  : M (Z * Z * Z) :=
  match rows with
  | [] => ret acc
  | (traversal, joined) :: rest =>
      let '(checked, alertsCreated, errors) := acc in
      match joined with
      | None => checkAll delayThresholdMin rest
                         (checked, alertsCreated, errors + 1)
      | Some trip =>
          result <- AlertService.checkAndCreateAlerts delayThresholdMin
                      (inputOf traversal trip) ;;
          (* [if (result) alertsCreated++]: an array is truthy, even empty *)
          let alertsCreated' :=
            match result with
            | Some _ => alertsCreated + 1
            | None => alertsCreated
            end in
          checkAll delayThresholdMin rest (checked + 1, alertsCreated', errors)
      end
  end.

Definition POST (now : Js.Date) (delayThresholdMin : Z) : M Summary :=
  traversals <- recentTraversals now ;;
  counters <- checkAll delayThresholdMin traversals (0, 0, 0) ;;
  let '(checked, alertsCreated, errors) := counters in
  ret (mkSummary checked alertsCreated errors
                 (Z.of_nat (List.length traversals))).

End AlertBatch.

(** ** The earlier revision, end to end

    [detectDrops] and [extractCorridors] as the earlier copy has them. *)

Module LegacyPipeline.

Import Gps.

Definition dropOf (prev curr : GPSFix) (tauShort : Q) : Drop :=
  let gapSec := gapSecOf prev curr in
  {| startTs := ts prev;
     endTs := ts curr;
     startLat := lat prev;
     startLon := lon prev;
     endLat := lat curr;
     endLon := lon curr;
     durationSec := gapSec;
     reason := GpsLegacy.classify tauShort gapSec |}.

Fixpoint scanGaps (tauShort : Q) (prev : GPSFix) (rest : list GPSFix)
  : list Drop :=
  match rest with
  | [] => []
  | curr :: rest' =>
      (if Js.gtb (gapSecOf prev curr) tauShort
       then [dropOf prev curr tauShort] else [])
        ++ scanGaps tauShort curr rest'
  end.

Definition detectDrops (points : list GPSFix) (tauShort : Q) : list Drop :=
  if (Z.of_nat (List.length points) <? 2) then []
  else
    let sorted := sortByTs points in
    let _unused := dropThreshold tauShort sorted in
    match sorted with
    | [] => []
    | p :: rest => scanGaps tauShort p rest
    end.

Fixpoint extractCorridors (geo : Geo) (drops : list Drop) (h3Resolution : Z)
  : list Traversal :=
  match drops with
  | [] => []
  | drop :: rest =>
      match GpsLegacy.resolveDrop geo h3Resolution drop with
      | Some t => t :: extractCorridors geo rest h3Resolution
      | None => extractCorridors geo rest h3Resolution
      end
  end.

End LegacyPipeline.

(** ** Heatmap: [GET /api/heatmap]

    The aggregation of drops and traversals into per-cell counters and the
    properties of the features built from them.  The two library calls can
    throw and are wrapped in [try]/[catch] by the handler: [None] stands for
    the exception. *)

Module Heatmap.

Record HexStats := mkHexStats {
  shortDrops : Z;
  longDrops : Z;
  traversals : Z
}.

Record Feature := mkFeature {
  ring : list (Q * Q);        (* the polygon, as [lon, lat] pairs, closed *)
  hex : string;
  instability : Q;
  f_shortDrops : Z;
  f_longDrops : Z;
  f_traversals : Z
}.

Definition HexMap := list (string * HexStats).

Definition zero : HexStats := mkHexStats 0 0 0.

(** [if (!hexStats.has(hex)) hexStats.set(hex, zero);] followed by an update
    of the object [hexStats.get(hex)!] in place. *)
Definition touch (hex : string) (f : HexStats -> HexStats) (m : HexMap)
  : HexMap :=
  let m1 := if negb (JsMap.has String.eqb hex m)
            then JsMap.set String.eqb hex zero m else m in
  match JsMap.get String.eqb hex m1 with
  | Some stats => JsMap.set String.eqb hex (f stats) m1
  | None => m1
  end.

Definition incShort (s : HexStats) : HexStats :=
  mkHexStats (shortDrops s + 1) (longDrops s) (traversals s).
Definition incLong (s : HexStats) : HexStats :=
  mkHexStats (shortDrops s) (longDrops s + 1) (traversals s).
Definition incTraversals (s : HexStats) : HexStats :=
  mkHexStats (shortDrops s) (longDrops s) (traversals s + 1).

Section Handler.

Variable latLngToCell : Q -> Q -> Z -> option string.
Variable cellToBoundary : string -> option (list (Q * Q)).
Variable h3res : Z.
Variable tauShort : Z.

(** One iteration of the loop over the drops. *)
Definition addDrop (m : HexMap) (drop : Gps.Drop) : HexMap :=
  match latLngToCell (Gps.startLat drop) (Gps.startLon drop) h3res with
  | None => m
  | Some startHex =>
      match latLngToCell (Gps.endLat drop) (Gps.endLon drop) h3res with
      | None => m
      | Some endHex =>
          let isShort :=
            Js.leb (Gps.durationSec drop) (inject_Z tauShort * (3 # 2))%Q in
          fold_left
            (fun acc hex =>
               touch hex (if isShort then incShort else incLong) acc)
            [startHex; endHex] m
      end
  end.

(** One iteration of the loop over the traversals. *)
Definition addTraversal (m : HexMap) (t : Gps.Traversal) : HexMap :=
  match latLngToCell (Gps.t_startLat t) (Gps.t_startLon t) h3res with
  | None => m
  | Some startHex =>
      match latLngToCell (Gps.t_endLat t) (Gps.t_endLon t) h3res with
      | None => m
      | Some endHex =>
          fold_left (fun acc hex => touch hex incTraversals acc)
                    [startHex; endHex] m
      end
  end.

Definition aggregate (drops : list Gps.Drop) (travs : list Gps.Traversal)
  : HexMap :=
  fold_left addTraversal travs (fold_left addDrop drops []).

(** [boundary.map(([lat, lon]) => [lon, lat])] and [ring.push(ring[0])], for
    the non-empty boundary the library returns. *)
Definition closeRing (boundary : list (Q * Q)) : list (Q * Q) :=
  let ring := map (fun p => (snd p, fst p)) boundary in
  ring ++ firstn 1 ring.

Definition featureOf (entry : string * HexStats) : list Feature :=
  let (hex, stats) := entry in
  match cellToBoundary hex with
  | None => []
  | Some boundary =>
      [mkFeature (closeRing boundary) hex
         (Gps.calculateInstabilityScore
            (inject_Z (shortDrops stats)) (inject_Z (longDrops stats))
            (inject_Z (traversals stats)) 1 3)
         (shortDrops stats) (longDrops stats) (traversals stats)]
  end.

Definition features (drops : list Gps.Drop) (travs : list Gps.Traversal)
  : list Feature :=
  flat_map featureOf (aggregate drops travs).

Definition inWindow (from to : option Js.Date) (t : Js.Date) : bool :=
  match from with Some f => f <=? t | None => true end
  && match to with Some u => t <=? u | None => true end.

(** The handler, on the two tables it reads. *)
Definition GET (from to : option Js.Date) (s : Db.State) : list Feature :=
  features
    (filter (fun d => inWindow from to (Gps.startTs d))
            (map Db.dr_drop (Db.drops s)))
    (filter (fun t => inWindow from to (Gps.t_startTs t))
            (map Db.tr_data (Db.traversals s))).

End Handler.

End Heatmap.

(** ** Batch baseline computation: [POST /api/compute/baselines] *)

Module BaselineBatch.

Import Db.
Local Open Scope db_scope.

(** The counters of the response.  The store of this development never
    fails, so the [catch] of the loop body is not reached and [errors]
    stays 0. *)
Record Summary := mkSummary {
  processed : Z;
  errors : Z;
  total : Z
}.

(** [{ travelSec, avgSpeedKmh: t.avgSpeedKmh || 0, startTs }] *)
Definition toData (r : TraversalRow) : Baseline.TraversalData :=
  Baseline.mkData (Gps.travelSec (tr_data r))
                  (AlertBatch.orZero (Gps.avgSpeedKmh (tr_data r)))
                  (Gps.t_startTs (tr_data r)).

(** [prisma.corridor.findMany] *)
Definition corridor_findMany : M (list Corridor) := gets corridors.

(** The loop over the corridors; [processed] is its counter. *)
Fixpoint recomputeAll (corridors : list Corridor) (processed : Z) : M Z :=
  match corridors with
  | [] => ret processed
  | corridor :: rest =>
      traversals <- traversal_findMany (c_id corridor) ;;
      if (Z.of_nat (List.length traversals) =? 0)
      then recomputeAll rest processed
      else
        let baselines :=
          Baseline.computeBaselines (c_id corridor) (map toData traversals)
                                    Baseline.defaultMinSamples in
        forEach baselines corridorStats_upsert ;;;
        recomputeAll rest (processed + 1)
  end.

Definition POST : M Summary :=
  corridors <- corridor_findMany ;;
  processed <- recomputeAll corridors 0 ;;
  ret (mkSummary processed 0 (Z.of_nat (List.length corridors))).

End BaselineBatch.

(** * Properties *)

(** ** Comparisons on numbers *)

Module JsFacts.

Lemma leb_le (x y : Q) : Js.leb x y = true <-> (x <= y)%Q.
Proof. unfold Js.leb. apply Qle_bool_iff. Qed.

Lemma ltb_lt (x y : Q) : Js.ltb x y = true <-> (x < y)%Q.
Proof.
  unfold Js.ltb. rewrite negb_true_iff. split.
  - intros H. apply Qnot_le_lt. intros Hle.
    apply Qle_bool_iff in Hle. congruence.
  - intros H. destruct (Qle_bool y x) eqn:E; [|reflexivity].
    apply Qle_bool_iff in E. exfalso. exact (Qlt_not_le _ _ H E).
Qed.

Lemma gtb_lt (x y : Q) : Js.gtb x y = true <-> (y < x)%Q.
Proof. unfold Js.gtb. apply ltb_lt. Qed.

Lemma geb_le (x y : Q) : Js.geb x y = true <-> (y <= x)%Q.
Proof. unfold Js.geb. apply leb_le. Qed.

Lemma leb_gt (x y : Q) : Js.leb x y = false <-> (y < x)%Q.
Proof.
  rewrite <- ltb_lt. unfold Js.ltb, Js.leb.
  destruct (Qle_bool x y); simpl; split; congruence.
Qed.

Lemma ltb_ge (x y : Q) : Js.ltb x y = false <-> (y <= x)%Q.
Proof.
  rewrite <- leb_le. unfold Js.ltb, Js.leb.
  destruct (Qle_bool y x); simpl; split; congruence.
Qed.

Lemma gtb_le (x y : Q) : Js.gtb x y = false <-> (x <= y)%Q.
Proof. unfold Js.gtb. apply ltb_ge. Qed.

Lemma geb_lt (x y : Q) : Js.geb x y = false <-> (x < y)%Q.
Proof. unfold Js.geb. apply leb_gt. Qed.

End JsFacts.

(** ** Rounding to a double *)

Module FloatFacts.

Import Js.

Lemma pow2_pos (e : Z) : (0 < pow2 e)%Q.
Proof. apply Qpower_0_lt. reflexivity. Qed.

Lemma pow2_nonzero (e : Z) : ~ (pow2 e == 0)%Q.
Proof. intros H. pose proof (pow2_pos e) as P. rewrite H in P. discriminate. Qed.

Lemma pow2_add (a b : Z) : (pow2 (a + b) == pow2 a * pow2 b)%Q.
Proof. apply Qpower_plus. discriminate. Qed.

Lemma pow2_opp (a : Z) : (pow2 (- a) == / pow2 a)%Q.
Proof. apply Qpower_opp. Qed.

Lemma pow2_Z (n : Z) : 0 <= n -> (pow2 n == inject_Z (2 ^ n))%Q.
Proof. intros H. symmetry. exact (Zpower_Qpower 2 n H). Qed.

Lemma pow2_lt (a b : Z) : a < b -> (pow2 a < pow2 b)%Q.
Proof. intros H. apply Qpower_lt_compat_l; [exact H|reflexivity]. Qed.

Lemma pow2_le (a b : Z) : a <= b -> (pow2 a <= pow2 b)%Q.
Proof. intros H. apply Qpower_le_compat_l; [exact H|discriminate]. Qed.

Lemma pow2_lt_inv (a b : Z) : (pow2 a < pow2 b)%Q -> a < b.
Proof. intros H. eapply Qpower_lt_compat_l_inv; [exact H|reflexivity]. Qed.

(** [ilog2 a] is the exponent of the binade of [a]. *)
Lemma ilog2_spec (a : Q) :
  (0 < a)%Q -> (pow2 (ilog2 a) <= a)%Q /\ (a < pow2 (ilog2 a + 1))%Q.
Proof.
  intros Ha. unfold ilog2. destruct (Qle_bool 1 a) eqn:E.
  - apply Qle_bool_iff in E.
    assert (Hf : 1 <= Qfloor a).
    { exact (Qfloor_resp_le _ _ E). }
    pose proof (Z.log2_spec (Qfloor a) ltac:(lia)) as [L U].
    pose proof (Z.log2_nonneg (Qfloor a)) as N.
    split.
    + rewrite pow2_Z by exact N.
      eapply Qle_trans; [|apply Qfloor_le]. rewrite <- Zle_Qle. exact L.
    + rewrite pow2_Z by lia.
      eapply Qlt_le_trans; [apply Qlt_floor|]. rewrite <- Zle_Qle.
      unfold Z.succ in U. lia.
  - assert (E1 : (a < 1)%Q).
    { apply Qnot_le_lt. intros H. apply Qle_bool_iff in H. congruence. }
    assert (Hb : (1 < / a)%Q).
    { apply Qlt_shift_inv_l; [exact Ha|]. lra. }
    set (c := Qceiling (/ a)).
    assert (Hc : 1 < c).
    { pose proof (Qle_ceiling (/ a)) as H. fold c in H.
      apply Z.nle_gt. intros Hle. rewrite Zle_Qle in Hle.
      change (inject_Z 1) with 1%Q in Hle. lra. }
    pose proof (Z.log2_up_spec c Hc) as [L U].
    pose proof (Z.log2_up_pos c Hc) as P.
    set (k := Z.log2_up c) in *.
    assert (Hinv : (0 < / a)%Q) by (apply Qinv_lt_0_compat; exact Ha).
    split.
    + rewrite pow2_opp.
      apply Qle_shift_inv_r; [apply pow2_pos|].
      assert (Hk : (/ a <= pow2 k)%Q).
      { rewrite pow2_Z by lia. eapply Qle_trans; [apply Qle_ceiling|].
        rewrite <- Zle_Qle. exact U. }
      assert (H1 : (a * / a == 1)%Q) by (apply Qmult_inv_r; lra).
      rewrite <- H1. apply Qmult_le_l; [exact Ha|exact Hk].
    + replace (- k + 1) with (- (k - 1)) by lia. rewrite pow2_opp.
      apply Qlt_shift_inv_l; [apply pow2_pos|].
      assert (Hk : (pow2 (k - 1) < / a)%Q).
      { rewrite pow2_Z by lia.
        eapply Qle_lt_trans; [|apply Qceiling_lt]. rewrite <- Zle_Qle.
        fold c. change (Z.pred k) with (k - 1) in L. lia. }
      assert (H1 : (a * / a == 1)%Q) by (apply Qmult_inv_r; lra).
      rewrite <- H1. apply Qmult_lt_l; [exact Ha|exact Hk].
Qed.

Lemma ilog2_mono (x y : Q) :
  (0 < x)%Q -> (x <= y)%Q -> ilog2 x <= ilog2 y.
Proof.
  intros Hx Hxy.
  destruct (ilog2_spec x Hx) as [Lx _].
  destruct (ilog2_spec y ltac:(lra)) as [_ Uy].
  assert (H : (pow2 (ilog2 x) < pow2 (ilog2 y + 1))%Q) by lra.
  apply pow2_lt_inv in H. lia.
Qed.

Lemma ilog2_comp (x y : Q) : (x == y)%Q -> ilog2 x = ilog2 y.
Proof.
  intros H. unfold ilog2. rewrite H.
  rewrite (Qfloor_comp _ _ H).
  assert (H' : (/ x == / y)%Q) by (rewrite H; reflexivity).
  rewrite (Qceiling_comp _ _ H'). reflexivity.
Qed.

Lemma compare_cases (x y : Q) :
  match (x ?= y)%Q with
  | Eq => (x == y)%Q
  | Lt => (x < y)%Q
  | Gt => (y < x)%Q
  end.
Proof.
  destruct (x ?= y)%Q eqn:E.
  - now apply Qeq_alt.
  - now apply Qlt_alt.
  - now apply Qgt_alt.
Qed.

(** Rounding to the nearest integer, ties to even. *)
Lemma rne_cases (s : Q) :
  (rne s = Qfloor s /\ (s - inject_Z (Qfloor s) <= 1 # 2)%Q) \/
  (rne s = Qfloor s + 1 /\ (1 # 2 <= s - inject_Z (Qfloor s))%Q).
Proof.
  unfold rne. cbv zeta.
  destruct (s - inject_Z (Qfloor s) ?= 1 # 2)%Q eqn:E.
  - apply Qeq_alt in E. destruct (Z.even (Qfloor s)).
    + left. split; [reflexivity|lra].
    + right. split; [reflexivity|lra].
  - apply Qlt_alt in E. left. split; [reflexivity|lra].
  - apply Qgt_alt in E. right. split; [reflexivity|lra].
Qed.

Lemma rne_near (s : Q) :
  (s - (1 # 2) <= inject_Z (rne s))%Q /\ (inject_Z (rne s) <= s + (1 # 2))%Q.
Proof.
  pose proof (Qfloor_le s) as L. pose proof (Qlt_floor s) as U.
  rewrite inject_Z_plus in U. change (inject_Z 1) with 1%Q in U.
  destruct (rne_cases s) as [[-> H] | [-> H]].
  - split; lra.
  - rewrite inject_Z_plus. change (inject_Z 1) with 1%Q. split; lra.
Qed.

Lemma rne_Z (n : Z) : rne (inject_Z n) = n.
Proof.
  unfold rne. cbv zeta. rewrite Qfloor_Z.
  assert (E : (inject_Z n - inject_Z n ?= 1 # 2)%Q = Lt).
  { apply Qlt_alt. setoid_replace (inject_Z n - inject_Z n)%Q with 0%Q by ring.
    reflexivity. }
  rewrite E. reflexivity.
Qed.

Lemma rne_comp (s t : Q) : (s == t)%Q -> rne s = rne t.
Proof.
  intros H. unfold rne. cbv zeta. rewrite (Qfloor_comp _ _ H).
  assert (E : (s - inject_Z (Qfloor t) == t - inject_Z (Qfloor t))%Q)
    by (rewrite H; reflexivity).
  rewrite (Qcompare_comp _ _ E (1 # 2)%Q (1 # 2)%Q (Qeq_refl _)). reflexivity.
Qed.

Lemma rne_mono (s t : Q) : (s <= t)%Q -> rne s <= rne t.
Proof.
  intros H. pose proof (Qfloor_resp_le _ _ H) as Hf.
  destruct (Z.eq_dec (Qfloor s) (Qfloor t)) as [E | NE].
  - unfold rne. cbv zeta. rewrite E.
    pose proof (compare_cases (s - inject_Z (Qfloor t)) (1 # 2)) as Cs.
    pose proof (compare_cases (t - inject_Z (Qfloor t)) (1 # 2)) as Ct.
    destruct (s - inject_Z (Qfloor t) ?= 1 # 2)%Q;
      destruct (t - inject_Z (Qfloor t) ?= 1 # 2)%Q;
      try (destruct (Z.even (Qfloor t))); try lia; exfalso; lra.
  - destruct (rne_cases s) as [[-> _] | [-> _]];
      destruct (rne_cases t) as [[-> _] | [-> _]]; lia.
Qed.

(** The scaled significand of a positive number lies in [2^52, 2^53). *)
Lemma scaled_range (q : Q) :
  (0 < q)%Q ->
  (pow2 52 <= q / pow2 (ilog2 q - 52))%Q /\
  (q / pow2 (ilog2 q - 52) < pow2 53)%Q.
Proof.
  intros Hq. destruct (ilog2_spec q Hq) as [L U].
  set (e := ilog2 q) in *.
  pose proof (pow2_pos (e - 52)) as P.
  split.
  - apply Qle_shift_div_l; [exact P|].
    rewrite <- pow2_add. replace (52 + (e - 52)) with e by lia. exact L.
  - apply Qlt_shift_div_r; [exact P|].
    rewrite <- pow2_add. replace (53 + (e - 52)) with (e + 1) by lia. exact U.
Qed.

Lemma fl_pos_eq (q : Q) :
  (0 < q)%Q ->
  fl q = (inject_Z (rne (q / pow2 (ilog2 q - 52))) * pow2 (ilog2 q - 52))%Q.
Proof.
  intros Hq. unfold fl.
  destruct (Qeq_bool q 0) eqn:E.
  - apply Qeq_bool_iff in E. rewrite E in Hq. discriminate.
  - cbv zeta. rewrite (ilog2_comp (Qabs q) q); [reflexivity|].
    apply Qabs_pos. lra.
Qed.

Lemma fl_comp (x y : Q) : (x == y)%Q -> fl x = fl y.
Proof.
  intros H. unfold fl. rewrite (Qeqb_comp _ _ H 0%Q 0%Q (Qeq_refl _)).
  destruct (Qeq_bool y 0); [reflexivity|]. cbv zeta.
  rewrite (ilog2_comp (Qabs x) (Qabs y)) by (apply Qabs_wd; exact H).
  rewrite (rne_comp (x / pow2 (ilog2 (Qabs y) - 52))
                    (y / pow2 (ilog2 (Qabs y) - 52)))
    by (rewrite H; reflexivity).
  reflexivity.
Qed.

Lemma fl_0 : fl 0 = 0%Q.
Proof. reflexivity. Qed.

(** A positive number and its rounding lie in the same closed binade. *)
Lemma fl_binade (q : Q) :
  (0 < q)%Q ->
  (pow2 (ilog2 q) <= fl q)%Q /\ (fl q <= pow2 (ilog2 q + 1))%Q.
Proof.
  intros Hq. rewrite (fl_pos_eq q Hq).
  destruct (scaled_range q Hq) as [L U].
  set (e := ilog2 q) in *. set (s := (q / pow2 (e - 52))%Q) in *.
  pose proof (pow2_pos (e - 52)) as P.
  assert (L' : 2 ^ 52 <= rne s).
  { rewrite <- (rne_Z (2 ^ 52)). apply rne_mono.
    rewrite <- pow2_Z by lia. exact L. }
  assert (U' : rne s <= 2 ^ 53).
  { rewrite <- (rne_Z (2 ^ 53)). apply rne_mono.
    rewrite <- pow2_Z by lia. lra. }
  split.
  - replace e with (52 + (e - 52)) at 1 by lia. rewrite pow2_add.
    apply Qmult_le_compat_r; [|lra].
    rewrite pow2_Z by lia. rewrite <- Zle_Qle. exact L'.
  - replace (e + 1) with (53 + (e - 52)) by lia. rewrite pow2_add.
    apply Qmult_le_compat_r; [|lra].
    rewrite pow2_Z by lia. rewrite <- Zle_Qle. exact U'.
Qed.

Lemma fl_pos (q : Q) : (0 < q)%Q -> (0 < fl q)%Q.
Proof.
  intros Hq. destruct (fl_binade q Hq) as [L _].
  pose proof (pow2_pos (ilog2 q)). lra.
Qed.

(** Rounding is monotone on the positive numbers. *)
Lemma fl_mono (x y : Q) : (0 < x)%Q -> (x <= y)%Q -> (fl x <= fl y)%Q.
Proof.
  intros Hx Hxy. assert (Hy : (0 < y)%Q) by lra.
  pose proof (ilog2_mono x y Hx Hxy) as He.
  destruct (Z.eq_dec (ilog2 x) (ilog2 y)) as [E | NE].
  - rewrite (fl_pos_eq x Hx), (fl_pos_eq y Hy), E.
    pose proof (pow2_pos (ilog2 y - 52)) as P.
    apply Qmult_le_compat_r; [|lra].
    rewrite <- Zle_Qle. apply rne_mono.
    apply Qmult_le_compat_r; [exact Hxy|].
    apply Qlt_le_weak. apply Qinv_lt_0_compat. exact P.
  - destruct (fl_binade x Hx) as [_ Ux]. destruct (fl_binade y Hy) as [Ly _].
    assert (H : (pow2 (ilog2 x + 1) <= pow2 (ilog2 y))%Q)
      by (apply pow2_le; lia).
    lra.
Qed.

(** The rounding error is at most half a unit in the last place, hence at
    most [2^-53] of the number. *)
Lemma fl_error (q : Q) :
  (0 < q)%Q ->
  (q * (1 - pow2 (-53)) <= fl q)%Q /\ (fl q <= q * (1 + pow2 (-53)))%Q.
Proof.
  intros Hq. rewrite (fl_pos_eq q Hq).
  destruct (ilog2_spec q Hq) as [L _].
  set (e := ilog2 q) in *. set (s := (q / pow2 (e - 52))%Q).
  pose proof (pow2_pos (e - 52)) as P.
  destruct (rne_near s) as [N1 N2].
  assert (Hs : (s * pow2 (e - 52) == q)%Q).
  { unfold s. unfold Qdiv. rewrite <- Qmult_assoc.
    rewrite (Qmult_comm (/ pow2 (e - 52))).
    rewrite Qmult_inv_r by (apply pow2_nonzero). ring. }
  assert (Hh : ((1 # 2) * pow2 (e - 52) <= q * pow2 (-53))%Q).
  { assert (H2 : ((1 # 2) * pow2 (e - 52) == pow2 e * pow2 (-53))%Q).
    { rewrite <- pow2_add. replace (e + -53) with (-1 + (e - 52)) by lia.
      rewrite pow2_add. reflexivity. }
    rewrite H2. apply Qmult_le_compat_r; [exact L|].
    apply Qlt_le_weak. apply pow2_pos. }
  assert (M1 : ((s - (1 # 2)) * pow2 (e - 52)
                <= inject_Z (rne s) * pow2 (e - 52))%Q)
    by (apply Qmult_le_compat_r; [exact N1|lra]).
  assert (M2 : (inject_Z (rne s) * pow2 (e - 52)
                <= (s + (1 # 2)) * pow2 (e - 52))%Q)
    by (apply Qmult_le_compat_r; [exact N2|lra]).
  split.
  - eapply Qle_trans; [|exact M1].
    setoid_replace ((s - (1 # 2)) * pow2 (e - 52))%Q
      with (q - (1 # 2) * pow2 (e - 52))%Q by (rewrite <- Hs; ring).
    lra.
  - eapply Qle_trans; [exact M2|].
    setoid_replace ((s + (1 # 2)) * pow2 (e - 52))%Q
      with (q + (1 # 2) * pow2 (e - 52))%Q by (rewrite <- Hs; ring).
    lra.
Qed.

(** Integers below [2^53] are represented exactly. *)
Lemma fl_int (n : Z) : 0 < n < 2 ^ 53 -> (fl (inject_Z n) == inject_Z n)%Q.
Proof.
  intros [Hn Hb].
  assert (Hq : (0 < inject_Z n)%Q).
  { change 0%Q with (inject_Z 0). rewrite <- Zlt_Qlt. exact Hn. }
  rewrite (fl_pos_eq _ Hq).
  assert (He : ilog2 (inject_Z n) = Z.log2 n).
  { unfold ilog2.
    assert (E : Qle_bool 1 (inject_Z n) = true).
    { apply Qle_bool_iff. change 1%Q with (inject_Z 1). rewrite <- Zle_Qle. lia. }
    rewrite E, Qfloor_Z. reflexivity. }
  rewrite He. set (k := Z.log2 n).
  assert (Hk : 0 <= k <= 52).
  { split; [apply Z.log2_nonneg|].
    assert (H : k < 53) by (apply Z.log2_lt_pow2; lia). lia. }
  assert (Hs : (inject_Z n / pow2 (k - 52) == inject_Z (n * 2 ^ (52 - k)))%Q).
  { rewrite inject_Z_mult. rewrite <- pow2_Z by lia.
    replace (52 - k) with (- (k - 52)) by lia. rewrite pow2_opp. reflexivity. }
  rewrite (rne_comp _ _ Hs), rne_Z, inject_Z_mult, <- pow2_Z by lia.
  rewrite <- Qmult_assoc, <- pow2_add.
  replace (52 - k + (k - 52)) with 0 by lia. change (pow2 0) with 1%Q. ring.
Qed.

(** The same bound with the constant written out. *)
Lemma fl_error_num (q : Q) :
  (0 < q)%Q ->
  (q * (9007199254740991 # 9007199254740992) <= fl q)%Q /\
  (fl q <= q * (9007199254740993 # 9007199254740992))%Q.
Proof.
  intros Hq. destruct (fl_error q Hq) as [L U].
  change (pow2 (-53)) with (1 # 9007199254740992)%Q in L, U.
  split; lra.
Qed.

Lemma quot_le_iff (ms B : Z) :
  (inject_Z ms / 1000 <= inject_Z B)%Q <-> ms <= 1000 * B.
Proof.
  rewrite Zle_Qle, inject_Z_mult. change (inject_Z 1000) with 1000%Q.
  unfold Qdiv. change (/ 1000)%Q with (1 # 1000)%Q. split; intros H; lra.
Qed.

Lemma quot_lt_iff (ms B : Z) :
  (inject_Z B < inject_Z ms / 1000)%Q <-> 1000 * B < ms.
Proof.
  rewrite Zlt_Qlt, inject_Z_mult. change (inject_Z 1000) with 1000%Q.
  unfold Qdiv. change (/ 1000)%Q with (1 # 1000)%Q. split; intros H; lra.
Qed.

(** A quotient of milliseconds by 1000 against an integer number of
    seconds: rounding the quotient does not change the comparison. *)
Lemma fl_quot_le (ms B : Z) :
  0 < ms -> 0 < B < 2 ^ 53 -> ms <= 1000 * B ->
  (fl (inject_Z ms / 1000) <= inject_Z B)%Q.
Proof.
  intros Hms HB Hle.
  rewrite <- (fl_int B HB). apply fl_mono.
  - apply Qlt_shift_div_l; [reflexivity|]. rewrite Qmult_0_l.
    change 0%Q with (inject_Z 0). rewrite <- Zlt_Qlt. exact Hms.
  - apply Qle_shift_div_r; [reflexivity|].
    change 1000%Q with (inject_Z 1000). rewrite <- inject_Z_mult, <- Zle_Qle. lia.
Qed.

Lemma fl_quot_gt (ms B : Z) :
  0 < B < 2 ^ 40 -> 1000 * B < ms ->
  (inject_Z B < fl (inject_Z ms / 1000))%Q.
Proof.
  intros [HB0 HB] Hlt.
  assert (Hq : (inject_Z B + (1 # 1000) <= inject_Z ms / 1000)%Q).
  { apply Qle_shift_div_l; [reflexivity|].
    assert (H : (inject_Z (1000 * B + 1) <= inject_Z ms)%Q)
      by (rewrite <- Zle_Qle; lia).
    rewrite inject_Z_plus, inject_Z_mult in H.
    change (inject_Z 1000) with 1000%Q in H. change (inject_Z 1) with 1%Q in H.
    lra. }
  assert (HB0' : (0 < inject_Z B)%Q)
    by (change 0%Q with (inject_Z 0); rewrite <- Zlt_Qlt; exact HB0).
  assert (HB' : (inject_Z B < inject_Z (2 ^ 40))%Q)
    by (rewrite <- Zlt_Qlt; exact HB).
  change (inject_Z (2 ^ 40)) with 1099511627776%Q in HB'.
  destruct (fl_error_num (inject_Z ms / 1000)) as [L _]; [lra|].
  lra.
Qed.

(** The rounded product [tauShort * 1.2] against the exact one. *)
Lemma fmul_c12_bounds (tau : Q) :
  (0 < tau)%Q ->
  (tau * (6 # 5) * (1 - (1 # 4503599627370496)) <= fmul tau c12)%Q /\
  (fmul tau c12 <= tau * (6 # 5) * (1 + (1 # 9007199254740992)))%Q.
Proof.
  intros Ht. unfold fmul.
  assert (Hc : c12 = (5404319552844595 # 4503599627370496)%Q)
    by (vm_compute; reflexivity).
  rewrite Hc.
  destruct (fl_error_num (tau * (5404319552844595 # 4503599627370496))) as [L U];
    [lra|].
  split; lra.
Qed.

End FloatFacts.

(** ** Drop detection *)

Module DropDetector.

Import Gps.

Lemma scanGaps_In (tauShort : Q) (d : Drop) :
  forall rest prev,
    In d (scanGaps tauShort prev rest) ->
    exists p c, d = dropOf p c tauShort /\ (tauShort < gapSecOf p c)%Q.
Proof.
  induction rest as [|curr rest IH]; intros prev Hin; simpl in Hin.
  - contradiction.
  - apply in_app_or in Hin. destruct Hin as [Hin | Hin].
    + destruct (Js.gtb (gapSecOf prev curr) tauShort) eqn:E.
      * destruct Hin as [<- | []]. exists prev, curr. split; [reflexivity|].
        now apply JsFacts.gtb_lt.
      * contradiction.
    + eauto.
Qed.

Lemma detectDrops_In (points : list GPSFix) (tauShort : Q) (d : Drop) :
  In d (detectDrops points tauShort) ->
  exists p c, d = dropOf p c tauShort /\ (tauShort < gapSecOf p c)%Q.
Proof.
  unfold detectDrops, gapEvents.
  destruct (Z.of_nat (List.length points) <? 2); [contradiction|].
  destruct (sortByTs points) as [|p rest]; [contradiction|].
  apply scanGaps_In.
Qed.

Lemma classify_long_gap (tauShort g : Q) :
  classify tauShort g = long_gap <-> (600 < g)%Q.
Proof.
  unfold classify. destruct (Js.gtb g 600) eqn:E.
  - apply JsFacts.gtb_lt in E. tauto.
  - apply JsFacts.gtb_le in E.
    split.
    + destruct (Js.leb (Js.fl g) (Js.fmul tauShort Js.c12)); discriminate.
    + intros H. exfalso. exact (Qlt_not_le _ _ H E).
Qed.

Lemma classify_micro_drop (tauShort g : Q) :
  classify tauShort g = micro_drop <->
  (g <= 600)%Q /\ (Js.fl g <= Js.fmul tauShort Js.c12)%Q.
Proof.
  unfold classify. destruct (Js.gtb g 600) eqn:E.
  - apply JsFacts.gtb_lt in E. split; [discriminate|].
    intros [H _]. exfalso. exact (Qlt_not_le _ _ E H).
  - apply JsFacts.gtb_le in E.
    destruct (Js.leb (Js.fl g) (Js.fmul tauShort Js.c12)) eqn:F.
    + apply JsFacts.leb_le in F. tauto.
    + apply JsFacts.leb_gt in F. split; [discriminate|].
      intros [_ H]. exfalso. exact (Qlt_not_le _ _ F H).
Qed.

Lemma classify_weak_signal (tauShort g : Q) :
  classify tauShort g = weak_signal <->
  (g <= 600)%Q /\ (Js.fmul tauShort Js.c12 < Js.fl g)%Q.
Proof.
  unfold classify. destruct (Js.gtb g 600) eqn:E.
  - apply JsFacts.gtb_lt in E. split; [discriminate|].
    intros [H _]. exfalso. exact (Qlt_not_le _ _ E H).
  - apply JsFacts.gtb_le in E.
    destruct (Js.leb (Js.fl g) (Js.fmul tauShort Js.c12)) eqn:F.
    + apply JsFacts.leb_le in F. split; [discriminate|].
      intros [_ H]. exfalso. exact (Qlt_not_le _ _ H F).
    + apply JsFacts.leb_gt in F. tauto.
Qed.

(** A gap is a whole number of milliseconds, so that rounding its quotient
    by 1000 does not move it across a whole number of seconds. *)
Lemma gap_le_fl (ms B : Z) :
  0 < ms -> 0 < B < 2 ^ 40 ->
  (Js.fl (inject_Z ms / 1000) <= inject_Z B)%Q <->
  (inject_Z ms / 1000 <= inject_Z B)%Q.
Proof.
  intros Hms HB.
  pose proof (FloatFacts.quot_le_iff ms B) as Hq.
  rewrite Hq. split.
  - intros H. apply Z.nlt_ge. intros Hlt.
    pose proof (FloatFacts.fl_quot_gt ms B HB Hlt) as Hgt.
    exact (Qlt_not_le _ _ Hgt H).
  - intros H. apply FloatFacts.fl_quot_le; [exact Hms|lia|exact H].
Qed.

(** With [tauShort = 62] the rounded product is just below 74.4, and a gap
    of 74.4 seconds, which is at most [62 * 1.2] in exact arithmetic, is a
    weak-signal drop. *)
Lemma rounded_product_62 :
  (Js.fmul 62 Js.c12 < 744 # 10)%Q /\
  (744 # 10 <= 62 * (6 # 5))%Q /\
  classify 62 (inject_Z 74400 / 1000) = weak_signal /\
  classify 60 (inject_Z 72000 / 1000) = micro_drop.
Proof.
  split; [vm_compute; reflexivity|]. split; [vm_compute; discriminate|].
  split; vm_compute; reflexivity.
Qed.

(** Two fixes 650 seconds apart, detected with [tauShort = 550]. *)
Definition fixAt (t : Z) (la lo : Q) : GPSFix := mkFix t la lo None None None.

Definition late_points : list GPSFix :=
  [fixAt 0 (1 # 1) (1 # 1); fixAt 650000 (2 # 1) (2 # 1)].

(** C1, counterexample.  With [tauShort = 550] the single gap event of
    [late_points] lasts 650 seconds, which is at most [tauShort * 1.2 = 660],
    and yet it is classified [long_gap], not [micro_drop]: a gap within 1.2
    times the threshold is not always a micro drop. *)
Lemma micro_iff_fails_above_ceiling :
  map durationSec (detectDrops late_points 550) = [650000 # 1000]%Q /\
  map reason (detectDrops late_points 550) = [long_gap] /\
  (550 < 650000 # 1000)%Q /\
  (650000 # 1000 <= 550 * (6 # 5))%Q /\
  ~ (forall d, In d (detectDrops late_points 550) ->
       (reason d = micro_drop <-> (durationSec d <= 550 * (6 # 5))%Q)).
Proof.
  split; [reflexivity|]. split; [reflexivity|].
  split; [reflexivity|]. split; [discriminate|].
  intros H.
  specialize (H (dropOf (fixAt 0 (1 # 1) (1 # 1))
                        (fixAt 650000 (2 # 1) (2 # 1)) 550)).
  assert (Hin : In (dropOf (fixAt 0 (1 # 1) (1 # 1))
                           (fixAt 650000 (2 # 1) (2 # 1)) 550)
                   (detectDrops late_points 550)) by (left; reflexivity).
  apply H in Hin. destruct Hin as [_ Hmicro].
  assert (Hle : (durationSec (dropOf (fixAt 0 (1 # 1) (1 # 1))
                   (fixAt 650000 (2 # 1) (2 # 1)) 550) <= 550 * (6 # 5))%Q)
    by (vm_compute; discriminate).
  apply Hmicro in Hle. vm_compute in Hle. discriminate.
Qed.

(** C1, as amended.  Every gap event [d] that [detectDrops] emits lasts more
    than [tauShort] seconds, its duration [g] is the time between its two
    ends, and its reason is decided in this order: [long_gap] (extended) iff
    [g] exceeds 600; [micro_drop] iff [g] is at most 600 and, as doubles, [g]
    is at most the product [tauShort * 1.2]; [weak_signal] (transit) iff [g]
    is at most 600 and above that product.  When the product is at most 600
    the micro case is just "at most the product".  The rounded product lies
    within one part in [2^52] of [tauShort * 6/5], so that for a positive
    [tauShort] a gap of at most 600 and at most [tauShort * 6/5 * (1 - 2^-51)]
    is a micro drop and no micro drop lasts more than
    [tauShort * 6/5 * (1 + 2^-51)].  For the default [tauShort = 60] the
    product is 72 and the three classes are 60 < g <= 72, 72 < g <= 600 and
    g > 600. *)
Theorem drop_classification (points : list GPSFix) (tauShort : Q) (d : Drop) :
  In d (detectDrops points tauShort) ->
  let g := durationSec d in
  let product := Js.fmul tauShort Js.c12 in
  (tauShort < g)%Q /\
  g = (inject_Z (endTs d - startTs d) / 1000)%Q /\
  (reason d = long_gap <-> (600 < g)%Q) /\
  (reason d = micro_drop <-> (g <= 600)%Q /\ (Js.fl g <= product)%Q) /\
  (reason d = weak_signal <-> (g <= 600)%Q /\ (product < Js.fl g)%Q) /\
  ((product <= 600)%Q -> (reason d = micro_drop <-> (Js.fl g <= product)%Q)) /\
  ((0 < tauShort)%Q ->
     ((g <= 600)%Q ->
      (g <= tauShort * (6 # 5) * (1 - (1 # 2251799813685248)))%Q ->
      reason d = micro_drop) /\
     (reason d = micro_drop ->
      (g <= tauShort * (6 # 5) * (1 + (1 # 2251799813685248)))%Q)) /\
  (tauShort == 60 ->
     (reason d = micro_drop <-> (60 < g)%Q /\ (g <= 72)%Q) /\
     (reason d = weak_signal <-> (72 < g)%Q /\ (g <= 600)%Q) /\
     (reason d = long_gap <-> (600 < g)%Q))%Q.
Proof.
  intros Hin g product.
  destruct (detectDrops_In _ _ _ Hin) as (p & c & -> & Hgap).
  subst g. cbn [dropOf durationSec reason endTs startTs].
  fold (gapSecOf p c). set (g := gapSecOf p c) in *.
  pose proof (classify_long_gap tauShort g) as HL.
  pose proof (classify_micro_drop tauShort g) as HM.
  pose proof (classify_weak_signal tauShort g) as HW.
  fold product in HM, HW.
  set (ms := Js.getTime (ts c) - Js.getTime (ts p)).
  assert (Hg : g = (inject_Z ms / 1000)%Q) by reflexivity.
  split; [exact Hgap|]. split; [reflexivity|].
  split; [exact HL|]. split; [exact HM|]. split; [exact HW|].
  split; [|split].
  - intros Hceil. rewrite HM. split; [tauto|].
    intros Hle. split; [|exact Hle].
    destruct (Qlt_le_dec 600 g) as [Hgt | Hle600]; [|exact Hle600].
    exfalso.
    assert (Hms : 1000 * 600 < ms)
      by (apply FloatFacts.quot_lt_iff; rewrite <- Hg; exact Hgt).
    pose proof (FloatFacts.fl_quot_gt ms 600 ltac:(lia) Hms) as H600.
    rewrite <- Hg in H600. change (inject_Z 600) with 600%Q in H600.
    apply (Qlt_irrefl 600). eapply Qlt_le_trans; [exact H600|].
    eapply Qle_trans; eassumption.
  - intros Htau.
    destruct (FloatFacts.fmul_c12_bounds tauShort Htau) as [PL PU].
    fold product in PL, PU.
    assert (Hgpos : (0 < g)%Q) by (eapply Qlt_trans; eassumption).
    destruct (FloatFacts.fl_error_num g Hgpos) as [GL GU].
    split.
    + intros H600 Hle. apply HM. split; [exact H600|]. lra.
    + intros Hmicro. apply HM in Hmicro. destruct Hmicro as [_ Hle]. lra.
  - intros Htau.
    assert (E72 : (product == 72)%Q).
    { unfold product, Js.fmul.
      rewrite (FloatFacts.fl_comp (tauShort * Js.c12) (60 * Js.c12))
        by (rewrite Htau; reflexivity).
      vm_compute. reflexivity. }
    rewrite E72 in HM, HW. rewrite Htau in Hgap.
    assert (Hms : 0 < ms).
    { assert (H : 1000 * 60 < ms)
        by (apply FloatFacts.quot_lt_iff; rewrite <- Hg; exact Hgap).
      lia. }
    pose proof (gap_le_fl ms 72 Hms ltac:(lia)) as H72.
    rewrite <- Hg in H72. change (inject_Z 72) with 72%Q in H72.
    split; [|split; [|exact HL]].
    + rewrite HM, H72. split.
      * intros [_ Hle]. split; assumption.
      * intros [_ Hle]. split; [|exact Hle].
        eapply Qle_trans; [exact Hle|]. discriminate.
    + rewrite HW. split.
      * intros [H600 Hlt]. split; [|exact H600].
        apply Qnot_le_lt. intros Hle. apply H72 in Hle.
        exact (Qlt_not_le _ _ Hlt Hle).
      * intros [Hlt H600]. split; [exact H600|].
        apply Qnot_le_lt. intros Hle. apply H72 in Hle.
        exact (Qlt_not_le _ _ Hlt Hle).
Qed.

Lemma drop_classification_witness :
  let d := dropOf (fixAt 0 (1 # 1) (1 # 1)) (fixAt 650000 (2 # 1) (2 # 1)) 60 in
  In d (detectDrops late_points 60) /\
  (reason d = long_gap <-> (600 < durationSec d)%Q).
Proof.
  intros d.
  assert (Hin : In d (detectDrops late_points 60)) by (left; reflexivity).
  split; [exact Hin|].
  exact (proj1 (proj2 (proj2 (drop_classification late_points 60 d Hin)))).
Defined.

End DropDetector.

(** ** The stable sort *)

Module SortFacts.

Section SortBy.
Context {A : Type} (key : A -> Z).

Ltac by_key_cases :=
  repeat match goal with
         | |- context [?a <=? ?b] => destruct (Z.leb_spec a b); simpl
         end; try lia; try reflexivity.

Lemma insertBy_perm (x : A) (l : list A) :
  Permutation (x :: l) (Js.insertBy key x l).
Proof.
  induction l as [|y ys IH]; simpl.
  - apply Permutation_refl.
  - destruct (key x <=? key y).
    + apply Permutation_refl.
    + eapply perm_trans; [apply perm_swap|]. now apply perm_skip.
Qed.

Lemma sortBy_perm (l : list A) : Permutation l (Js.sortBy key l).
Proof.
  induction l as [|x xs IH]; simpl.
  - apply perm_nil.
  - eapply perm_trans; [apply perm_skip, IH|]. apply (insertBy_perm x).
Qed.

Lemma sortBy_length (l : list A) :
  List.length (Js.sortBy key l) = List.length l.
Proof. symmetry. apply Permutation_length, sortBy_perm. Qed.

Definition keyLe (a b : A) : Prop := key a <= key b.

Lemma insertBy_sorted (x : A) (l : list A) :
  Sorted keyLe l -> Sorted keyLe (Js.insertBy key x l).
Proof.
  induction l as [|y ys IH]; intros Hs; simpl.
  - repeat constructor.
  - destruct (Z.leb_spec (key x) (key y)).
    + constructor; [exact Hs|]. constructor. exact H.
    + inversion Hs as [|? ? Hys Hhd]; subst.
      constructor; [now apply IH|].
      destruct ys as [|z zs]; simpl.
      * constructor. unfold keyLe. lia.
      * destruct (Z.leb_spec (key x) (key z)).
        -- constructor. unfold keyLe. lia.
        -- inversion Hhd; subst. now constructor.
Qed.

Lemma sortBy_sorted (l : list A) : Sorted keyLe (Js.sortBy key l).
Proof.
  induction l as [|x xs IH]; simpl.
  - constructor.
  - now apply insertBy_sorted.
Qed.

(** Insertions of elements with different keys commute. *)
Lemma insertBy_comm (x y : A) (l : list A) :
  key x <> key y ->
  Js.insertBy key x (Js.insertBy key y l)
  = Js.insertBy key y (Js.insertBy key x l).
Proof.
  intros Hne. induction l as [|z zs IH]; simpl.
  - by_key_cases.
  - by_key_cases. now rewrite IH.
Qed.

(** Among elements with pairwise different keys, the sorted array does not
    depend on the order of the input. *)
Lemma sortBy_permutation_invariant (l l' : list A) :
  Permutation l l' ->
  NoDup (map key l) ->
  Js.sortBy key l = Js.sortBy key l'.
Proof.
  induction 1 as [|x l l' Hp IH|x y l|l l' l'' Hp1 IH1 Hp2 IH2]; intros Hnd.
  - reflexivity.
  - simpl. inversion Hnd; subst. now rewrite IH.
  - simpl. apply insertBy_comm.
    inversion Hnd as [|? ? Hnotin _]; subst.
    intros E. apply Hnotin. left. symmetry. exact E.
  - rewrite IH1 by exact Hnd. apply IH2.
    eapply Permutation_NoDup; [|exact Hnd]. now apply Permutation_map.
Qed.

(** Stability: the elements that share a key come out in their input
    order. *)
Lemma insertBy_filter_key (k : Z) (x : A) (l : list A) :
  filter (fun a => key a =? k) (Js.insertBy key x l)
  = filter (fun a => key a =? k) (x :: l).
Proof.
  induction l as [|y ys IH]; simpl.
  - reflexivity.
  - destruct (Z.leb_spec (key x) (key y)) as [Hle|Hgt]; simpl.
    + reflexivity.
    + rewrite IH. simpl.
      destruct (Z.eqb_spec (key x) k), (Z.eqb_spec (key y) k);
        try reflexivity; lia.
Qed.

Lemma sortBy_stable (k : Z) (l : list A) :
  filter (fun a => key a =? k) (Js.sortBy key l)
  = filter (fun a => key a =? k) l.
Proof.
  induction l as [|x xs IH]; simpl.
  - reflexivity.
  - rewrite insertBy_filter_key. simpl. now rewrite IH.
Qed.

End SortBy.

End SortFacts.

(** ** Order independence of drop detection *)

Module DropOrder.

Import Gps.

Definition tsOf (p : GPSFix) : Z := Js.getTime (ts p).

(** Two fixes with the same time stamp at different places, then a third one
    a hundred seconds later; and the same three with the first two swapped. *)
Definition tied_points : list GPSFix :=
  [mkFix 0 (1 # 1) (1 # 1) None None None;
   mkFix 0 (2 # 1) (2 # 1) None None None;
   mkFix 100000 (3 # 1) (3 # 1) None None None].

Definition tied_points_swapped : list GPSFix :=
  [mkFix 0 (2 # 1) (2 # 1) None None None;
   mkFix 0 (1 # 1) (1 # 1) None None None;
   mkFix 100000 (3 # 1) (3 # 1) None None None].

(** C10, counterexample.  The two lists hold the same fixes, yet the gap
    event detected in the first starts at latitude 2 and the one detected in
    the second at latitude 1: fixes with equal time stamps keep their input
    order through the sort, so the output depends on that order. *)
Lemma detectDrops_depends_on_order_of_ties :
  Permutation tied_points tied_points_swapped /\
  map startLat (detectDrops tied_points 60) = [2 # 1]%Q /\
  map startLat (detectDrops tied_points_swapped 60) = [1 # 1]%Q /\
  detectDrops tied_points 60 <> detectDrops tied_points_swapped 60.
Proof.
  split; [apply perm_swap|]. split; [reflexivity|]. split; [reflexivity|].
  intros H. apply (f_equal (map startLat)) in H. vm_compute in H.
  discriminate.
Qed.

(** C10, as amended.  [detectDrops] returns the gap events of the stable
    time-sort of its input: a time-ordered permutation of the input in which
    fixes with equal time stamps keep their input order.  Its output is the
    same for every permutation of a list whose time stamps are pairwise
    distinct, and it is empty for every list with fewer than two fixes. *)
Theorem detectDrops_sorts_internally (points : list GPSFix) (tauShort : Q) :
  detectDrops points tauShort = gapEvents tauShort (sortByTs points) /\
  Permutation points (sortByTs points) /\
  Sorted (fun a b => tsOf a <= tsOf b) (sortByTs points) /\
  (forall t, filter (fun p => tsOf p =? t) (sortByTs points)
             = filter (fun p => tsOf p =? t) points) /\
  (forall points',
     Permutation points points' ->
     NoDup (map tsOf points) ->
     detectDrops points' tauShort = detectDrops points tauShort) /\
  ((List.length points < 2)%nat -> detectDrops points tauShort = []).
Proof.
  assert (Hshort : (List.length points < 2)%nat ->
                   gapEvents tauShort (sortByTs points) = []).
  { destruct points as [|a [|b rest]]; simpl; intros H;
      try reflexivity; lia. }
  assert (Hdef : detectDrops points tauShort
                 = gapEvents tauShort (sortByTs points)).
  { unfold detectDrops.
    destruct (Z.ltb_spec (Z.of_nat (List.length points)) 2) as [Hlt|Hge].
    - symmetry. apply Hshort. lia.
    - reflexivity. }
  split; [exact Hdef|].
  split; [apply SortFacts.sortBy_perm|].
  split; [apply (SortFacts.sortBy_sorted tsOf)|].
  split; [intros t; apply (SortFacts.sortBy_stable tsOf)|].
  split.
  - intros points' Hperm Hnd.
    unfold detectDrops.
    rewrite <- (Permutation_length Hperm).
    unfold sortByTs.
    pose proof (SortFacts.sortBy_permutation_invariant tsOf _ _ Hperm Hnd)
      as E.
    unfold tsOf in E. rewrite <- E. reflexivity.
  - intros Hlt. rewrite Hdef. now apply Hshort.
Qed.

Definition spaced_points : list GPSFix :=
  [mkFix 100000 (3 # 1) (3 # 1) None None None;
   mkFix 0 (1 # 1) (1 # 1) None None None].

Lemma detectDrops_sorts_internally_witness :
  detectDrops (rev spaced_points) 60 = detectDrops spaced_points 60 /\
  detectDrops [mkFix 0 (1 # 1) (1 # 1) None None None] 60 = [].
Proof.
  split.
  - apply (proj1 (proj2 (proj2 (proj2 (proj2
             (detectDrops_sorts_internally spaced_points 60)))))).
    + apply perm_swap.
    + repeat constructor; simpl; intuition discriminate.
  - apply (proj2 (proj2 (proj2 (proj2 (proj2
             (detectDrops_sorts_internally
                [mkFix 0 (1 # 1) (1 # 1) None None None] 60)))))).
    simpl. lia.
Defined.

End DropOrder.

(** ** Corridor extraction *)

Module CorridorResolver.

Import Gps.

(** The filters of one loop iteration, as a property of the drop. *)
Definition passesFilters (geo : Geo) (d : Drop) : Prop :=
  reason d <> long_gap /\
  (1 # 100 <= distanceKmOf geo d)%Q /\
  (avgSpeedKmhOf geo d <= 200)%Q.

Lemma reason_eqb_eq (a b : DropReason) : reason_eqb a b = true <-> a = b.
Proof. destruct a, b; simpl; split; congruence. Qed.

Lemma resolveDrop_Some_iff (geo : Geo) (h3Resolution : Z) (d : Drop) :
  resolveDrop geo h3Resolution d <> None <-> passesFilters geo d.
Proof.
  unfold resolveDrop, passesFilters.
  destruct (reason_eqb (reason d) long_gap) eqn:R.
  - apply reason_eqb_eq in R. split; [congruence|tauto].
  - assert (Hne : reason d <> long_gap).
    { intros E. apply reason_eqb_eq in E. congruence. }
    destruct (Js.ltb (distanceKmOf geo d) (1 # 100)) eqn:D.
    + apply JsFacts.ltb_lt in D. split; [congruence|].
      intros (_ & Hd & _). exfalso. exact (Qlt_not_le _ _ D Hd).
    + apply JsFacts.ltb_ge in D.
      destruct (Js.gtb (avgSpeedKmhOf geo d) 200) eqn:V.
      * apply JsFacts.gtb_lt in V. split; [congruence|].
        intros (_ & _ & Hv). exfalso. exact (Qlt_not_le _ _ V Hv).
      * apply JsFacts.gtb_le in V. split; [tauto|discriminate].
Qed.

Lemma resolveDrop_fields (geo : Geo) (h3Resolution : Z) (d : Drop)
  (t : Traversal) :
  resolveDrop geo h3Resolution d = Some t ->
  aH3 (corridorKey t)
    = latLngToCell geo (startLat d) (startLon d) h3Resolution /\
  bH3 (corridorKey t)
    = latLngToCell geo (endLat d) (endLon d) h3Resolution /\
  direction (corridorKey t) = directionBucketOf geo d /\
  t_startTs t = startTs d /\ t_endTs t = endTs d /\
  travelSec t = durationSec d /\
  avgSpeedKmh t = avgSpeedKmhOf geo d.
Proof.
  unfold resolveDrop.
  destruct (reason_eqb (reason d) long_gap); [discriminate|].
  destruct (Js.ltb (distanceKmOf geo d) (1 # 100)); [discriminate|].
  destruct (Js.gtb (avgSpeedKmhOf geo d) 200); [discriminate|].
  intros E. injection E as <-. simpl. repeat split; reflexivity.
Qed.

Definition emitted (geo : Geo) (h3Resolution : Z) (d : Drop)
  : list Traversal :=
  match resolveDrop geo h3Resolution d with
  | Some t => [t]
  | None => []
  end.

Lemma extractCorridors_flat_map (geo : Geo) (h3Resolution : Z)
  (drops : list Drop) :
  extractCorridors geo drops h3Resolution
  = flat_map (emitted geo h3Resolution) drops.
Proof.
  induction drops as [|d rest IH]; simpl.
  - reflexivity.
  - unfold emitted at 1.
    destruct (resolveDrop geo h3Resolution d); simpl; now rewrite IH.
Qed.

(** The two revisions disagree on a gap of 80 seconds (micro before, transit
    now) and on one of 400 seconds (extended before, transit now). *)
Lemma revisions_differ :
  GpsLegacy.classify 60 80 = micro_drop /\ classify 60 80 = weak_signal /\
  GpsLegacy.classify 60 400 = long_gap /\ classify 60 400 = weak_signal.
Proof. repeat split; reflexivity. Qed.

(** A crude planar geometry, used only to run the code on examples (every
    theorem below holds for any geometry): one-degree square cells, taxicab
    distance at 111 km per degree, bearing due north. *)
Definition zstr (z : Z) : string := NilZero.string_of_int (Z.to_int z).

Definition planarGeo : Geo :=
  {| latLngToCell := fun la lo _ =>
       String.append (zstr (Qfloor la)) (String.append "," (zstr (Qfloor lo)));
     distance := fun a b =>
       (111 * (Qabs (snd b - snd a) + Qabs (fst b - fst a)))%Q;
     bearing := fun _ _ => 0%Q |}.

(** Two fixes 70 seconds and about 220 metres apart. *)
Definition micro_points : list GPSFix :=
  [mkFix 0 (13 # 1) (100 # 1) None None None;
   mkFix 70000 (13001 # 1000) (100001 # 1000) None None None].

(** C2, counterexample.  The gap between the two fixes is a [micro_drop]
    (70 s, at most 72 s), it passes the distance and speed filters, and
    [extractCorridors] emits a traversal for it: micro drops do produce
    traversals, so emission is not equivalent to "transit and within the
    filters". *)
Lemma micro_drop_yields_traversal :
  map reason (detectDrops micro_points 60) = [micro_drop] /\
  map travelSec (extractCorridors planarGeo (detectDrops micro_points 60) 7)
    = [70000 # 1000]%Q /\
  ~ (forall geo drops h3Resolution d,
       In d drops ->
       (resolveDrop geo h3Resolution d <> None <->
        reason d = weak_signal /\
        (1 # 100 <= distanceKmOf geo d)%Q /\
        (avgSpeedKmhOf geo d <= 200)%Q)).
Proof.
  split; [reflexivity|]. split; [reflexivity|].
  intros H.
  pose (d := dropOf (mkFix 0 (13 # 1) (100 # 1) None None None)
               (mkFix 70000 (13001 # 1000) (100001 # 1000) None None None)
               60).
  specialize (H planarGeo [d] 7 d (or_introl eq_refl)).
  destruct H as [H _].
  assert (Hemit : resolveDrop planarGeo 7 d <> None)
    by (vm_compute; discriminate).
  apply H in Hemit. destruct Hemit as [Hreason _].
  vm_compute in Hreason. discriminate.
Qed.

(** C2, as amended.  [extractCorridors] emits a traversal for a drop, in
    input order, if and only if the drop's reason is not [long_gap]
    (transit and micro drops alike), the straight-line distance between its
    ends is at least 0.01 km and its average speed is at most 200 km/h; a
    [long_gap] (extended) drop never produces a traversal.  The traversal
    carries the drop's duration and that average speed. *)
Theorem corridor_extraction_filters (geo : Geo) (h3Resolution : Z)
  (drops : list Drop) :
  (forall d, resolveDrop geo h3Resolution d <> None <->
             (reason d = weak_signal \/ reason d = micro_drop) /\
             (1 # 100 <= distanceKmOf geo d)%Q /\
             (avgSpeedKmhOf geo d <= 200)%Q) /\
  (forall d, reason d = long_gap -> resolveDrop geo h3Resolution d = None) /\
  extractCorridors geo drops h3Resolution
    = flat_map (emitted geo h3Resolution) drops /\
  (forall t, In t (extractCorridors geo drops h3Resolution) <->
             exists d, In d drops /\ resolveDrop geo h3Resolution d = Some t) /\
  (forall d t, resolveDrop geo h3Resolution d = Some t ->
               travelSec t = durationSec d /\
               avgSpeedKmh t = avgSpeedKmhOf geo d).
Proof.
  split; [|split; [|split; [|split]]].
  - intros d. rewrite resolveDrop_Some_iff. unfold passesFilters.
    destruct (reason d); intuition congruence.
  - intros d Hd. unfold resolveDrop. rewrite Hd. reflexivity.
  - apply extractCorridors_flat_map.
  - intros t. rewrite extractCorridors_flat_map, in_flat_map.
    split; intros (d & Hin & Hd); exists d; (split; [exact Hin|]).
    + unfold emitted in Hd.
      destruct (resolveDrop geo h3Resolution d); simpl in Hd;
        [destruct Hd as [<- | []]; reflexivity | contradiction].
    + unfold emitted. rewrite Hd. now left.
  - intros d t Hd.
    pose proof (resolveDrop_fields _ _ _ _ Hd). tauto.
Qed.

Lemma corridor_extraction_filters_witness :
  let d := dropOf (mkFix 0 (13 # 1) (100 # 1) None None None)
             (mkFix 70000 (13001 # 1000) (100001 # 1000) None None None) 60 in
  reason d = micro_drop /\ resolveDrop planarGeo 7 d <> None.
Proof.
  intros d. split; [reflexivity|].
  apply (proj1 (corridor_extraction_filters planarGeo 7 [d]) d).
  split; [right; reflexivity|].
  split; apply Qle_bool_iff; reflexivity.
Defined.

(** A transit drop of 180 seconds whose two ends, about 220 metres apart,
    lie in one cell. *)
Definition same_cell_drop : Drop :=
  {| startTs := 0; endTs := 180000;
     startLat := 13 # 1; startLon := 100 # 1;
     endLat := 13001 # 1000; endLon := 100001 # 1000;
     durationSec := 180 # 1; reason := weak_signal |}.

(** C3: what the code does with a self-loop.  A drop that is not a
    [long_gap], that passes the distance and speed filters and whose two ends
    resolve to the same cell is NOT filtered: [extractCorridors] emits a
    traversal for it, with [aH3 = bH3]. *)
Theorem self_loop_is_emitted (geo : Geo) (h3Resolution : Z) (d : Drop) :
  reason d <> long_gap ->
  (1 # 100 <= distanceKmOf geo d)%Q ->
  (avgSpeedKmhOf geo d <= 200)%Q ->
  latLngToCell geo (startLat d) (startLon d) h3Resolution
    = latLngToCell geo (endLat d) (endLon d) h3Resolution ->
  exists t,
    extractCorridors geo [d] h3Resolution = [t] /\
    aH3 (corridorKey t) = bH3 (corridorKey t).
Proof.
  intros Hr Hd Hv Hcell.
  assert (Hp : passesFilters geo d) by (unfold passesFilters; tauto).
  apply (resolveDrop_Some_iff geo h3Resolution) in Hp.
  destruct (resolveDrop geo h3Resolution d) as [t|] eqn:E; [|congruence].
  exists t. split.
  - simpl. rewrite E. reflexivity.
  - destruct (resolveDrop_fields _ _ _ _ E) as (Ha & Hb & _).
    rewrite Ha, Hb. exact Hcell.
Qed.

Lemma self_loop_is_emitted_witness :
  exists t,
    extractCorridors planarGeo [same_cell_drop] 7 = [t] /\
    aH3 (corridorKey t) = bH3 (corridorKey t).
Proof.
  apply (self_loop_is_emitted planarGeo 7 same_cell_drop).
  - discriminate.
  - vm_compute. discriminate.
  - vm_compute. discriminate.
  - reflexivity.
Defined.

End CorridorResolver.

(** ** Facts about [Map] *)

Module MapFacts.

Section Keys.
Context {K X : Type} (eqb : K -> K -> bool).
Hypothesis eqb_eq : forall a b, eqb a b = true <-> a = b.

Definition keys (m : list (K * list X)) : list K := map fst m.

(** The array under a key, empty when the key is absent. *)
Definition bucket (o : option (list X)) : list X :=
  match o with Some v => v | None => [] end.

Lemma eqb_refl (k : K) : eqb k k = true.
Proof. now apply eqb_eq. Qed.

Lemma eqb_neq (a b : K) : a <> b -> eqb a b = false.
Proof.
  intros H. destruct (eqb a b) eqn:E; [|reflexivity].
  apply eqb_eq in E. contradiction.
Qed.

Lemma has_get (k : K) (m : list (K * list X)) :
  JsMap.has eqb k m = match JsMap.get eqb k m with
                      | Some _ => true
                      | None => false
                      end.
Proof.
  induction m as [|[h v] rest IH]; simpl; [reflexivity|].
  destruct (eqb h k); [reflexivity|exact IH].
Qed.

Lemma has_keys (k : K) (m : list (K * list X)) :
  JsMap.has eqb k m = true <-> In k (keys m).
Proof.
  induction m as [|[h v] rest IH]; simpl.
  - split; [discriminate|contradiction].
  - destruct (eqb h k) eqn:E.
    + apply eqb_eq in E. tauto.
    + rewrite IH. split; [tauto|].
      intros [H|H]; [|exact H]. apply eqb_eq in H. congruence.
Qed.

Lemma get_set_eq (k : K) (v : list X) (m : list (K * list X)) :
  JsMap.get eqb k (JsMap.set eqb k v m) = Some v.
Proof.
  induction m as [|[h w] rest IH]; simpl.
  - now rewrite eqb_refl.
  - destruct (eqb h k) eqn:E; simpl; rewrite E; [reflexivity|exact IH].
Qed.

Lemma get_set_neq (k k' : K) (v : list X) (m : list (K * list X)) :
  k <> k' ->
  JsMap.get eqb k' (JsMap.set eqb k v m) = JsMap.get eqb k' m.
Proof.
  intros Hne. induction m as [|[h w] rest IH]; simpl.
  - now rewrite (eqb_neq _ _ Hne).
  - destruct (eqb h k) eqn:E; simpl.
    + apply eqb_eq in E. subst h. now rewrite (eqb_neq _ _ Hne).
    + destruct (eqb h k'); [reflexivity|exact IH].
Qed.

Lemma keys_set (k : K) (v : list X) (m : list (K * list X)) :
  keys (JsMap.set eqb k v m)
  = if JsMap.has eqb k m then keys m else keys m ++ [k].
Proof.
  induction m as [|[h w] rest IH]; simpl; [reflexivity|].
  destruct (eqb h k) eqn:E; simpl; [reflexivity|].
  rewrite IH. now destruct (JsMap.has eqb k rest).
Qed.

Lemma get_pushTo (k k' : K) (x : X) (m : list (K * list X)) :
  JsMap.get eqb k' (JsMap.pushTo eqb k x m)
  = if eqb k k' then Some (bucket (JsMap.get eqb k m) ++ [x])
    else JsMap.get eqb k' m.
Proof.
  unfold JsMap.pushTo, JsMap.push.
  rewrite (has_get k m).
  destruct (JsMap.get eqb k m) as [v|] eqn:G; simpl.
  - rewrite G. destruct (eqb k k') eqn:E.
    + apply eqb_eq in E. subst k'. apply get_set_eq.
    + apply get_set_neq. intros ->. now rewrite eqb_refl in E.
  - rewrite get_set_eq. destruct (eqb k k') eqn:E.
    + apply eqb_eq in E. subst k'. apply get_set_eq.
    + assert (Hne : k <> k') by (intros ->; now rewrite eqb_refl in E).
      now rewrite !get_set_neq.
Qed.

Lemma keys_pushTo (k : K) (x : X) (m : list (K * list X)) :
  keys (JsMap.pushTo eqb k x m)
  = if JsMap.has eqb k m then keys m else keys m ++ [k].
Proof.
  unfold JsMap.pushTo, JsMap.push.
  destruct (JsMap.has eqb k m) eqn:H; simpl.
  - pose proof H as H'. rewrite has_get in H'.
    destruct (JsMap.get eqb k m); [|discriminate].
    now rewrite keys_set, H.
  - rewrite get_set_eq, keys_set.
    assert (Hin : JsMap.has eqb k (JsMap.set eqb k [] m) = true).
    { rewrite has_get, get_set_eq. reflexivity. }
    rewrite Hin, keys_set, H. reflexivity.
Qed.

Lemma NoDup_keys_pushTo (k : K) (x : X) (m : list (K * list X)) :
  NoDup (keys m) -> NoDup (keys (JsMap.pushTo eqb k x m)).
Proof.
  intros Hnd. rewrite keys_pushTo.
  destruct (JsMap.has eqb k m) eqn:H; [exact Hnd|].
  apply NoDup_app; [exact Hnd|repeat constructor; simpl; tauto|].
  intros a Ha [<-|[]]. apply has_keys in Ha. congruence.
Qed.

Lemma get_In (k : K) (v : list X) (m : list (K * list X)) :
  JsMap.get eqb k m = Some v -> In (k, v) m.
Proof.
  induction m as [|[h w] rest IH]; simpl; [discriminate|].
  destruct (eqb h k) eqn:E.
  - apply eqb_eq in E. intros [= ->]. left. now subst.
  - intros H. right. now apply IH.
Qed.

Lemma In_get (k : K) (v : list X) (m : list (K * list X)) :
  NoDup (keys m) -> In (k, v) m -> JsMap.get eqb k m = Some v.
Proof.
  induction m as [|[h w] rest IH]; simpl; [contradiction|].
  intros Hnd Hin. inversion Hnd as [|? ? Hnotin Hnd']; subst.
  destruct Hin as [[= -> ->]|Hin].
  - now rewrite eqb_refl.
  - destruct (eqb h k) eqn:E.
    + apply eqb_eq in E. subst h. exfalso. apply Hnotin.
      unfold keys. change k with (fst (k, v)). now apply in_map.
    + now apply IH.
Qed.

End Keys.

End MapFacts.

(** ** Baseline store *)

Module BaselineStore.

Import Baseline.

(** The traversals that start in UTC hour [h], in input order. *)
Definition inHour (ts : list TraversalData) (h : Z) : list TraversalData :=
  filter (fun t => getHourBucket (startTs t) =? h) ts.

(** A bucket after more traversals are pushed: it exists as soon as it
    existed before or receives a traversal. *)
Definition extend (o : option (list TraversalData)) (l : list TraversalData)
  : option (list TraversalData) :=
  match o, l with
  | None, [] => None
  | _, _ => Some (MapFacts.bucket o ++ l)
  end.

Lemma hour_range (d : Js.Date) : 0 <= getHourBucket d < 24.
Proof. unfold getHourBucket, Js.getUTCHours. apply Z.mod_pos_bound. lia. Qed.

Lemma get_groupStep (h : Z) (m : Buckets) (t : TraversalData) :
  JsMap.get Z.eqb h (groupStep m t)
  = if getHourBucket (startTs t) =? h
    then Some (MapFacts.bucket
                 (JsMap.get Z.eqb (getHourBucket (startTs t)) m) ++ [t])
    else JsMap.get Z.eqb h m.
Proof. unfold groupStep. apply (MapFacts.get_pushTo Z.eqb Z.eqb_eq). Qed.

Lemma get_fold_groupStep (h : Z) :
  forall ts m,
    JsMap.get Z.eqb h (fold_left groupStep ts m)
    = extend (JsMap.get Z.eqb h m) (inHour ts h).
Proof.
  induction ts as [|t ts IH]; intros m; simpl.
  - destruct (JsMap.get Z.eqb h m); simpl; [now rewrite app_nil_r|reflexivity].
  - rewrite IH, get_groupStep.
    destruct (Z.eqb_spec (getHourBucket (startTs t)) h) as [->|Hne].
    + destruct (JsMap.get Z.eqb h m) as [v|]; simpl.
      * now rewrite <- app_assoc.
      * reflexivity.
    + reflexivity.
Qed.

Lemma NoDup_keys_fold :
  forall ts m,
    NoDup (MapFacts.keys m) ->
    NoDup (MapFacts.keys (fold_left groupStep ts m)).
Proof.
  induction ts as [|t ts IH]; intros m Hnd; simpl; [exact Hnd|].
  apply IH. unfold groupStep.
  now apply (MapFacts.NoDup_keys_pushTo Z.eqb Z.eqb_eq).
Qed.

Lemma NoDup_keys_groupByHour (ts : list TraversalData) :
  NoDup (MapFacts.keys (groupByHour ts)).
Proof. apply NoDup_keys_fold. constructor. Qed.

(** The map built by the grouping loop holds, for every hour in which some
    traversal starts, exactly the traversals of that hour. *)
Lemma groupByHour_In (ts : list TraversalData) (h : Z)
  (v : list TraversalData) :
  In (h, v) (groupByHour ts) <-> inHour ts h <> [] /\ v = inHour ts h.
Proof.
  assert (G : JsMap.get Z.eqb h (groupByHour ts) = extend None (inHour ts h))
    by apply get_fold_groupStep.
  split.
  - intros Hin.
    apply (MapFacts.In_get Z.eqb Z.eqb_eq) in Hin;
      [|apply NoDup_keys_groupByHour].
    rewrite G in Hin. destruct (inHour ts h); simpl in Hin.
    + discriminate.
    + injection Hin as <-. split; [discriminate|reflexivity].
  - intros [Hne ->]. apply (MapFacts.get_In Z.eqb Z.eqb_eq).
    rewrite G. destruct (inHour ts h); [congruence|reflexivity].
Qed.

Lemma inHour_hour (ts : list TraversalData) (h : Z) :
  inHour ts h <> [] -> 0 <= h < 24.
Proof.
  intros Hne. destruct (inHour ts h) as [|t l] eqn:E; [congruence|].
  assert (Hin : In t (inHour ts h)) by (rewrite E; now left).
  unfold inHour in Hin. apply filter_In in Hin. destruct Hin as [_ Hh].
  apply Z.eqb_eq in Hh. subst h. apply hour_range.
Qed.

Lemma hourlyBaselines_In (cid : string) (minSamples : Z) (b : CorridorBaseline) :
  forall m,
    In b (hourlyBaselines cid minSamples m) <->
    exists h v, In (h, v) m /\ minSamples <= Z.of_nat (List.length v) /\
                b = baselineOf cid h v.
Proof.
  induction m as [|[h v] rest IH]; simpl.
  - split; [contradiction|]. intros (? & ? & [] & _).
  - destruct (Z.geb_spec (Z.of_nat (List.length v)) minSamples) as [Hge|Hlt];
      simpl; rewrite IH; split.
    + intros [<-|(h' & v' & Hin & Hmin & ->)].
      * exists h, v. repeat split; [now left|lia].
      * exists h', v'. repeat split; [now right|exact Hmin].
    + intros (h' & v' & [[= <- <-]|Hin] & Hmin & ->).
      * now left.
      * right. exists h', v'. tauto.
    + intros (h' & v' & Hin & Hmin & ->). exists h', v'. tauto.
    + intros (h' & v' & [[= <- <-]|Hin] & Hmin & ->).
      * lia.
      * exists h', v'. tauto.
Qed.

Lemma hourlyBaselines_hours (cid : string) (minSamples : Z) (h : Z) :
  forall m,
    In h (map bucketHour (hourlyBaselines cid minSamples m)) ->
    In h (MapFacts.keys m).
Proof.
  induction m as [|[h' v] rest IH]; simpl; [tauto|].
  destruct (Z.of_nat (List.length v) >=? minSamples); simpl.
  - intros [<-|H]; [now left|right; now apply IH].
  - intros H. right. now apply IH.
Qed.

Lemma hourlyBaselines_NoDup (cid : string) (minSamples : Z) :
  forall m,
    NoDup (MapFacts.keys m) ->
    NoDup (map bucketHour (hourlyBaselines cid minSamples m)).
Proof.
  induction m as [|[h v] rest IH]; simpl; intros Hnd; [constructor|].
  inversion Hnd as [|? ? Hnotin Hnd']; subst.
  destruct (Z.of_nat (List.length v) >=? minSamples); simpl.
  - constructor; [|now apply IH].
    intros Hin. apply Hnotin. eapply hourlyBaselines_hours. exact Hin.
  - now apply IH.
Qed.

(** Six traversals that start in UTC hour 10, with travel times 100, 100,
    100, 101, 101 and 101 seconds. *)
Definition at10 (travel : Q) (i : Z) : TraversalData :=
  mkData travel (50 # 1) (36000000 + i).

Definition six_in_hour_10 : list TraversalData :=
  [at10 (100 # 1) 0; at10 (100 # 1) 1; at10 (100 # 1) 2;
   at10 (101 # 1) 3; at10 (101 # 1) 4; at10 (101 # 1) 5].

(** C4, counterexample.  The median travel time of the six traversals is
    100.5 s, but both baselines computed from them (hour 10 and global) hold
    101: the stored value is the median rounded to a whole number.  And with
    [minSamplesForHourly = 0] no baseline is produced for hour 11, although
    "at least 0" traversals start in it: an empty hour never gets one. *)
Lemma baseline_median_is_rounded :
  (Stats.median (map travelSec six_in_hour_10) == 201 # 2)%Q /\
  map bucketHour (computeBaselines "c" six_in_hour_10 5) = [10; -1] /\
  map medianTravelSec (computeBaselines "c" six_in_hour_10 5)
    = [101 # 1; 101 # 1]%Q /\
  ~ (forall b, In b (computeBaselines "c" six_in_hour_10 5) ->
       (medianTravelSec b == Stats.median (map travelSec six_in_hour_10))%Q) /\
  0 <= Z.of_nat (List.length (inHour six_in_hour_10 11)) /\
  map bucketHour (computeBaselines "c" six_in_hour_10 0) = [10; -1].
Proof.
  split; [reflexivity|]. split; [reflexivity|]. split; [reflexivity|].
  split; [|split; [simpl; lia|reflexivity]].
  intros H.
  specialize (H (baselineOf "c" (-1) six_in_hour_10)).
  assert (Hin : In (baselineOf "c" (-1) six_in_hour_10)
                   (computeBaselines "c" six_in_hour_10 5))
    by (vm_compute; right; left; reflexivity).
  apply H in Hin. vm_compute in Hin. discriminate.
Qed.

Lemma global_part (cid : string) (ts : list TraversalData) :
  (if Z.of_nat (List.length ts) >? 0 then [baselineOf cid (-1) ts] else [])
  = match ts with [] => [] | _ => [baselineOf cid (-1) ts] end.
Proof. destruct ts; reflexivity. Qed.

Lemma hourly_hours_in_range (cid : string) (minSamples : Z)
  (ts : list TraversalData) (b : CorridorBaseline) :
  In b (hourlyBaselines cid minSamples (groupByHour ts)) ->
  0 <= bucketHour b < 24.
Proof.
  intros Hin. apply hourlyBaselines_In in Hin.
  destruct Hin as (h & v & Hin & _ & ->).
  apply groupByHour_In in Hin. destruct Hin as [Hne _].
  simpl. now apply (inHour_hour ts).
Qed.

(** C4, as amended.  [computeBaselines] produces exactly these baselines:
    for every UTC hour [h] in which at least one and at least
    [minSamplesForHourly] traversals start, one hourly baseline, whose count
    is the number of that hour's traversals, whose [medianTravelSec] is the
    median of their travel times rounded to the nearest integer (halves up)
    and whose [p95SpeedKmh] is the 95th percentile of their speeds; and, when
    there is at least one traversal, exactly one global baseline (bucket -1),
    listed last and computed the same way over all traversals whatever their
    number.  No two baselines share a bucket, and an empty traversal set
    gives no baseline. *)
Theorem computeBaselines_spec (cid : string) (ts : list TraversalData)
  (minSamples : Z) :
  let bs := computeBaselines cid ts minSamples in
  (forall b,
     In b bs <->
     (exists h, inHour ts h <> [] /\
                minSamples <= Z.of_nat (List.length (inHour ts h)) /\
                b = baselineOf cid h (inHour ts h))
     \/ (ts <> [] /\ b = baselineOf cid (-1) ts)) /\
  (forall h, h <> -1 ->
     ((exists b, In b bs /\ bucketHour b = h) <->
      Z.max 1 minSamples <= Z.of_nat (List.length (inHour ts h)))) /\
  (forall h l,
     baselineOf cid h l
     = {| corridorId := cid;
          bucketHour := h;
          count := Z.of_nat (List.length l);
          medianTravelSec :=
            inject_Z (Js.Math_round (Stats.median (map travelSec l)));
          p95SpeedKmh := Stats.percentile (map avgSpeedKmh l) 95 |}) /\
  NoDup (map bucketHour bs) /\
  (ts <> [] ->
   exists hourly,
     bs = hourly ++ [baselineOf cid (-1) ts] /\
     forall b, In b hourly -> 0 <= bucketHour b < 24) /\
  (ts = [] -> bs = []).
Proof.
  intros bs.
  assert (Hin : forall b,
     In b bs <->
     (exists h, inHour ts h <> [] /\
                minSamples <= Z.of_nat (List.length (inHour ts h)) /\
                b = baselineOf cid h (inHour ts h))
     \/ (ts <> [] /\ b = baselineOf cid (-1) ts)).
  { intros b. unfold bs, computeBaselines.
    rewrite in_app_iff, global_part, hourlyBaselines_In.
    split.
    - intros [(h & v & Hg & Hmin & ->)|Hglob].
      + apply groupByHour_In in Hg. destruct Hg as [Hne ->].
        left. exists h. tauto.
      + right. destruct ts; [contradiction|].
        destruct Hglob as [<-|[]]. split; [discriminate|reflexivity].
    - intros [(h & Hne & Hmin & ->)|[Hne ->]].
      + left. exists h, (inHour ts h). split; [|tauto].
        apply groupByHour_In. tauto.
      + right. destruct ts; [congruence|]. now left. }
  split; [exact Hin|]. split; [|split; [reflexivity|split; [|split]]].
  - intros h Hh. split.
    + intros (b & Hb & Hbh). apply Hin in Hb.
      destruct Hb as [(h' & Hne & Hmin & ->)|[_ ->]]; simpl in Hbh.
      * subst h'. destruct (inHour ts h); [congruence|]. simpl in *. lia.
      * congruence.
    + intros Hmax. exists (baselineOf cid h (inHour ts h)).
      split; [|reflexivity]. apply Hin. left. exists h.
      split; [|split; [lia|reflexivity]].
      destruct (inHour ts h); [simpl in Hmax; lia|discriminate].
  - unfold bs, computeBaselines. rewrite map_app, global_part.
    apply NoDup_app.
    + apply hourlyBaselines_NoDup, NoDup_keys_groupByHour.
    + destruct ts; simpl; repeat constructor; simpl; tauto.
    + intros h Hh Hg.
      apply in_map_iff in Hh. destruct Hh as (b & <- & Hb).
      apply hourly_hours_in_range in Hb.
      destruct ts; simpl in Hg; [contradiction|].
      destruct Hg as [Hg|[]]. lia.
  - intros Hne.
    exists (hourlyBaselines cid minSamples (groupByHour ts)). split.
    + unfold bs, computeBaselines. rewrite global_part.
      destruct ts; [congruence|reflexivity].
    + intros b. apply hourly_hours_in_range.
  - intros ->. reflexivity.
Qed.

Lemma computeBaselines_spec_witness :
  exists hourly,
    computeBaselines "c" six_in_hour_10 5
    = hourly ++ [baselineOf "c" (-1) six_in_hour_10] /\
    forall b, In b hourly -> 0 <= bucketHour b < 24.
Proof.
  apply (proj1 (proj2 (proj2 (proj2 (proj2
           (computeBaselines_spec "c" six_in_hour_10 5)))))).
  discriminate.
Defined.

End BaselineStore.

(** ** Baseline lookup *)

Module BaselineLookup.

Import Baseline.
Import BaselineStore.

Lemma find_bucket (bs : list CorridorBaseline) (h : Z) (b0 : CorridorBaseline) :
  In b0 bs ->
  bucketHour b0 = h ->
  (forall b, In b bs -> bucketHour b = h -> b = b0) ->
  find (fun b => bucketHour b =? h) bs = Some b0.
Proof.
  intros Hin Hh Huniq.
  destruct (find (fun b => bucketHour b =? h) bs) as [b|] eqn:F.
  - apply find_some in F. destruct F as [Hb Hbh].
    apply Z.eqb_eq in Hbh. f_equal. now apply Huniq.
  - exfalso. apply (find_none _ _ F) in Hin.
    apply Z.eqb_neq in Hin. contradiction.
Qed.

Lemma find_bucket_none (bs : list CorridorBaseline) (h : Z) :
  (forall b, In b bs -> bucketHour b <> h) ->
  find (fun b => bucketHour b =? h) bs = None.
Proof.
  intros Hnone.
  destruct (find (fun b => bucketHour b =? h) bs) as [b|] eqn:F;
    [|reflexivity].
  apply find_some in F. destruct F as [Hb Hbh].
  apply Z.eqb_eq in Hbh. exfalso. exact (Hnone b Hb Hbh).
Qed.

Lemma find_bucket_some (bs : list CorridorBaseline) (h : Z) :
  (exists b, In b bs /\ bucketHour b = h) ->
  exists b, find (fun b => bucketHour b =? h) bs = Some b /\
            In b bs /\ bucketHour b = h.
Proof.
  intros (b0 & Hin & Hh).
  destruct (find (fun b => bucketHour b =? h) bs) as [b|] eqn:F.
  - apply find_some in F. destruct F as [Hb Hbh].
    apply Z.eqb_eq in Hbh. eauto.
  - exfalso. apply (find_none _ _ F) in Hin.
    apply Z.eqb_neq in Hin. contradiction.
Qed.

(** Five traversals that start in hour 10 and three that start in hour 12. *)
Definition five_in_hour_10 : list TraversalData :=
  [mkData (300 # 1) (40 # 1) 36000000; mkData (310 # 1) (42 # 1) 36060000;
   mkData (290 # 1) (38 # 1) 36120000; mkData (305 # 1) (41 # 1) 36180000;
   mkData (295 # 1) (39 # 1) 36240000;
   mkData (500 # 1) (30 # 1) 43200000; mkData (510 # 1) (31 # 1) 43260000;
   mkData (520 # 1) (32 # 1) 43320000].

(** C5.  [getApplicableBaseline] returns a baseline of the given list whose
    [bucketHour] is the UTC hour of the timestamp when there is one;
    otherwise the global baseline (bucket -1) when there is one; otherwise
    nothing.  In particular, for baselines computed (with the default minimum
    of 5 samples) from traversals of which exactly 5 start in hour 10 and
    fewer than 5 in every other hour, the lookup at a time in hour 10 returns
    the hourly baseline of hour 10 and the lookup at a time in hour 11
    returns the global baseline. *)
Theorem getApplicableBaseline_contract :
  (forall baselines timestamp,
     let hour := getHourBucket timestamp in
     ((exists b, In b baselines /\ bucketHour b = hour) ->
      exists b, getApplicableBaseline baselines timestamp = Some b /\
                In b baselines /\ bucketHour b = hour) /\
     ((forall b, In b baselines -> bucketHour b <> hour) ->
      (exists g, In g baselines /\ bucketHour g = -1) ->
      exists g, getApplicableBaseline baselines timestamp = Some g /\
                In g baselines /\ bucketHour g = -1) /\
     ((forall b, In b baselines ->
                 bucketHour b <> hour /\ bucketHour b <> -1) ->
      getApplicableBaseline baselines timestamp = None)) /\
  (forall cid ts at10 at11,
     List.length (inHour ts 10) = 5%nat ->
     (forall h, h <> 10 -> (List.length (inHour ts h) < 5)%nat) ->
     getHourBucket at10 = 10 ->
     getHourBucket at11 = 11 ->
     let baselines := computeBaselines cid ts defaultMinSamples in
     getApplicableBaseline baselines at10
       = Some (baselineOf cid 10 (inHour ts 10)) /\
     getApplicableBaseline baselines at11
       = Some (baselineOf cid (-1) ts)).
Proof.
  split.
  - intros baselines timestamp hour. unfold getApplicableBaseline.
    fold hour. split; [|split].
    + intros Hex. apply find_bucket_some in Hex.
      destruct Hex as (b & -> & Hb). eauto.
    + intros Hnone Hglob. rewrite (find_bucket_none _ _ Hnone).
      now apply find_bucket_some.
    + intros Hnone.
      rewrite !find_bucket_none; [reflexivity| |]; intros b Hb;
        now apply Hnone.
  - intros cid ts at10 at11 H10 Hother Hat10 Hat11 baselines.
    destruct (computeBaselines_spec cid ts defaultMinSamples)
      as (Hin & _ & _ & _ & _ & _).
    fold baselines in Hin. unfold defaultMinSamples in Hin.
    assert (Hne10 : inHour ts 10 <> []).
    { intros E. rewrite E in H10. discriminate. }
    assert (Hts : ts <> []).
    { intros ->. now apply Hne10. }
    assert (Hhourly : forall b h, In b baselines -> bucketHour b = h ->
                                  h <> -1 -> h = 10 /\
                                  b = baselineOf cid 10 (inHour ts 10)).
    { intros b h Hb Hbh Hh. apply Hin in Hb.
      destruct Hb as [(h' & Hne & Hmin & ->)|[_ ->]]; simpl in Hbh.
      - subst h'. destruct (Z.eq_dec h 10) as [->|Hd]; [tauto|].
        specialize (Hother h Hd). lia.
      - congruence. }
    unfold getApplicableBaseline. rewrite Hat10, Hat11. split.
    + rewrite (find_bucket baselines 10 (baselineOf cid 10 (inHour ts 10)));
        [reflexivity| |reflexivity|].
      * apply Hin. left. exists 10. rewrite H10. simpl.
        split; [exact Hne10|split; [lia|reflexivity]].
      * intros b Hb Hbh. apply (Hhourly b 10 Hb Hbh). lia.
    + rewrite (find_bucket_none baselines 11).
      * apply find_bucket; [apply Hin; now right|reflexivity|].
        intros b Hb Hbh. apply Hin in Hb.
        destruct Hb as [(h' & Hne & _ & ->)|[_ ->]]; [|reflexivity].
        simpl in Hbh. subst h'. apply inHour_hour in Hne. lia.
      * intros b Hb Hbh.
        destruct (Hhourly b 11 Hb Hbh); lia.
Qed.

Lemma getApplicableBaseline_contract_witness :
  getApplicableBaseline (computeBaselines "c" five_in_hour_10 5) 36000000
    = Some (baselineOf "c" 10 (inHour five_in_hour_10 10)) /\
  getApplicableBaseline (computeBaselines "c" five_in_hour_10 5) 39600000
    = Some (baselineOf "c" (-1) five_in_hour_10).
Proof.
  apply (proj2 getApplicableBaseline_contract "c"%string five_in_hour_10).
  - reflexivity.
  - intros h Hh. unfold inHour, five_in_hour_10. cbn [filter startTs].
    change (getHourBucket 36000000) with 10.
    change (getHourBucket 36060000) with 10.
    change (getHourBucket 36120000) with 10.
    change (getHourBucket 36180000) with 10.
    change (getHourBucket 36240000) with 10.
    change (getHourBucket 43200000) with 12.
    change (getHourBucket 43260000) with 12.
    change (getHourBucket 43320000) with 12.
    destruct (Z.eqb_spec 10 h) as [E|_]; [congruence|].
    destruct (12 =? h); simpl; lia.
  - reflexivity.
  - reflexivity.
Defined.

End BaselineLookup.

(** ** Alert engine *)

Module AlertEngine.

Import Db.
Import AlertService.

(** The baseline [checkAndCreateAlerts] compares the traversal with. *)
Definition applicable (s : State) (input : AlertInput)
  : option Baseline.CorridorBaseline :=
  Baseline.getApplicableBaseline
    (filter (fun b => String.eqb (Baseline.corridorId b) (corridorId input))
            (corridorStats s))
    (timestamp input).

(** Whether an unresolved alert of the type already exists for the trip and
    corridor of the input. *)
Definition hasUnresolved (type : Gps.AlertType) (input : AlertInput)
  (s : State) : bool :=
  match find (alert_where type (tripId input) (corridorId input)) (alerts s) with
  | Some _ => true
  | None => false
  end.

Definition delayQualifies (thr : Z) (input : AlertInput)
  (b : Baseline.CorridorBaseline) : bool :=
  Baseline.d_isAlert
    (Baseline.checkDelayAlert (travelSec input) b (inject_Z thr)).

Definition overspeedQualifies (input : AlertInput)
  (b : Baseline.CorridorBaseline) : bool :=
  Baseline.o_isAlert (Baseline.checkOverspeedAlert (avgSpeedKmh input) b).

(** The rows the two branches create. *)
Definition delayAlertOf (thr : Z) (input : AlertInput)
  (b : Baseline.CorridorBaseline) (id : string) : Alert :=
  let chk := Baseline.checkDelayAlert (travelSec input) b (inject_Z thr) in
  mkAlert id Gps.delay (corridorId input) (tripId input) (vehicleId input)
    (Gps.getAlertSeverity Gps.delay (Baseline.deltaSec chk)
                          (inject_Z thr * 60)%Q)
    (Baseline.deltaSec chk)
    (DelayDetails (travelSec input) (Baseline.medianTravelSec b)
                  (Baseline.bucketHour b))
    None.

Definition overspeedAlertOf (input : AlertInput)
  (b : Baseline.CorridorBaseline) (id : string) : Alert :=
  let chk := Baseline.checkOverspeedAlert (avgSpeedKmh input) b in
  mkAlert id Gps.overspeed (corridorId input) (tripId input) (vehicleId input)
    (Gps.getAlertSeverity Gps.overspeed (Baseline.deltaSpeedKmh chk)
                          (Baseline.p95SpeedKmh b * (1 # 10))%Q)
    (Baseline.deltaSpeedKmh chk)
    (OverspeedDetails (avgSpeedKmh input) (Baseline.p95SpeedKmh b)
                      (Baseline.bucketHour b))
    None.

(** The store after one alert is created and emitted. *)
Definition withAlert (a : Alert) (s : State) : State :=
  mkState (vehicles s) (trips s) (gpsPoints s) (drops s) (corridors s)
          (traversals s) (corridorStats s) (alerts s ++ [a])
          (emitted s ++ [a]) (S (nextId s)).

Lemma delayBranch_run (thr : Z) (input : AlertInput)
  (b : Baseline.CorridorBaseline) (acc : list Alert) (s : State) :
  delayBranch input b thr acc s
  = if delayQualifies thr input b && negb (hasUnresolved Gps.delay input s)
    then (acc ++ [delayAlertOf thr input b (idOf (nextId s))],
          withAlert (delayAlertOf thr input b (idOf (nextId s))) s)
    else (acc, s).
Proof.
  unfold delayBranch, delayQualifies, hasUnresolved.
  destruct (Baseline.d_isAlert _); simpl; [|reflexivity].
  unfold bind, alert_findFirst, gets.
  destruct (find _ (alerts s)); reflexivity.
Qed.

Lemma overspeedBranch_run (input : AlertInput)
  (b : Baseline.CorridorBaseline) (acc : list Alert) (s : State) :
  overspeedBranch input b acc s
  = if overspeedQualifies input b
       && negb (hasUnresolved Gps.overspeed input s)
    then (acc ++ [overspeedAlertOf input b (idOf (nextId s))],
          withAlert (overspeedAlertOf input b (idOf (nextId s))) s)
    else (acc, s).
Proof.
  unfold overspeedBranch, overspeedQualifies, hasUnresolved.
  destruct (Baseline.o_isAlert _); simpl; [|reflexivity].
  unfold bind, alert_findFirst, gets.
  destruct (find _ (alerts s)); reflexivity.
Qed.

(** What one call creates: the delay alert, if one is due, and then the
    overspeed alert, if one is due. *)
Definition delayNew (thr : Z) (input : AlertInput) (s : State) : list Alert :=
  match applicable s input with
  | Some b =>
      if delayQualifies thr input b && negb (hasUnresolved Gps.delay input s)
      then [delayAlertOf thr input b (idOf (nextId s))]
      else []
  | None => []
  end.

Definition overspeedNew (thr : Z) (input : AlertInput) (s : State)
  : list Alert :=
  match applicable s input with
  | Some b =>
      if overspeedQualifies input b
         && negb (hasUnresolved Gps.overspeed input s)
      then [overspeedAlertOf input b
              (idOf (nextId s + List.length (delayNew thr input s)))]
      else []
  | None => []
  end.

Definition created (thr : Z) (input : AlertInput) (s : State) : list Alert :=
  delayNew thr input s ++ overspeedNew thr input s.

Definition withAlerts (l : list Alert) (s : State) : State :=
  mkState (vehicles s) (trips s) (gpsPoints s) (drops s) (corridors s)
          (traversals s) (corridorStats s) (alerts s ++ l)
          (emitted s ++ l) (nextId s + List.length l).

Lemma withAlerts_nil (s : State) : withAlerts [] s = s.
Proof.
  destruct s. unfold withAlerts. simpl.
  now rewrite !app_nil_r, Nat.add_0_r.
Qed.

Lemma withAlerts_one (a : Alert) (s : State) :
  withAlert a s = withAlerts [a] s.
Proof. unfold withAlert, withAlerts. simpl. now rewrite Nat.add_1_r. Qed.

Lemma withAlerts_two (a b : Alert) (s : State) :
  withAlert b (withAlert a s) = withAlerts [a; b] s.
Proof.
  unfold withAlert, withAlerts. simpl.
  rewrite <- !app_assoc. simpl. f_equal. lia.
Qed.

Lemma type_eqb_eq (a b : Gps.AlertType) : type_eqb a b = true <-> a = b.
Proof. destruct a, b; simpl; split; congruence. Qed.

Lemma alert_where_iff (type : Gps.AlertType) (trip cid : string) (a : Alert) :
  alert_where type trip cid a = true <->
  a_type a = type /\ a_tripId a = trip /\ a_corridorId a = cid /\
  a_resolvedAt a = None.
Proof.
  unfold alert_where, isUnresolved.
  rewrite !andb_true_iff, type_eqb_eq, !String.eqb_eq.
  destruct (a_resolvedAt a); intuition congruence.
Qed.

Lemma find_app_miss {A} (P : A -> bool) (l : list A) (a : A) :
  P a = false -> find P (l ++ [a]) = find P l.
Proof.
  intros Ha. induction l as [|x xs IH]; simpl.
  - now rewrite Ha.
  - destruct (P x); [reflexivity|exact IH].
Qed.

(** A new alert of the other type does not change the duplicate lookup. *)
Lemma hasUnresolved_withAlert (type : Gps.AlertType) (input : AlertInput)
  (a : Alert) (s : State) :
  a_type a <> type ->
  hasUnresolved type input (withAlert a s) = hasUnresolved type input s.
Proof.
  intros Hty. unfold hasUnresolved, withAlert. simpl.
  rewrite find_app_miss; [reflexivity|].
  destruct (alert_where type (tripId input) (corridorId input) a) eqn:E;
    [|reflexivity].
  apply alert_where_iff in E. tauto.
Qed.

(** [checkAndCreateAlerts], run. *)
Lemma checkAndCreateAlerts_run (thr : Z) (input : AlertInput) (s : State) :
  checkAndCreateAlerts thr input s
  = (match applicable s input with
     | Some _ => Some (created thr input s)
     | None => None
     end,
     withAlerts (created thr input s) s).
Proof.
  unfold checkAndCreateAlerts, bind, corridorStats_findMany, gets, created,
    overspeedNew, delayNew, applicable.
  set (baselines :=
         filter (fun b => String.eqb (Baseline.corridorId b) (corridorId input))
                (corridorStats s)).
  destruct baselines as [|b0 rest] eqn:B.
  - simpl. now rewrite withAlerts_nil.
  - replace (Z.of_nat (List.length (b0 :: rest)) =? 0) with false
      by (symmetry; apply Z.eqb_neq; simpl List.length; lia).
    destruct (Baseline.getApplicableBaseline (b0 :: rest) (timestamp input))
      as [b|].
    + unfold ret. rewrite delayBranch_run.
      destruct (delayQualifies thr input b
                && negb (hasUnresolved Gps.delay input s)).
      * rewrite overspeedBranch_run.
        rewrite hasUnresolved_withAlert by discriminate.
        simpl nextId. simpl List.length. rewrite Nat.add_1_r.
        destruct (overspeedQualifies input b
                  && negb (hasUnresolved Gps.overspeed input s)).
        -- simpl app. now rewrite withAlerts_two.
        -- simpl app. now rewrite withAlerts_one.
      * rewrite overspeedBranch_run. simpl List.length.
        rewrite Nat.add_0_r.
        destruct (overspeedQualifies input b
                  && negb (hasUnresolved Gps.overspeed input s)).
        -- simpl app. now rewrite withAlerts_one.
        -- simpl app. now rewrite withAlerts_nil.
    + unfold ret. simpl. now rewrite withAlerts_nil.
Qed.

Lemma created_run (thr : Z) (input : AlertInput) (s : State) :
  match fst (checkAndCreateAlerts thr input s) with
  | Some l => l
  | None => []
  end = created thr input s.
Proof.
  rewrite checkAndCreateAlerts_run. simpl.
  unfold created, overspeedNew, delayNew.
  now destruct (applicable s input).
Qed.

Lemma delayNew_cases (thr : Z) (input : AlertInput) (s : State) :
  (delayNew thr input s = [] /\
   forall b, applicable s input = Some b ->
             delayQualifies thr input b = true ->
             hasUnresolved Gps.delay input s = true)
  \/ (exists b,
        applicable s input = Some b /\
        delayQualifies thr input b = true /\
        hasUnresolved Gps.delay input s = false /\
        delayNew thr input s = [delayAlertOf thr input b (idOf (nextId s))]).
Proof.
  unfold delayNew. destruct (applicable s input) as [b|].
  - destruct (delayQualifies thr input b) eqn:Q;
      destruct (hasUnresolved Gps.delay input s) eqn:U; simpl.
    + left. split; [reflexivity|]. intros; reflexivity.
    + right. exists b. tauto.
    + left. split; [reflexivity|]. intros b' [= <-]. congruence.
    + left. split; [reflexivity|]. intros b' [= <-]. congruence.
  - left. split; [reflexivity|]. discriminate.
Qed.

Lemma overspeedNew_cases (thr : Z) (input : AlertInput) (s : State) :
  (overspeedNew thr input s = [] /\
   forall b, applicable s input = Some b ->
             overspeedQualifies input b = true ->
             hasUnresolved Gps.overspeed input s = true)
  \/ (exists b,
        applicable s input = Some b /\
        overspeedQualifies input b = true /\
        hasUnresolved Gps.overspeed input s = false /\
        overspeedNew thr input s
        = [overspeedAlertOf input b
             (idOf (nextId s + List.length (delayNew thr input s)))]).
Proof.
  unfold overspeedNew. destruct (applicable s input) as [b|].
  - destruct (overspeedQualifies input b) eqn:Q;
      destruct (hasUnresolved Gps.overspeed input s) eqn:U; simpl.
    + left. split; [reflexivity|]. intros; reflexivity.
    + right. exists b. tauto.
    + left. split; [reflexivity|]. intros b' [= <-]. congruence.
    + left. split; [reflexivity|]. intros b' [= <-]. congruence.
  - left. split; [reflexivity|]. discriminate.
Qed.

(** The unresolved alerts of one type for one trip and corridor. *)
Definition unresolvedFor (type : Gps.AlertType) (trip cid : string)
  (s : State) : list Alert :=
  filter (alert_where type trip cid) (alerts s).

Definition atMostOneUnresolved (s : State) : Prop :=
  forall type trip cid,
    (List.length (unresolvedFor type trip cid s) <= 1)%nat.

Lemma find_none_filter {A} (P : A -> bool) (l : list A) :
  find P l = None <-> filter P l = [].
Proof.
  induction l as [|x xs IH]; simpl; [tauto|].
  destruct (P x); [split; discriminate|exact IH].
Qed.

Lemma hasUnresolved_false (type : Gps.AlertType) (input : AlertInput)
  (s : State) :
  hasUnresolved type input s = false <->
  unresolvedFor type (tripId input) (corridorId input) s = [].
Proof.
  unfold hasUnresolved, unresolvedFor. rewrite <- find_none_filter.
  destruct (find _ (alerts s)); split; congruence.
Qed.

Lemma alert_where_delayAlertOf (type : Gps.AlertType) (trip cid : string)
  (thr : Z) (input : AlertInput) (b : Baseline.CorridorBaseline)
  (id : string) :
  alert_where type trip cid (delayAlertOf thr input b id) = true <->
  type = Gps.delay /\ trip = tripId input /\ cid = corridorId input.
Proof. rewrite alert_where_iff. simpl. intuition congruence. Qed.

Lemma alert_where_overspeedAlertOf (type : Gps.AlertType) (trip cid : string)
  (input : AlertInput) (b : Baseline.CorridorBaseline) (id : string) :
  alert_where type trip cid (overspeedAlertOf input b id) = true <->
  type = Gps.overspeed /\ trip = tripId input /\ cid = corridorId input.
Proof. rewrite alert_where_iff. simpl. intuition congruence. Qed.

(** The alerts one call adds to a given (type, trip, corridor) class: at
    most one, and only when the class had no unresolved alert. *)
Lemma created_in_class (type : Gps.AlertType) (trip cid : string) (thr : Z)
  (input : AlertInput) (s : State) :
  filter (alert_where type trip cid) (created thr input s) = []
  \/ (exists a,
        filter (alert_where type trip cid) (created thr input s) = [a] /\
        a_type a = type /\
        unresolvedFor type trip cid s = []).
Proof.
  unfold created. rewrite filter_app.
  destruct (delayNew_cases thr input s) as [[-> _]|(b & _ & _ & Ud & ->)];
    destruct (overspeedNew_cases thr input s)
      as [[-> _]|(b' & _ & _ & Uo & ->)]; simpl.
  - now left.
  - destruct (alert_where type trip cid (overspeedAlertOf _ _ _)) eqn:E;
      [|now left].
    apply alert_where_overspeedAlertOf in E. destruct E as (-> & -> & ->).
    right. eexists. split; [reflexivity|]. split; [reflexivity|].
    now apply hasUnresolved_false.
  - destruct (alert_where type trip cid (delayAlertOf _ _ _ _)) eqn:E;
      [|now left].
    apply alert_where_delayAlertOf in E. destruct E as (-> & -> & ->).
    right. eexists. split; [reflexivity|]. split; [reflexivity|].
    now apply hasUnresolved_false.
  - destruct (alert_where type trip cid (delayAlertOf _ _ _ _)) eqn:E;
      destruct (alert_where type trip cid (overspeedAlertOf _ _ _)) eqn:F.
    + apply alert_where_delayAlertOf in E.
      apply alert_where_overspeedAlertOf in F. destruct E, F. congruence.
    + apply alert_where_delayAlertOf in E. destruct E as (-> & -> & ->).
      right. eexists. split; [reflexivity|]. split; [reflexivity|].
      now apply hasUnresolved_false.
    + apply alert_where_overspeedAlertOf in F. destruct F as (-> & -> & ->).
      right. eexists. split; [reflexivity|]. split; [reflexivity|].
      now apply hasUnresolved_false.
    + now left.
Qed.

Lemma unresolvedFor_after (type : Gps.AlertType) (trip cid : string)
  (thr : Z) (input : AlertInput) (s : State) :
  unresolvedFor type trip cid (snd (checkAndCreateAlerts thr input s))
  = unresolvedFor type trip cid s
      ++ filter (alert_where type trip cid) (created thr input s).
Proof.
  rewrite checkAndCreateAlerts_run. unfold unresolvedFor. simpl.
  apply filter_app.
Qed.

Lemma eqb_false_of_pos (x : Q) : (0 < x)%Q -> Js.eqb x 0 = false.
Proof.
  intros H. unfold Js.eqb. destruct (Qeq_bool x 0) eqn:E; [|reflexivity].
  apply Qeq_bool_iff in E. rewrite E in H. exfalso. exact (Qlt_irrefl _ H).
Qed.

Lemma severity_rule (type : Gps.AlertType) (deltaValue threshold : Q) :
  (0 < threshold)%Q ->
  let ratio := (Qabs deltaValue / threshold)%Q in
  (Gps.getAlertSeverity type deltaValue threshold = Gps.high
     <-> (2 <= ratio)%Q) /\
  (Gps.getAlertSeverity type deltaValue threshold = Gps.medium
     <-> (3 # 2 <= ratio)%Q /\ (ratio < 2)%Q) /\
  (Gps.getAlertSeverity type deltaValue threshold = Gps.low
     <-> (ratio < 3 # 2)%Q).
Proof.
  intros Hpos ratio. unfold Gps.getAlertSeverity.
  rewrite (eqb_false_of_pos _ Hpos). unfold Js.Math_abs. fold ratio.
  destruct (Js.geb ratio 2) eqn:E2.
  - apply JsFacts.geb_le in E2.
    repeat split; intros; try discriminate; try lra.
  - apply JsFacts.geb_lt in E2.
    destruct (Js.geb ratio (3 # 2)) eqn:E1.
    + apply JsFacts.geb_le in E1.
      repeat split; intros; try discriminate; try lra.
    + apply JsFacts.geb_lt in E1.
      repeat split; intros; try discriminate; try lra.
Qed.

(** A store that holds one global baseline for corridor "c1": median travel
    time 300 s, 95th-percentile speed 50 km/h. *)
Definition store_c1 : State :=
  mkState [] [] [] [] [] []
          [Baseline.mkBaseline "c1" (-1) 5 (300 # 1) (50 # 1)] [] [] 0.

Definition traversal_of (travel speedKmh : Q) : AlertInput :=
  mkInput "c1" "t1" "v1" travel speedKmh 36000000.

(** C6, counterexample.  With a baseline median of 300 s and the default
    threshold of 15 minutes, a traversal of 1400 s raises one delay alert
    with delta 1100, and its severity is [low], not [high]: the ratio is
    1100 / 900, which is below 1.5. *)
Lemma delay_1100_is_low_severity :
  option_map (map (fun a => (a_type a, a_deltaValue a, a_severity a)))
    (fst (checkAndCreateAlerts 15 (traversal_of (1400 # 1) (40 # 1)) store_c1))
  = Some [(Gps.delay, 1100 # 1, Gps.low)] /\
  Gps.getAlertSeverity Gps.delay (1100 # 1) (900 # 1) <> Gps.high /\
  ~ (2 <= Qabs (1100 # 1) / (900 # 1))%Q.
Proof.
  split; [reflexivity|]. split; [discriminate|].
  intros H. apply Qle_bool_iff in H. discriminate.
Qed.

(** C6, as amended.  The delay check computes
    [deltaSec = travelSec - medianTravelSec] and alerts iff
    [deltaSec >= thresholdMinutes * 60]; for a positive threshold the
    severity is high iff [|delta| / threshold >= 2], medium iff the ratio is
    in [1.5, 2), low iff it is below 1.5.  In particular, when the applicable
    baseline has median 300 s, a traversal of 1400 s with no unresolved delay
    alert for its trip and corridor makes [checkAndCreateAlerts] (threshold
    15 min) create, store and emit exactly one delay alert, with delta 1100
    and severity low (1100 / 900 is below 1.5); anything else it creates is
    an overspeed alert. *)
Theorem delay_check_and_severity :
  (forall travelSec baseline thresholdMinutes,
     let chk := Baseline.checkDelayAlert travelSec baseline thresholdMinutes in
     Baseline.deltaSec chk
       = (travelSec - Baseline.medianTravelSec baseline)%Q /\
     (Baseline.d_isAlert chk = true <->
      (thresholdMinutes * 60 <= Baseline.deltaSec chk)%Q)) /\
  (forall type deltaValue threshold,
     (0 < threshold)%Q ->
     let ratio := (Qabs deltaValue / threshold)%Q in
     (Gps.getAlertSeverity type deltaValue threshold = Gps.high
        <-> (2 <= ratio)%Q) /\
     (Gps.getAlertSeverity type deltaValue threshold = Gps.medium
        <-> (3 # 2 <= ratio)%Q /\ (ratio < 2)%Q) /\
     (Gps.getAlertSeverity type deltaValue threshold = Gps.low
        <-> (ratio < 3 # 2)%Q)) /\
  (forall s input b,
     applicable s input = Some b ->
     (Baseline.medianTravelSec b == 300)%Q ->
     (travelSec input == 1400)%Q ->
     hasUnresolved Gps.delay input s = false ->
     exists a others,
       fst (checkAndCreateAlerts 15 input s) = Some (a :: others) /\
       a_type a = Gps.delay /\
       (a_deltaValue a == 1100)%Q /\
       a_severity a = Gps.low /\
       a_tripId a = tripId input /\
       a_corridorId a = corridorId input /\
       a_resolvedAt a = None /\
       (forall o, In o others -> a_type o = Gps.overspeed) /\
       alerts (snd (checkAndCreateAlerts 15 input s))
         = alerts s ++ a :: others /\
       emitted (snd (checkAndCreateAlerts 15 input s))
         = emitted s ++ a :: others).
Proof.
  split; [|split].
  - intros travelSec baseline thresholdMinutes chk. split; [reflexivity|].
    unfold chk, Baseline.checkDelayAlert. simpl. apply JsFacts.geb_le.
  - intros type deltaValue threshold Hpos. now apply severity_rule.
  - intros s input b Hb Hm Ht Hu.
    assert (Hdelta : (travelSec input - Baseline.medianTravelSec b == 1100)%Q).
    { rewrite Hm, Ht. reflexivity. }
    assert (Hq : delayQualifies 15 input b = true).
    { unfold delayQualifies, Baseline.checkDelayAlert. simpl.
      apply JsFacts.geb_le. rewrite Hdelta.
      apply Qle_bool_iff. reflexivity. }
    exists (delayAlertOf 15 input b (idOf (nextId s))),
           (overspeedNew 15 input s).
    assert (Hnew : delayNew 15 input s
                   = [delayAlertOf 15 input b (idOf (nextId s))]).
    { unfold delayNew. now rewrite Hb, Hq, Hu. }
    rewrite checkAndCreateAlerts_run, Hb. unfold created. rewrite Hnew.
    simpl. repeat split; try reflexivity.
    + exact Hdelta.
    + apply (severity_rule Gps.delay); [reflexivity|].
      rewrite Hdelta. reflexivity.
    + intros o Ho.
      destruct (overspeedNew_cases 15 input s)
        as [[E _]|(b' & _ & _ & _ & E)]; rewrite E in Ho.
      * contradiction.
      * destruct Ho as [<-|[]]. reflexivity.
Qed.

Lemma delay_check_and_severity_witness :
  exists a others,
    fst (checkAndCreateAlerts 15 (traversal_of (1400 # 1) (40 # 1)) store_c1)
      = Some (a :: others) /\
    a_type a = Gps.delay /\
    (a_deltaValue a == 1100)%Q /\
    a_severity a = Gps.low.
Proof.
  destruct (proj2 (proj2 delay_check_and_severity) store_c1
              (traversal_of (1400 # 1) (40 # 1))
              (Baseline.mkBaseline "c1" (-1) 5 (300 # 1) (50 # 1))
              eq_refl (Qeq_refl _) (Qeq_refl _) eq_refl)
    as (a & others & H1 & H2 & H3 & H4 & _).
  exists a, others. repeat split; assumption.
Defined.

Definition newAlerts (thr : Z) (input : AlertInput) (s : State) : list Alert :=
  match fst (checkAndCreateAlerts thr input s) with
  | Some l => l
  | None => []
  end.

Lemma delayQualifies_iff (thr : Z) (input : AlertInput)
  (b : Baseline.CorridorBaseline) :
  delayQualifies thr input b = true <->
  (inject_Z thr * 60 <= travelSec input - Baseline.medianTravelSec b)%Q.
Proof.
  unfold delayQualifies, Baseline.checkDelayAlert. simpl.
  apply JsFacts.geb_le.
Qed.

Lemma overspeedQualifies_iff (input : AlertInput)
  (b : Baseline.CorridorBaseline) :
  overspeedQualifies input b = true <->
  (0 < avgSpeedKmh input - Baseline.p95SpeedKmh b)%Q /\
  (0 < Baseline.p95SpeedKmh b)%Q.
Proof.
  unfold overspeedQualifies, Baseline.checkOverspeedAlert. simpl.
  now rewrite andb_true_iff, !JsFacts.gtb_lt.
Qed.

(** C7.  The overspeed check computes
    [deltaSpeedKmh = avgSpeedKmh - p95SpeedKmh] and alerts iff the delta is
    positive and the baseline's [p95SpeedKmh] is positive.  One call of
    [checkAndCreateAlerts] appends to the alert table (and emits) at most one
    delay alert followed by at most one overspeed alert; each is created iff
    there is an applicable baseline, its own check alerts and no unresolved
    alert of its own type exists for the trip and corridor, whatever the
    other check does.  So a traversal produces zero, one or two alerts, and
    each of the three happens. *)
Theorem overspeed_check_and_independence :
  (forall avgSpeedKmh baseline,
     let chk := Baseline.checkOverspeedAlert avgSpeedKmh baseline in
     Baseline.deltaSpeedKmh chk
       = (avgSpeedKmh - Baseline.p95SpeedKmh baseline)%Q /\
     (Baseline.o_isAlert chk = true <->
      (0 < Baseline.deltaSpeedKmh chk)%Q /\
      (0 < Baseline.p95SpeedKmh baseline)%Q)) /\
  (forall thr input s,
     let s' := snd (checkAndCreateAlerts thr input s) in
     exists dnew onew,
       newAlerts thr input s = dnew ++ onew /\
       alerts s' = alerts s ++ dnew ++ onew /\
       emitted s' = emitted s ++ dnew ++ onew /\
       (List.length dnew <= 1)%nat /\
       (List.length onew <= 1)%nat /\
       (forall a, In a dnew -> a_type a = Gps.delay) /\
       (forall a, In a onew -> a_type a = Gps.overspeed) /\
       (dnew <> [] <->
        exists b, applicable s input = Some b /\
                  (inject_Z thr * 60
                   <= travelSec input - Baseline.medianTravelSec b)%Q /\
                  hasUnresolved Gps.delay input s = false) /\
       (onew <> [] <->
        exists b, applicable s input = Some b /\
                  (0 < avgSpeedKmh input - Baseline.p95SpeedKmh b)%Q /\
                  (0 < Baseline.p95SpeedKmh b)%Q /\
                  hasUnresolved Gps.overspeed input s = false)) /\
  List.length (newAlerts 15 (traversal_of (300 # 1) (40 # 1)) store_c1)
    = 0%nat /\
  List.length (newAlerts 15 (traversal_of (1400 # 1) (40 # 1)) store_c1)
    = 1%nat /\
  List.length (newAlerts 15 (traversal_of (1400 # 1) (60 # 1)) store_c1)
    = 2%nat.
Proof.
  split; [|split; [|repeat split; reflexivity]].
  - intros avgSpeedKmh baseline chk. split; [reflexivity|].
    unfold chk, Baseline.checkOverspeedAlert. simpl.
    now rewrite andb_true_iff, !JsFacts.gtb_lt.
  - intros thr input s s'.
    exists (delayNew thr input s), (overspeedNew thr input s).
    unfold newAlerts. rewrite created_run. unfold s'.
    rewrite checkAndCreateAlerts_run. simpl.
    split; [reflexivity|]. split; [reflexivity|]. split; [reflexivity|].
    destruct (delayNew_cases thr input s)
      as [[Ed Hd]|(b & Hb & Hq & Hu & Ed)];
      destruct (overspeedNew_cases thr input s)
        as [[Eo Ho]|(b' & Hb' & Hq' & Hu' & Eo)];
      rewrite Ed, Eo; simpl;
      (split; [lia|]); (split; [lia|]);
      (split; [intros a Ha; try contradiction;
                 destruct Ha as [<-|[]]; reflexivity|]);
      (split; [intros a Ha; try contradiction;
                 destruct Ha as [<-|[]]; reflexivity|]).
    + split; split; try congruence.
      * intros (b & Hb & Hq & Hu). apply delayQualifies_iff in Hq.
        specialize (Hd b Hb Hq). congruence.
      * intros (b & Hb & Hq1 & Hq2 & Hu).
        assert (Hq : overspeedQualifies input b = true)
          by (apply overspeedQualifies_iff; tauto).
        specialize (Ho b Hb Hq). congruence.
    + split; split; try congruence; try discriminate.
      * intros (b & Hb & Hq & Hu). apply delayQualifies_iff in Hq.
        specialize (Hd b Hb Hq). congruence.
      * intros _. exists b'. apply overspeedQualifies_iff in Hq'. tauto.
    + split; split; try congruence; try discriminate.
      * intros _. exists b. apply delayQualifies_iff in Hq. tauto.
      * intros (b' & Hb' & Hq1 & Hq2 & Hu').
        assert (Hq' : overspeedQualifies input b' = true)
          by (apply overspeedQualifies_iff; tauto).
        specialize (Ho b' Hb' Hq'). congruence.
    + split; split; try discriminate.
      * intros _. exists b. apply delayQualifies_iff in Hq. tauto.
      * intros _. exists b'. apply overspeedQualifies_iff in Hq'. tauto.
Qed.

Lemma overspeed_check_and_independence_witness :
  List.length (newAlerts 15 (traversal_of (1400 # 1) (60 # 1)) store_c1)
  = 2%nat /\
  exists b, applicable store_c1 (traversal_of (1400 # 1) (60 # 1)) = Some b /\
            (0 < (60 # 1) - Baseline.p95SpeedKmh b)%Q /\
            (0 < Baseline.p95SpeedKmh b)%Q /\
            hasUnresolved Gps.overspeed (traversal_of (1400 # 1) (60 # 1))
                          store_c1 = false.
Proof.
  split; [exact (proj2 (proj2 (proj2 (proj2
                   overspeed_check_and_independence))))|].
  destruct (proj1 (proj2 overspeed_check_and_independence) 15
              (traversal_of (1400 # 1) (60 # 1)) store_c1)
    as (dnew & onew & Hnew & _ & _ & Hd & _ & _ & _ & _ & Ho).
  apply Ho. intros ->.
  assert (L : List.length (newAlerts 15 (traversal_of (1400 # 1) (60 # 1))
                                     store_c1) = 2%nat) by reflexivity.
  rewrite Hnew, app_nil_r in L. lia.
Defined.

(** C8.  (1) If every (type, trip, corridor) class has at most one
    unresolved alert before a call of [checkAndCreateAlerts], so it has after
    it.  (2) When an unresolved alert of a type exists for the trip and
    corridor of the traversal, the call creates no alert of that type and
    leaves the existing rows as they are: the table only grows at its end, by
    alerts of the other type.  (3) Two delay-triggering traversals of one
    trip and corridor, processed one after the other (the corridor's
    baselines may be recomputed in between) from a store with no unresolved
    delay alert for them, leave exactly one unresolved delay alert: the one
    the first traversal created. *)
Theorem alert_deduplication :
  (forall thr input s,
     atMostOneUnresolved s ->
     atMostOneUnresolved (snd (checkAndCreateAlerts thr input s))) /\
  (forall thr input s type,
     hasUnresolved type input s = true ->
     let s' := snd (checkAndCreateAlerts thr input s) in
     alerts s' = alerts s ++ newAlerts thr input s /\
     (forall a, In a (newAlerts thr input s) -> a_type a <> type) /\
     unresolvedFor type (tripId input) (corridorId input) s'
       = unresolvedFor type (tripId input) (corridorId input) s) /\
  (forall thr first second s stats' b1 b2,
     tripId second = tripId first ->
     corridorId second = corridorId first ->
     hasUnresolved Gps.delay first s = false ->
     applicable s first = Some b1 ->
     delayQualifies thr first b1 = true ->
     let s1 := set_corridorStats stats'
                 (snd (checkAndCreateAlerts thr first s)) in
     applicable s1 second = Some b2 ->
     delayQualifies thr second b2 = true ->
     let s2 := snd (checkAndCreateAlerts thr second s1) in
     unresolvedFor Gps.delay (tripId first) (corridorId first) s2
       = [delayAlertOf thr first b1 (idOf (nextId s))] /\
     forall a, In a (newAlerts thr second s1) -> a_type a <> Gps.delay).
Proof.
  split; [|split].
  - intros thr input s Hinv type trip cid.
    rewrite unresolvedFor_after, length_app.
    destruct (created_in_class type trip cid thr input s)
      as [->|(a & -> & _ & ->)]; simpl.
    + specialize (Hinv type trip cid). lia.
    + lia.
  - intros thr input s type Hu s'. unfold s', newAlerts.
    rewrite created_run.
    assert (Hnone : filter (alert_where type (tripId input) (corridorId input))
                           (created thr input s) = []).
    { destruct (created_in_class type (tripId input) (corridorId input)
                                 thr input s) as [E|(a & _ & _ & E)];
        [exact E|].
      apply hasUnresolved_false in E. congruence. }
    split; [|split].
    + rewrite checkAndCreateAlerts_run. reflexivity.
    + intros a Ha Hty.
      assert (Hin : In a (filter (alert_where type (tripId input)
                                              (corridorId input))
                                 (created thr input s))).
      { apply filter_In. split; [exact Ha|].
        apply alert_where_iff. unfold created in Ha.
        apply in_app_or in Ha.
        destruct (delayNew_cases thr input s)
          as [[Ed _]|(b & _ & _ & _ & Ed)];
          destruct (overspeedNew_cases thr input s)
            as [[Eo _]|(b' & _ & _ & _ & Eo)];
          rewrite Ed, Eo in Ha;
          destruct Ha as [Ha|Ha]; try contradiction;
          destruct Ha as [<-|[]]; simpl in *; tauto. }
      rewrite Hnone in Hin. contradiction.
    + rewrite unresolvedFor_after, Hnone. apply app_nil_r.
  - intros thr first second s stats' b1 b2 Htrip Hcid Hu Hb1 Hq1 s1 Hb2 Hq2 s2.
    assert (Hfirst : unresolvedFor Gps.delay (tripId first) (corridorId first)
                       (snd (checkAndCreateAlerts thr first s))
                     = [delayAlertOf thr first b1 (idOf (nextId s))]).
    { rewrite unresolvedFor_after.
      rewrite (proj1 (hasUnresolved_false _ _ _) Hu). simpl.
      unfold created, delayNew. rewrite Hb1, Hq1, Hu. simpl.
      rewrite (proj2 (alert_where_delayAlertOf _ _ _ _ _ _ _))
        by (repeat split; reflexivity).
      f_equal.
      destruct (overspeedNew_cases thr first s)
        as [[-> _]|(b' & _ & _ & _ & ->)]; reflexivity. }
    assert (Hs1 : unresolvedFor Gps.delay (tripId first) (corridorId first) s1
                  = [delayAlertOf thr first b1 (idOf (nextId s))]).
    { unfold s1, unresolvedFor, set_corridorStats. simpl. exact Hfirst. }
    assert (Hu2 : hasUnresolved Gps.delay second s1 = true).
    { destruct (hasUnresolved Gps.delay second s1) eqn:E; [reflexivity|].
      apply hasUnresolved_false in E. rewrite Htrip, Hcid in E. congruence. }
    assert (Hnone : filter (alert_where Gps.delay (tripId first)
                                        (corridorId first))
                           (created thr second s1) = []).
    { destruct (created_in_class Gps.delay (tripId first) (corridorId first)
                                 thr second s1) as [E|(a & _ & _ & E)];
        [exact E|congruence]. }
    split.
    + unfold s2. rewrite unresolvedFor_after, Hs1, Hnone. reflexivity.
    + intros a Ha Hty. unfold newAlerts in Ha. rewrite created_run in Ha.
      unfold created, delayNew in Ha. rewrite Hb2, Hq2, Hu2 in Ha.
      simpl in Ha.
      destruct (overspeedNew_cases thr second s1)
        as [[E _]|(b' & _ & _ & _ & E)]; rewrite E in Ha.
      * contradiction.
      * destruct Ha as [<-|[]]. discriminate.
Qed.

Lemma alert_deduplication_witness :
  let first := traversal_of (1400 # 1) (40 # 1) in
  let second := traversal_of (1500 # 1) (40 # 1) in
  let s1 := set_corridorStats (corridorStats store_c1)
              (snd (checkAndCreateAlerts 15 first store_c1)) in
  unresolvedFor Gps.delay "t1" "c1" (snd (checkAndCreateAlerts 15 second s1))
  = [delayAlertOf 15 first
       (Baseline.mkBaseline "c1" (-1) 5 (300 # 1) (50 # 1)) (idOf 0)] /\
  forall a, In a (newAlerts 15 second s1) -> a_type a <> Gps.delay.
Proof.
  intros first second s1.
  exact (proj2 (proj2 alert_deduplication) 15 first second store_c1
           (corridorStats store_c1)
           (Baseline.mkBaseline "c1" (-1) 5 (300 # 1) (50 # 1))
           (Baseline.mkBaseline "c1" (-1) 5 (300 # 1) (50 # 1))
           eq_refl eq_refl eq_refl eq_refl eq_refl eq_refl eq_refl).
Defined.

End AlertEngine.

(** ** Ingestion *)

Module IngestionBoundary.

Import Db.
Import Ingest.

Definition pointsOf (body : Body) : list RawPoint :=
  match body with Single p => [p] | Batch ps => ps | NotJson => [] end.

(** What the schema rejects in a point of the right JSON shape. *)
Definition malformed (parseDatetime : string -> option Js.Date)
  (p : RawPoint) : Prop :=
  (r_lat p < -90)%Q \/ (90 < r_lat p)%Q \/
  (r_lon p < -180)%Q \/ (180 < r_lon p)%Q \/
  parseDatetime (r_ts p) = None.

Section Validation.

Variable parseDatetime : string -> option Js.Date.

Lemma validatePoint_None (p : RawPoint) :
  validatePoint parseDatetime p = None <-> malformed parseDatetime p.
Proof.
  unfold validatePoint, malformed.
  destruct (parseDatetime (r_ts p)) as [t|]; [|tauto].
  destruct (Js.geb (r_lat p) (-90)) eqn:A; simpl.
  - destruct (Js.leb (r_lat p) 90) eqn:B; simpl.
    + destruct (Js.geb (r_lon p) (-180)) eqn:C; simpl.
      * destruct (Js.leb (r_lon p) 180) eqn:D; simpl.
        -- apply JsFacts.geb_le in A, C. apply JsFacts.leb_le in B, D.
           split; [discriminate|].
           intros [H|[H|[H|[H|H]]]]; try discriminate; lra.
        -- apply JsFacts.leb_gt in D. tauto.
      * apply JsFacts.geb_lt in C. tauto.
    + apply JsFacts.leb_gt in B. tauto.
  - apply JsFacts.geb_lt in A. tauto.
Qed.

Lemma validateBatch_None (ps : list RawPoint) :
  validateBatch parseDatetime ps = None <->
  exists p, In p ps /\ malformed parseDatetime p.
Proof.
  induction ps as [|p rest IH]; simpl.
  - split; [discriminate|]. intros (? & [] & _).
  - destruct (validatePoint parseDatetime p) as [v|] eqn:V.
    + destruct (validateBatch parseDatetime rest) as [vs|].
      * split; [discriminate|].
        intros (q & [<-|Hq] & Hbad).
        -- apply validatePoint_None in Hbad. congruence.
        -- assert (Some vs = None) by (apply IH; eauto). discriminate.
      * split; [|reflexivity]. intros _.
        destruct (proj1 IH eq_refl) as (q & Hq & Hbad). eauto.
    + split; [|reflexivity]. intros _. exists p.
      split; [now left|]. now apply validatePoint_None.
Qed.

Lemma validateBatch_length (ps : list RawPoint) (vs : list Point) :
  validateBatch parseDatetime ps = Some vs ->
  List.length vs = List.length ps.
Proof.
  revert vs. induction ps as [|p rest IH]; simpl; intros vs.
  - intros [= <-]. reflexivity.
  - destruct (validatePoint parseDatetime p);
      destruct (validateBatch parseDatetime rest); try discriminate.
    intros [= <-]. simpl. f_equal. now apply IH.
Qed.

End Validation.

(** A parser for the two time stamps of the examples below. *)
Definition parseTwo (s : string) : option Js.Date :=
  if String.eqb s "2024-01-01T10:00:00Z" then Some 1704103200000
  else if String.eqb s "2024-01-01T10:03:00Z" then Some 1704103380000
  else None.

Definition raw (t : string) (la lo : Q) : RawPoint :=
  mkRaw "truck-1" None t la lo None None None.

Definition good_batch : Body :=
  Batch [raw "2024-01-01T10:00:00Z" (13 # 1) (100 # 1);
         raw "2024-01-01T10:03:00Z" (13001 # 1000) (100001 # 1000)].

Definition bad_batch : Body :=
  Batch [raw "2024-01-01T10:00:00Z" (13 # 1) (100 # 1);
         raw "2024-01-01T10:03:00Z" (91 # 1) (100001 # 1000)].

(** The handler does run the pipeline on a well-formed batch: the two points
    of [good_batch] become one vehicle, one trip, two stored points, one
    drop, one corridor with one traversal and its global baseline. *)
Example good_batch_is_ingested :
  let r := POST parseTwo CorridorResolver.planarGeo defaultConfig good_batch
               Db.empty in
  fst r = Ok200 [mkResult "id1" "id0" 2 1 1] /\
  (List.length (vehicles (snd r)), List.length (trips (snd r)),
   List.length (gpsPoints (snd r)), List.length (drops (snd r)),
   List.length (corridors (snd r)), List.length (traversals (snd r)),
   List.length (corridorStats (snd r)), List.length (alerts (snd r)))
  = (1, 1, 2, 1, 1, 1, 1, 0)%nat.
Proof. vm_compute. split; reflexivity. Qed.

(** C9.  A request body in which some point has [lat] outside [-90, 90],
    [lon] outside [-180, 180] or a time stamp the schema does not accept is
    answered with the 400 "Validation error", and the store (fixes, trips,
    drops, corridors, traversals, baselines, alerts, emitted alerts) is left
    exactly as it was, whatever the other points of the batch are. *)
Theorem malformed_batch_is_rejected
  (parseDatetime : string -> option Js.Date) (geo : Gps.Geo)
  (config : Config) (body : Body) (s : State) :
  (exists p, In p (pointsOf body) /\ malformed parseDatetime p) ->
  POST parseDatetime geo config body s = (Error400 "Validation error", s).
Proof.
  intros Hbad.
  assert (E : POST parseDatetime geo config body
              = ingestPoints parseDatetime geo config (pointsOf body)).
  { destruct body; try reflexivity. destruct Hbad as (p & [] & _). }
  rewrite E. unfold ingestPoints.
  apply validateBatch_None in Hbad. rewrite Hbad. reflexivity.
Qed.

Lemma malformed_batch_is_rejected_witness :
  POST parseTwo CorridorResolver.planarGeo defaultConfig bad_batch Db.empty
  = (Error400 "Validation error", Db.empty).
Proof.
  apply (malformed_batch_is_rejected parseTwo CorridorResolver.planarGeo
           defaultConfig bad_batch Db.empty).
  exists (raw "2024-01-01T10:03:00Z" (91 # 1) (100001 # 1000)).
  split; [right; left; reflexivity|].
  right. left. reflexivity.
Defined.

End IngestionBoundary.

(** * Further properties of the code *)

(** ** [median] and [percentile] *)

Module StatsFacts.

Import Stats.

Lemma insertNum_perm (x : Q) (l : list Q) :
  Permutation (x :: l) (insertNum x l).
Proof.
  induction l as [|y ys IH]; simpl.
  - apply Permutation_refl.
  - destruct (Js.leb x y).
    + apply Permutation_refl.
    + eapply perm_trans; [apply perm_swap|]. now apply perm_skip.
Qed.

Lemma sortNum_perm (l : list Q) : Permutation l (sortNum l).
Proof.
  induction l as [|x xs IH]; simpl.
  - apply perm_nil.
  - eapply perm_trans; [apply perm_skip, IH|]. apply insertNum_perm.
Qed.

Lemma sortNum_length (l : list Q) : List.length (sortNum l) = List.length l.
Proof. symmetry. apply Permutation_length, sortNum_perm. Qed.

Lemma sortNum_In (x : Q) (l : list Q) : In x (sortNum l) <-> In x l.
Proof.
  split; apply Permutation_in;
    [apply Permutation_sym|]; apply sortNum_perm.
Qed.

Lemma insertNum_sorted (x : Q) (l : list Q) :
  StronglySorted Qle l -> StronglySorted Qle (insertNum x l).
Proof.
  induction l as [|y ys IH]; intros Hs; simpl.
  - repeat constructor.
  - inversion Hs as [|? ? Hys Hall]; subst.
    destruct (Js.leb x y) eqn:E.
    + apply JsFacts.leb_le in E. constructor; [exact Hs|].
      constructor; [exact E|].
      eapply Forall_impl; [|exact Hall].
      intros z Hz. eapply Qle_trans; eassumption.
    + apply JsFacts.leb_gt in E. constructor; [now apply IH|].
      eapply Permutation_Forall; [apply insertNum_perm|].
      constructor; [now apply Qlt_le_weak|exact Hall].
Qed.

Lemma sortNum_sorted (l : list Q) : StronglySorted Qle (sortNum l).
Proof.
  induction l as [|x xs IH]; simpl.
  - constructor.
  - now apply insertNum_sorted.
Qed.

(** In a sorted array an earlier element is at most a later one. *)
Lemma sorted_nth_le (l : list Q) :
  StronglySorted Qle l ->
  forall i j, (i <= j)%nat -> (j < List.length l)%nat ->
              (nth i l 0 <= nth j l 0)%Q.
Proof.
  induction 1 as [|x l Hs IH Hall]; intros i j Hij Hj; simpl in Hj.
  - lia.
  - destruct i as [|i], j as [|j]; simpl; try lia.
    + apply Qle_refl.
    + rewrite Forall_forall in Hall. apply Hall, nth_In. lia.
    + apply IH; lia.
Qed.

Lemma floor_half (n : Z) : Js.Math_floor (inject_Z n / 2) = n / 2.
Proof.
  unfold Js.Math_floor, Qfloor, Qdiv, Qmult, Qinv, inject_Z. simpl.
  now rewrite Z.mul_1_r.
Qed.

Lemma at_In (l : list Q) (i : Z) :
  0 <= i < Z.of_nat (List.length l) -> In (at_ l i) l.
Proof. intros H. unfold at_. apply nth_In. lia. Qed.

(** X1.  The median of a non-empty sample lies between any lower and any
    upper bound of the sample (so between its minimum and its maximum), and
    the median of the empty sample is 0. *)
Theorem median_within_bounds (values : list Q) (lo hi : Q) :
  values <> [] ->
  (forall x, In x values -> (lo <= x)%Q /\ (x <= hi)%Q) ->
  (lo <= median values)%Q /\ (median values <= hi)%Q /\ median [] = 0%Q.
Proof.
  intros Hne Hb.
  assert (Hat : forall i, 0 <= i < Z.of_nat (List.length (sortNum values)) ->
                          (lo <= at_ (sortNum values) i)%Q /\
                          (at_ (sortNum values) i <= hi)%Q).
  { intros i Hi. apply Hb, sortNum_In, at_In, Hi. }
  assert (Hlen : 0 < Z.of_nat (List.length (sortNum values))).
  { rewrite sortNum_length. destruct values; [congruence|simpl; lia]. }
  unfold median. destruct values as [|v vs]; [congruence|].
  set (sorted := sortNum (v :: vs)) in *.
  set (len := Z.of_nat (List.length sorted)) in *.
  rewrite floor_half.
  destruct (Z.eqb_spec (len mod 2) 0) as [Heven|Hodd].
  - assert (Hmid : 1 <= len / 2 < len).
    { pose proof (Z.div_mod len 2 ltac:(lia)). lia. }
    destruct (Hat (len / 2 - 1) ltac:(lia)) as [L1 U1].
    destruct (Hat (len / 2) ltac:(lia)) as [L2 U2].
    repeat split; try reflexivity.
    + apply Qle_shift_div_l; [reflexivity|]. lra.
    + apply Qle_shift_div_r; [reflexivity|]. lra.
  - assert (Hmid : 0 <= len / 2 < len).
    { pose proof (Z.div_mod len 2 ltac:(lia)).
      pose proof (Z.mod_pos_bound len 2 ltac:(lia)). lia. }
    destruct (Hat (len / 2) Hmid) as [L U]. tauto.
Qed.

Definition sample_312 : list Q := [3 # 1; 1 # 1; 2 # 1].

Lemma median_within_bounds_witness :
  (1 <= median sample_312)%Q /\ (median sample_312 <= 3)%Q /\
  median [] = 0%Q.
Proof.
  apply (median_within_bounds sample_312 1 3); [discriminate|].
  intros x [<-|[<-|[<-|[]]]]; split; apply Qle_bool_iff; reflexivity.
Defined.

Lemma filter_length_prefix (f : Q -> bool) (l : list Q) :
  forall k, (k <= List.length l)%nat ->
            (forall i, (i < k)%nat -> f (nth i l 0%Q) = true) ->
            (k <= List.length (filter f l))%nat.
Proof.
  induction l as [|x xs IH]; intros k Hk Hf; simpl in *.
  - lia.
  - destruct k as [|k]; [lia|].
    rewrite (Hf 0%nat ltac:(lia)). simpl.
    apply le_n_S, IH; [lia|]. intros i Hi. apply (Hf (S i)). lia.
Qed.

Lemma filter_length_perm (f : Q -> bool) (l l' : list Q) :
  Permutation l l' ->
  List.length (filter f l) = List.length (filter f l').
Proof.
  induction 1 as [|x l l' _ IH|x y l|l l' l'' _ IH1 _ IH2]; simpl.
  - reflexivity.
  - destruct (f x); simpl; now rewrite IH.
  - destruct (f x), (f y); reflexivity.
  - congruence.
Qed.

Lemma filter_none (f : Q -> bool) (l : list Q) :
  (forall x, In x l -> f x = false) -> filter f l = [].
Proof.
  induction l as [|x xs IH]; intros H; simpl; [reflexivity|].
  rewrite (H x (or_introl eq_refl)). apply IH.
  intros y Hy. apply H. now right.
Qed.

(** In a sorted array fewer than [k + 1] elements are below the one at
    index [k]. *)
Lemma filter_below_sorted (l : list Q) :
  StronglySorted Qle l ->
  forall k, (k < List.length l)%nat ->
            (List.length (filter (fun x => Js.ltb x (nth k l 0%Q)) l)
             <= k)%nat.
Proof.
  induction 1 as [|x l Hs IH Hall]; intros k Hk; simpl in Hk; [lia|].
  destruct k as [|k].
  - rewrite filter_none; [simpl; lia|].
    intros y Hy. apply JsFacts.ltb_ge. cbn [nth].
    destruct Hy as [<- | Hy]; [apply Qle_refl|].
    rewrite Forall_forall in Hall. now apply Hall.
  - cbn [nth filter].
    specialize (IH k ltac:(lia)).
    destruct (Js.ltb x (nth k l 0%Q)); simpl; lia.
Qed.

(** The number of samples that are at most [v], and below [v]. *)
Definition countAtMost (v : Q) (values : list Q) : Z :=
  Z.of_nat (List.length (filter (fun x => Js.leb x v) values)).

Definition countBelow (v : Q) (values : list Q) : Z :=
  Z.of_nat (List.length (filter (fun x => Js.ltb x v) values)).

(** The index [Math.max(0, Math.ceil((p / 100) * n) - 1)] that [percentile]
    reads in the sorted array of [n] samples. *)
Definition rankIndex (n : Z) (p : Q) : Z :=
  Z.max 0 (Js.Math_ceil (Js.fmul (Js.fdiv p 100) (inject_Z n)) - 1).

Lemma percentile_at (values : list Q) (p : Q) :
  values <> [] ->
  percentile values p
  = at_ (sortNum values) (rankIndex (Z.of_nat (List.length values)) p).
Proof.
  intros Hne. unfold percentile, rankIndex.
  destruct values as [|v vs]; [congruence|].
  now rewrite sortNum_length.
Qed.

(** The 95th percentile of one sample is the sample. *)
Lemma percentile_single (x : Q) : percentile [x] 95 = x.
Proof.
  unfold percentile. cbn [sortNum insertNum List.length].
  replace (Js.Math_ceil (Js.fmul (Js.fdiv 95 100) (inject_Z (Z.of_nat 1))) - 1)
    with 0 by (vm_compute; reflexivity).
  reflexivity.
Qed.

(** The rounded product [(p / 100) * n] for [0 <= p <= 100] and
    [1 <= n < 2^53]: it is at most [n], and within one part in [2^51] of
    the exact product. *)
Lemma rank_product (n : Z) (p : Q) :
  1 <= n < 2 ^ 53 -> (0 <= p)%Q -> (p <= 100)%Q ->
  let x := Js.fmul (Js.fdiv p 100) (inject_Z n) in
  let t := (p / 100 * inject_Z n)%Q in
  (0 <= x)%Q /\ (x <= inject_Z n)%Q /\
  (t * (1 - (1 # 2251799813685248)) <= x)%Q /\
  (x <= t * (1 + (1 # 2251799813685248)))%Q.
Proof.
  intros Hn Hp0 Hp100 x t.
  assert (HN : (1 <= inject_Z n)%Q)
    by (change 1%Q with (inject_Z 1); rewrite <- Zle_Qle; lia).
  assert (Hq : (p / 100 == p * (1 # 100))%Q) by reflexivity.
  destruct (Qle_lt_or_eq _ _ Hp0) as [Hpos | Hzero].
  - assert (Hq0 : (0 < p / 100)%Q) by (rewrite Hq; lra).
    assert (Hq1 : (p / 100 <= 1)%Q) by (rewrite Hq; lra).
    set (x1 := Js.fdiv p 100).
    assert (Hx1 : (0 < x1)%Q) by (apply FloatFacts.fl_pos; exact Hq0).
    assert (Hx1le : (x1 <= 1)%Q).
    { unfold x1, Js.fdiv.
      rewrite <- (FloatFacts.fl_int 1 ltac:(lia)).
      apply FloatFacts.fl_mono; assumption. }
    destruct (FloatFacts.fl_error_num (p / 100) Hq0) as [E1 E2].
    fold (Js.fdiv p 100) in E1, E2. fold x1 in E1, E2.
    assert (Hw : (0 < x1 * inject_Z n)%Q).
    { apply Qmult_lt_0_compat; lra. }
    assert (Hwn : (x1 * inject_Z n <= inject_Z n)%Q).
    { rewrite <- (Qmult_1_l (inject_Z n)) at 2.
      apply Qmult_le_compat_r; lra. }
    destruct (FloatFacts.fl_error_num (x1 * inject_Z n) Hw) as [F1 F2].
    fold (Js.fmul x1 (inject_Z n)) in F1, F2.
    change (Js.fmul x1 (inject_Z n)) with x in F1, F2.
    assert (A1 : (p / 100 * (9007199254740991 # 9007199254740992) * inject_Z n
                  <= x1 * inject_Z n)%Q)
      by (apply Qmult_le_compat_r; lra).
    assert (A2 : (x1 * inject_Z n
                  <= p / 100 * (9007199254740993 # 9007199254740992)
                     * inject_Z n)%Q)
      by (apply Qmult_le_compat_r; lra).
    assert (T1 : (p / 100 * (9007199254740991 # 9007199254740992) * inject_Z n
                  == t * (9007199254740991 # 9007199254740992))%Q)
      by (unfold t; ring).
    assert (T2 : (p / 100 * (9007199254740993 # 9007199254740992) * inject_Z n
                  == t * (9007199254740993 # 9007199254740992))%Q)
      by (unfold t; ring).
    rewrite T1 in A1. rewrite T2 in A2.
    assert (Ht : (0 < t)%Q) by (unfold t; apply Qmult_lt_0_compat; lra).
    set (w := (x1 * inject_Z n)%Q) in *.
    assert (Hxn : (x <= inject_Z n)%Q).
    { unfold x, Js.fmul. fold x1. fold w.
      rewrite <- (FloatFacts.fl_int n ltac:(lia)).
      apply FloatFacts.fl_mono; assumption. }
    split; [lra|]. split; [exact Hxn|]. split; lra.
  - assert (Hx : x = 0%Q).
    { unfold x, Js.fmul, Js.fdiv.
      rewrite (FloatFacts.fl_comp (p / 100) 0) by (rewrite Hq, <- Hzero; ring).
      change (Js.fl 0) with 0%Q.
      rewrite (FloatFacts.fl_comp (0 * inject_Z n) 0) by ring. reflexivity. }
    assert (Ht : (t == 0)%Q) by (unfold t; rewrite Hq, <- Hzero; ring).
    rewrite Hx, Ht. split; [lra|]. split; [lra|]. split; lra.
Qed.

(** X2.  For a non-empty sample of [n < 2^53] values and [p] between 0 and
    100, [percentile] returns the order statistic of index
    [k = max(0, ceil((p / 100) * n) - 1)], the product being computed in
    double arithmetic: [k] is a valid index, the result is one of the samples,
    at least [k + 1] samples are at most the result and at most [k] are below
    it.  The rank [k + 1] is the nearest rank of [p] up to the rounding of
    the product: [k + 1] is at least [p / 100 * n * (1 - 2^-51)], and for
    [p > 0] the index [k] is below [p / 100 * n * (1 + 2^-51)].  On the
    empty sample the result is 0. *)
Theorem percentile_is_order_statistic (values : list Q) (p : Q) :
  values <> [] ->
  (0 <= p)%Q -> (p <= 100)%Q ->
  Z.of_nat (List.length values) < 2 ^ 53 ->
  let n := Z.of_nat (List.length values) in
  let k := rankIndex n p in
  let v := percentile values p in
  let t := (p / 100 * inject_Z n)%Q in
  0 <= k < n /\
  v = at_ (sortNum values) k /\
  In v values /\
  k + 1 <= countAtMost v values /\
  countBelow v values <= k /\
  (t * (1 - (1 # 2251799813685248)) <= inject_Z (k + 1))%Q /\
  ((0 < p)%Q -> (inject_Z k < t * (1 + (1 # 2251799813685248)))%Q) /\
  percentile [] p = 0%Q.
Proof.
  intros Hne Hp0 Hp100 Hsize n k v t.
  assert (Hn : 1 <= n < 2 ^ 53).
  { split; [|exact Hsize]. unfold n. destruct values; [congruence|simpl; lia]. }
  destruct (rank_product n p Hn Hp0 Hp100) as (X0 & Xn & XL & XU).
  cbv zeta in X0, Xn, XL, XU. fold t in XL, XU.
  set (x := Js.fmul (Js.fdiv p 100) (inject_Z n)) in *.
  set (c := Js.Math_ceil x).
  assert (Hk : k = Z.max 0 (c - 1)) by reflexivity.
  assert (Hc : c <= n).
  { unfold c, Js.Math_ceil. rewrite <- (Qceiling_Z n).
    now apply Qceiling_resp_le. }
  assert (Hxc : (x <= inject_Z c)%Q) by apply Qle_ceiling.
  assert (Hcx : (inject_Z (c - 1) < x)%Q) by apply Qceiling_lt.
  assert (Hidx : 0 <= k < n) by lia.
  assert (Hv : v = at_ (sortNum values) k) by (apply percentile_at; exact Hne).
  assert (Hlen : List.length (sortNum values) = List.length values)
    by apply sortNum_length.
  split; [exact Hidx|]. split; [exact Hv|].
  split; [|split; [|split; [|split; [|split; [|reflexivity]]]]].
  - rewrite Hv. apply sortNum_In, at_In. rewrite Hlen. exact Hidx.
  - unfold countAtMost.
    rewrite (filter_length_perm _ _ _ (sortNum_perm values)).
    assert (Hcount : (Z.to_nat (k + 1)
                      <= List.length
                           (filter (fun y => Js.leb y v) (sortNum values)))%nat).
    { apply filter_length_prefix; [rewrite Hlen; unfold n in Hidx; lia|].
      intros i Hi. apply JsFacts.leb_le. rewrite Hv. unfold at_.
      apply sorted_nth_le; [apply sortNum_sorted| |];
        rewrite ?Hlen; unfold n in Hidx; lia. }
    lia.
  - unfold countBelow.
    rewrite (filter_length_perm _ _ _ (sortNum_perm values)).
    rewrite Hv. unfold at_.
    pose proof (filter_below_sorted (sortNum values) (sortNum_sorted values)
                  (Z.to_nat k) ltac:(rewrite Hlen; unfold n in Hidx; lia)) as H.
    lia.
  - assert (Hck : (inject_Z c <= inject_Z (k + 1))%Q)
      by (rewrite <- Zle_Qle; lia).
    lra.
  - intros Hpos.
    assert (HN : (1 <= inject_Z n)%Q)
      by (change 1%Q with (inject_Z 1); rewrite <- Zle_Qle; lia).
    assert (Ht : (0 < t)%Q).
    { unfold t. apply Qmult_lt_0_compat; [|lra].
      apply Qlt_shift_div_l; [reflexivity|lra]. }
    destruct (Z.le_gt_cases c 1) as [Hsmall | Hbig].
    + replace k with 0 by lia. change (inject_Z 0) with 0%Q.
      apply Qmult_lt_0_compat; [exact Ht|reflexivity].
    + replace k with (c - 1) by lia. lra.
Qed.

Lemma percentile_is_order_statistic_witness :
  let k := rankIndex 3 95 in
  let v := percentile sample_312 95 in
  0 <= k < 3 /\
  v = at_ (sortNum sample_312) k /\
  In v sample_312 /\
  k + 1 <= countAtMost v sample_312 /\
  countBelow v sample_312 <= k /\
  (95 / 100 * inject_Z 3 * (1 - (1 # 2251799813685248)) <= inject_Z (k + 1))%Q /\
  ((0 < 95)%Q ->
   (inject_Z k < 95 / 100 * inject_Z 3 * (1 + (1 # 2251799813685248)))%Q) /\
  percentile [] 95 = 0%Q.
Proof.
  apply (percentile_is_order_statistic sample_312 95);
    [discriminate| | |reflexivity]; apply Qle_bool_iff; reflexivity.
Defined.

(** The rounding of the product is visible in the result.  Seven percent of
    100 samples is 7.000000000000001 as a double, so that the 7th percentile
    of 1, ..., 100 is the 8th sample.  With [p] the double nearest to 100/3
    the exact product [p / 100 * 3] exceeds 1, the rounded one is 1, and the
    result on 1, 2, 3 is the first sample: fewer than [p] percent of the
    samples are at most the result. *)
Definition one_to (n : nat) : list Q :=
  map (fun i => inject_Z (Z.of_nat i)) (seq 1 n).

Lemma percentile_7_of_100 :
  (7 < Js.fmul (Js.fdiv 7 100) 100)%Q /\
  rankIndex 100 7 = 7 /\
  percentile (one_to 100) 7 = 8%Q /\
  percentile (one_to 100) 95 = 95%Q /\
  (1 < Js.fl (100 # 3) / 100 * 3)%Q /\
  percentile (one_to 3) (Js.fl (100 # 3)) = 1%Q /\
  countAtMost 1 (one_to 3) = 1.
Proof.
  split; [vm_compute; reflexivity|]. split; [vm_compute; reflexivity|].
  split; [vm_compute; reflexivity|]. split; [vm_compute; reflexivity|].
  split; [vm_compute; reflexivity|]. split; vm_compute; reflexivity.
Qed.

End StatsFacts.

(** ** More on drop detection *)

Module DropFacts.

Import Gps.

(** The pairs [(sorted[i-1], sorted[i])] the detection loop visits. *)
Definition adjacent (sorted : list GPSFix) : list (GPSFix * GPSFix) :=
  combine sorted (tl sorted).

Definition farApart (tauShort : Q) (pc : GPSFix * GPSFix) : bool :=
  Js.gtb (gapSecOf (fst pc) (snd pc)) tauShort.

Lemma scanGaps_filter_map (tauShort : Q) :
  forall rest prev,
    scanGaps tauShort prev rest
    = map (fun pc => dropOf (fst pc) (snd pc) tauShort)
          (filter (farApart tauShort) (adjacent (prev :: rest))).
Proof.
  induction rest as [|curr rest IH]; intros prev; [reflexivity|].
  change (adjacent (prev :: curr :: rest))
    with ((prev, curr) :: adjacent (curr :: rest)).
  simpl scanGaps. rewrite IH. simpl filter. unfold farApart at 2. simpl fst.
  simpl snd. now destruct (Js.gtb (gapSecOf prev curr) tauShort).
Qed.

Lemma detectDrops_gapEvents (points : list GPSFix) (tauShort : Q) :
  detectDrops points tauShort = gapEvents tauShort (sortByTs points).
Proof.
  unfold detectDrops.
  destruct (Z.ltb_spec (Z.of_nat (List.length points)) 2) as [Hlt|Hge];
    [|reflexivity].
  destruct points as [|a [|b rest]]; try reflexivity. simpl in Hlt. lia.
Qed.

Lemma detectDrops_filter_map (points : list GPSFix) (tauShort : Q) :
  detectDrops points tauShort
  = map (fun pc => dropOf (fst pc) (snd pc) tauShort)
        (filter (farApart tauShort) (adjacent (sortByTs points))).
Proof.
  rewrite detectDrops_gapEvents. unfold gapEvents.
  destruct (sortByTs points) as [|p rest]; [reflexivity|].
  apply scanGaps_filter_map.
Qed.

Lemma adjacent_length (l : list GPSFix) :
  List.length (adjacent l) = (List.length l - 1)%nat.
Proof.
  unfold adjacent. rewrite length_combine.
  destruct l as [|x r]; [reflexivity|].
  cbn [tl List.length]. lia.
Qed.

Lemma filter_nil_iff {A} (f : A -> bool) (l : list A) :
  filter f l = [] <-> forall x, In x l -> f x = false.
Proof.
  induction l as [|x xs IH]; simpl.
  - split; [intros _ ? []|reflexivity].
  - destruct (f x) eqn:E.
    + split; [discriminate|]. intros H.
      specialize (H x (or_introl eq_refl)). congruence.
    + rewrite IH. split.
      * intros H y [<-|Hy]; [exact E|now apply H].
      * intros H y Hy. apply H. now right.
Qed.

Lemma filter_all {A} (f : A -> bool) (l : list A) :
  (forall x, In x l -> f x = true) -> filter f l = l.
Proof.
  induction l as [|x xs IH]; simpl; intros H; [reflexivity|].
  rewrite (H x (or_introl eq_refl)). f_equal. apply IH.
  intros y Hy. apply H. now right.
Qed.

(** X3.  [detectDrops] emits one event for every pair of time-adjacent
    fixes (adjacent in the sorted order) that are more than [tauShort]
    seconds apart and nothing else: never more than [n - 1] events for [n]
    fixes, none at all exactly when no adjacent pair is that far apart, and
    exactly [n - 1] when every adjacent pair is (a trip sampled slower than
    the threshold). *)
Theorem detectDrops_one_event_per_gap (points : list GPSFix) (tauShort : Q) :
  let pairs := adjacent (sortByTs points) in
  let events := detectDrops points tauShort in
  List.length events = List.length (filter (farApart tauShort) pairs) /\
  (List.length events <= List.length points - 1)%nat /\
  (events = [] <->
   forall p c, In (p, c) pairs -> (gapSecOf p c <= tauShort)%Q) /\
  ((forall p c, In (p, c) pairs -> (tauShort < gapSecOf p c)%Q) ->
   List.length events = (List.length points - 1)%nat).
Proof.
  intros pairs events. unfold events. rewrite detectDrops_filter_map.
  fold pairs. rewrite length_map.
  assert (Hpairs : List.length pairs = (List.length points - 1)%nat).
  { unfold pairs. rewrite adjacent_length. unfold sortByTs.
    now rewrite SortFacts.sortBy_length. }
  split; [reflexivity|]. split; [|split].
  - rewrite <- Hpairs. apply filter_length_le.
  - split.
    + intros E p c Hin.
      apply map_eq_nil in E.
      apply (proj1 (filter_nil_iff _ _) E) in Hin.
      unfold farApart in Hin. simpl in Hin. now apply JsFacts.gtb_le.
    + intros H. replace (filter (farApart tauShort) pairs) with
        (@nil (GPSFix * GPSFix)); [reflexivity|].
      symmetry. apply filter_nil_iff. intros [p c] Hin.
      unfold farApart. simpl. apply JsFacts.gtb_le. now apply H.
  - intros H. rewrite filter_all; [exact Hpairs|].
    intros [p c] Hin. unfold farApart. simpl.
    apply JsFacts.gtb_lt. now apply H.
Qed.

(** Twenty fixes, one every 180 seconds. *)
Definition every_180s : list GPSFix :=
  map (fun i => mkFix (Z.of_nat i * 180000) (13 # 1) (100 # 1) None None None)
      (seq 0 20).

Lemma detectDrops_one_event_per_gap_witness :
  List.length (detectDrops every_180s 60) = 19%nat.
Proof.
  apply (proj2 (proj2 (proj2 (detectDrops_one_event_per_gap every_180s 60)))).
  intros p c Hin. vm_compute in Hin.
  repeat (destruct Hin as [Hin|Hin]; [injection Hin as <- <-; reflexivity|]).
  contradiction.
Defined.

Definition tsLe (a b : GPSFix) : Prop := Js.getTime (ts a) <= Js.getTime (ts b).

(** One event ends before the other starts. *)
Definition precedes (d1 d2 : Drop) : Prop := endTs d1 <= startTs d2.

Lemma sortByTs_strongly_sorted (points : list GPSFix) :
  StronglySorted tsLe (sortByTs points).
Proof.
  apply Sorted_StronglySorted.
  - intros a b c. unfold tsLe. lia.
  - apply (SortFacts.sortBy_sorted (fun p => Js.getTime (ts p))).
Qed.

Lemma scanGaps_chronological (tauShort : Q) :
  forall rest prev,
    StronglySorted tsLe (prev :: rest) ->
    Forall (fun d => Js.getTime (ts prev) <= startTs d)
           (scanGaps tauShort prev rest) /\
    StronglySorted precedes (scanGaps tauShort prev rest).
Proof.
  induction rest as [|curr rest IH]; intros prev Hs; simpl.
  - split; constructor.
  - inversion Hs as [|? ? Hs' Hall]; subst.
    destruct (IH curr Hs') as [Hfrom Hsorted].
    assert (Hpc : Js.getTime (ts prev) <= Js.getTime (ts curr)).
    { inversion Hall; subst. assumption. }
    assert (Hfrom' : Forall (fun d => Js.getTime (ts prev) <= startTs d)
                            (scanGaps tauShort curr rest)).
    { eapply Forall_impl; [|exact Hfrom]. simpl. intros d Hd. lia. }
    destruct (Js.gtb (gapSecOf prev curr) tauShort); simpl.
    + split.
      * constructor; [simpl; unfold Js.getTime; lia|exact Hfrom'].
      * constructor; [exact Hsorted|]. exact Hfrom.
    + split; assumption.
Qed.

Lemma gap_positive (p c : GPSFix) (tauShort : Q) :
  (0 <= tauShort)%Q -> (tauShort < gapSecOf p c)%Q ->
  Js.getTime (ts p) < Js.getTime (ts c).
Proof.
  intros H0 Hgap.
  assert (Hpos : (0 < gapSecOf p c)%Q) by (eapply Qle_lt_trans; eassumption).
  unfold gapSecOf, Qlt, Qdiv, Qmult, Qinv, inject_Z in Hpos. simpl in Hpos.
  lia.
Qed.

(** X4.  The events of [detectDrops] come out in time order and never
    overlap: every event ends no later than each later event starts.  When
    [tauShort] is not negative, every event starts strictly before it
    ends. *)
Theorem detectDrops_events_do_not_overlap (points : list GPSFix)
  (tauShort : Q) :
  StronglySorted precedes (detectDrops points tauShort) /\
  ((0 <= tauShort)%Q ->
   forall d, In d (detectDrops points tauShort) -> startTs d < endTs d).
Proof.
  split.
  - rewrite detectDrops_gapEvents. unfold gapEvents.
    pose proof (sortByTs_strongly_sorted points) as Hs.
    destruct (sortByTs points) as [|p rest]; [constructor|].
    now apply scanGaps_chronological.
  - intros H0 d Hin.
    destruct (DropDetector.detectDrops_In _ _ _ Hin) as (p & c & -> & Hgap).
    simpl. now apply (gap_positive p c tauShort).
Qed.

Lemma detectDrops_events_do_not_overlap_witness :
  Forall (fun d => startTs d < endTs d) (detectDrops every_180s 60).
Proof.
  apply Forall_forall.
  apply (proj2 (detectDrops_events_do_not_overlap every_180s 60)).
  discriminate.
Defined.

End DropFacts.

(** ** More on corridor extraction *)

Module CorridorFacts.

Import Gps.

Lemma floor_range (y : Q) (lo hi : Z) :
  (inject_Z lo <= y)%Q -> (y < inject_Z hi)%Q -> lo <= Qfloor y < hi.
Proof.
  intros Hlo Hhi. split.
  - rewrite <- (Qfloor_Z lo). now apply Qfloor_resp_le.
  - pose proof (Qfloor_le y) as Hf.
    assert (H : (inject_Z (Qfloor y) < inject_Z hi)%Q)
      by (eapply Qle_lt_trans; eassumption).
    now rewrite <- Zlt_Qlt in H.
Qed.

(** [(x + 360) % 360] for a bearing [x] between -180 and 180. *)
Lemma normalized_bearing_range (b : Q) :
  (-180 <= b)%Q -> (b <= 180)%Q ->
  (0 <= Js.rem (b + 360) 360)%Q /\ (Js.rem (b + 360) 360 < 360)%Q.
Proof.
  intros Hlo Hhi. unfold Js.rem, Js.trunc.
  set (x := (b + 360)%Q).
  assert (Hx : (180 <= x)%Q /\ (x <= 540)%Q) by (unfold x; split; lra).
  assert (Hq : (0 <= x / 360)%Q)
    by (apply Qle_shift_div_l; [reflexivity|lra]).
  rewrite (proj2 (JsFacts.leb_le 0 (x / 360)) Hq).
  pose proof (Qfloor_le (x / 360)) as Hfl.
  pose proof (Qlt_floor (x / 360)) as Hfu.
  set (k := Qfloor (x / 360)) in *.
  assert (Hmul : (x / 360 * 360 == x)%Q) by (field).
  rewrite inject_Z_plus in Hfu. change (inject_Z 1) with 1%Q in Hfu.
  assert (L : (inject_Z k * 360 <= x)%Q).
  { rewrite <- Hmul. apply Qmult_le_compat_r; [exact Hfl|discriminate]. }
  assert (U : (x < (inject_Z k + 1) * 360)%Q).
  { rewrite <- Hmul at 1. apply Qmult_lt_compat_r; [reflexivity|exact Hfu]. }
  split; lra.
Qed.

(** X5.  When the bearing between the two ends of a drop is within
    [-180, 180] degrees, as the geodesy library returns it, the direction
    bucket of its corridor is one of 0, 1, ..., 15. *)
Theorem direction_bucket_in_range (geo : Geo) (d : Drop) :
  let b := bearing geo (point (startLon d, startLat d))
                       (point (endLon d, endLat d)) in
  (-180 <= b)%Q -> (b <= 180)%Q ->
  0 <= directionBucketOf geo d <= 15.
Proof.
  intros b Hlo Hhi. unfold directionBucketOf. fold b.
  destruct (normalized_bearing_range b Hlo Hhi) as [H0 H360].
  set (r := Js.rem (b + 360) 360) in *.
  assert (Hf : 0 <= Js.Math_floor (r / (45 # 2)) < 16).
  { unfold Js.Math_floor. apply floor_range.
    - apply Qle_shift_div_l; [reflexivity|].
      assert (E0 : (inject_Z 0 * (45 # 2) == 0)%Q) by reflexivity.
      rewrite E0. exact H0.
    - apply Qlt_shift_div_r; [reflexivity|].
      assert (E : (inject_Z 16 * (45 # 2) == 360)%Q) by reflexivity.
      rewrite E. exact H360. }
  rewrite Z.rem_small by exact Hf. lia.
Qed.

Lemma direction_bucket_in_range_witness :
  0 <= directionBucketOf CorridorResolver.planarGeo
         CorridorResolver.same_cell_drop <= 15.
Proof.
  apply (direction_bucket_in_range CorridorResolver.planarGeo
           CorridorResolver.same_cell_drop);
    apply Qle_bool_iff; reflexivity.
Defined.

Lemma extractCorridors_In (geo : Geo) (h3Resolution : Z) (drops : list Drop)
  (t : Traversal) :
  In t (extractCorridors geo drops h3Resolution) ->
  exists d, In d drops /\ resolveDrop geo h3Resolution d = Some t.
Proof.
  rewrite CorridorResolver.extractCorridors_flat_map, in_flat_map.
  intros (d & Hin & Hd). exists d. split; [exact Hin|].
  unfold CorridorResolver.emitted in Hd.
  destruct (resolveDrop geo h3Resolution d); simpl in Hd;
    [destruct Hd as [<-|[]]; reflexivity|contradiction].
Qed.

(** A traversal learnt from the events of [detectDrops] has a positive
    average speed, when [tauShort] is not negative. *)
Lemma learnt_speed_positive (geo : Geo) (points : list GPSFix)
  (tauShort : Q) (h3Resolution : Z) (t : Traversal) :
  (0 <= tauShort)%Q ->
  In t (extractCorridors geo (detectDrops points tauShort) h3Resolution) ->
  (0 < avgSpeedKmh t)%Q.
Proof.
  intros H0 Hin.
  destruct (extractCorridors_In _ _ _ _ Hin) as (d & Hd & Hres).
  destruct (CorridorResolver.resolveDrop_fields _ _ _ _ Hres)
    as (_ & _ & _ & _ & _ & _ & Hspeed).
  assert (Hpass : CorridorResolver.passesFilters geo d).
  { apply (CorridorResolver.resolveDrop_Some_iff geo h3Resolution).
    congruence. }
  destruct Hpass as (_ & Hdist & _).
  destruct (DropDetector.detectDrops_In _ _ _ Hd) as (p & c & Edrop & Hgap).
  assert (Hpos : (0 < durationSec d)%Q)
    by (subst d; simpl; eapply Qle_lt_trans; eassumption).
  rewrite Hspeed. unfold avgSpeedKmhOf.
  rewrite (proj2 (JsFacts.gtb_lt _ _) Hpos).
  apply Qlt_shift_div_l.
  - apply Qlt_shift_div_l; [reflexivity|]. lra.
  - lra.
Qed.

(** X6.  Every traversal that [extractCorridors] derives from the events of
    [detectDrops] lasts more than [tauShort] and at most 600 seconds and has
    an average speed of at most 200 km/h; when [tauShort] is not negative the
    speed is strictly positive and the traversal starts strictly before it
    ends. *)
Theorem learnt_traversals_are_plausible (geo : Geo) (points : list GPSFix)
  (tauShort : Q) (h3Resolution : Z) (t : Traversal) :
  In t (extractCorridors geo (detectDrops points tauShort) h3Resolution) ->
  (tauShort < travelSec t)%Q /\
  (travelSec t <= 600)%Q /\
  (avgSpeedKmh t <= 200)%Q /\
  ((0 <= tauShort)%Q ->
   (0 < avgSpeedKmh t)%Q /\ t_startTs t < t_endTs t).
Proof.
  intros Hin.
  destruct (extractCorridors_In _ _ _ _ Hin) as (d & Hd & Hres).
  destruct (CorridorResolver.resolveDrop_fields _ _ _ _ Hres)
    as (_ & _ & _ & Hs & He & Htravel & Hspeed).
  assert (Hpass : CorridorResolver.passesFilters geo d).
  { apply (CorridorResolver.resolveDrop_Some_iff geo h3Resolution).
    congruence. }
  destruct Hpass as (Hreason & Hdist & Hv).
  destruct (DropDetector.detectDrops_In _ _ _ Hd) as (p & c & Edrop & Hgap).
  assert (Hdur : durationSec d = gapSecOf p c) by (subst d; reflexivity).
  assert (H600 : (durationSec d <= 600)%Q).
  { destruct (Qlt_le_dec 600 (durationSec d)) as [Hlt|Hle]; [|exact Hle].
    exfalso. apply Hreason. subst d. simpl.
    apply DropDetector.classify_long_gap. exact Hlt. }
  rewrite Htravel, Hspeed, Hs, He, Hdur in *.
  split; [exact Hgap|]. split; [exact H600|]. split; [exact Hv|].
  intros H0. split.
  - assert (Hpos : (0 < durationSec d)%Q)
      by (rewrite Hdur; eapply Qle_lt_trans; eassumption).
    unfold avgSpeedKmhOf.
    rewrite (proj2 (JsFacts.gtb_lt _ _) Hpos).
    apply Qlt_shift_div_l.
    + apply Qlt_shift_div_l; [reflexivity|]. lra.
    + lra.
  - subst d. simpl. now apply (DropFacts.gap_positive p c tauShort).
Qed.

Lemma learnt_traversals_are_plausible_witness :
  exists t,
    In t (extractCorridors CorridorResolver.planarGeo
            (detectDrops CorridorResolver.micro_points 60) 7) /\
    (60 < travelSec t)%Q /\ (travelSec t <= 600)%Q /\ (avgSpeedKmh t <= 200)%Q.
Proof.
  let l := eval vm_compute in
             (extractCorridors CorridorResolver.planarGeo
                (detectDrops CorridorResolver.micro_points 60) 7) in
  match l with
  | ?t :: _ =>
      exists t;
      assert (Hin : In t (extractCorridors CorridorResolver.planarGeo
                            (detectDrops CorridorResolver.micro_points 60) 7))
        by (vm_compute; left; reflexivity);
      split; [exact Hin|];
      destruct (learnt_traversals_are_plausible CorridorResolver.planarGeo
                  CorridorResolver.micro_points 60 7 t Hin)
        as (H1 & H2 & H3 & _);
      split; [exact H1|split; [exact H2|exact H3]]
  end.
Defined.

End CorridorFacts.

(** ** The earlier revision, end to end *)

Module LegacyFacts.

Import Gps.
Import LegacyPipeline.

(** The adjacent pairs that the earlier revision turns into traversals. *)
Definition learnable (tauShort : Q) (pc : GPSFix * GPSFix) : bool :=
  Js.gtb (gapSecOf (fst pc) (snd pc)) tauShort
  && negb (Js.leb (gapSecOf (fst pc) (snd pc)) (tauShort * (3 # 2))%Q).

Definition traversalOf (geo : Geo) (h3Resolution : Z) (tauShort : Q)
  (pc : GPSFix * GPSFix) : Traversal :=
  let drop := dropOf (fst pc) (snd pc) tauShort in
  {| corridorKey :=
       {| aH3 := latLngToCell geo (startLat drop) (startLon drop) h3Resolution;
          bH3 := latLngToCell geo (endLat drop) (endLon drop) h3Resolution;
          direction := directionBucketOf geo drop |};
     t_startTs := startTs drop;
     t_endTs := endTs drop;
     travelSec := durationSec drop;
     avgSpeedKmh := avgSpeedKmhOf geo drop;
     t_startLat := startLat drop;
     t_startLon := startLon drop;
     t_endLat := endLat drop;
     t_endLon := endLon drop |}.

Lemma legacy_micro_iff (tauShort g : Q) :
  reason_eqb (GpsLegacy.classify tauShort g) micro_drop
  = Js.leb g (tauShort * (3 # 2))%Q.
Proof.
  unfold GpsLegacy.classify.
  destruct (Js.leb g (tauShort * (3 # 2))); [reflexivity|].
  now destruct (Js.gtb g 300).
Qed.

Lemma legacy_scan (geo : Geo) (h3Resolution : Z) (tauShort : Q) :
  forall rest prev,
    extractCorridors geo (scanGaps tauShort prev rest) h3Resolution
    = map (traversalOf geo h3Resolution tauShort)
          (filter (learnable tauShort) (DropFacts.adjacent (prev :: rest))).
Proof.
  induction rest as [|curr rest IH]; intros prev; [reflexivity|].
  change (DropFacts.adjacent (prev :: curr :: rest))
    with ((prev, curr) :: DropFacts.adjacent (curr :: rest)).
  simpl scanGaps. simpl filter. unfold learnable at 1. simpl fst. simpl snd.
  destruct (Js.gtb (gapSecOf prev curr) tauShort); simpl.
  - unfold GpsLegacy.resolveDrop. simpl reason.
    rewrite legacy_micro_iff.
    destruct (Js.leb (gapSecOf prev curr) (tauShort * (3 # 2))); simpl;
      now rewrite IH.
  - apply IH.
Qed.

(** X7.  In the earlier revision of the library, a trip yields exactly one
    traversal for every pair of time-adjacent fixes whose gap exceeds both
    [tauShort] and [tauShort * 1.5], in time order: micro drops are left
    out, and there is no distance or speed filter and no upper limit, so the
    gaps it calls [long_gap] (above 300 s) become traversals too. *)
Theorem legacy_traversals (geo : Geo) (points : list GPSFix) (tauShort : Q)
  (h3Resolution : Z) :
  extractCorridors geo (detectDrops points tauShort) h3Resolution
  = map (traversalOf geo h3Resolution tauShort)
        (filter (learnable tauShort)
                (DropFacts.adjacent (sortByTs points))) /\
  (forall g, (tauShort * (3 # 2) < g)%Q -> (300 < g)%Q ->
             GpsLegacy.classify tauShort g = long_gap) /\
  (forall d, reason d = long_gap ->
             GpsLegacy.resolveDrop geo h3Resolution d <> None).
Proof.
  split; [|split].
  - unfold detectDrops.
    destruct (Z.ltb_spec (Z.of_nat (List.length points)) 2) as [Hlt|Hge].
    + destruct points as [|a [|b rest]]; try reflexivity. simpl in Hlt. lia.
    + simpl. destruct (sortByTs points) as [|p rest]; [reflexivity|].
      apply legacy_scan.
  - intros g H1 H2. unfold GpsLegacy.classify.
    rewrite (proj2 (JsFacts.leb_gt _ _) H1).
    now rewrite (proj2 (JsFacts.gtb_lt _ _) H2).
  - intros d Hd. unfold GpsLegacy.resolveDrop. rewrite Hd. discriminate.
Qed.

End LegacyFacts.

(** ** The heatmap *)

Module HeatmapFacts.

Import Heatmap.

Definition total (proj : HexStats -> Z) (m : HexMap) : Z :=
  fold_right (fun kv acc => proj (snd kv) + acc) 0 m.

Definition statsAt (hex : string) (m : HexMap) : HexStats :=
  match JsMap.get String.eqb hex m with Some v => v | None => zero end.

Definition nonNegative (st : HexStats) : Prop :=
  0 <= shortDrops st /\ 0 <= longDrops st /\ 0 <= traversals st.

Lemma hex_has_get (k : string) (m : HexMap) :
  JsMap.has String.eqb k m
  = match JsMap.get String.eqb k m with Some _ => true | None => false end.
Proof.
  induction m as [|[h v] rest IH]; simpl; [reflexivity|].
  destruct (String.eqb h k); [reflexivity|exact IH].
Qed.

Lemma hex_get_set_eq (k : string) (v : HexStats) (m : HexMap) :
  JsMap.get String.eqb k (JsMap.set String.eqb k v m) = Some v.
Proof.
  induction m as [|[h w] rest IH]; simpl.
  - now rewrite String.eqb_refl.
  - destruct (String.eqb h k) eqn:E; simpl; rewrite E; [reflexivity|exact IH].
Qed.

Lemma total_set (proj : HexStats -> Z) (k : string) (v : HexStats)
  (m : HexMap) :
  proj zero = 0 ->
  total proj (JsMap.set String.eqb k v m)
  = total proj m - proj (statsAt k m) + proj v.
Proof.
  intros Hz. unfold statsAt. induction m as [|[h w] rest IH]; simpl.
  - lia.
  - destruct (String.eqb h k); simpl; [lia|]. rewrite IH. lia.
Qed.

Lemma hex_keys_set (k : string) (v : HexStats) (m : HexMap) :
  map fst (JsMap.set String.eqb k v m)
  = if JsMap.has String.eqb k m then map fst m else map fst m ++ [k].
Proof.
  induction m as [|[h w] rest IH]; simpl; [reflexivity|].
  destruct (String.eqb h k) eqn:E; simpl; [reflexivity|].
  rewrite IH. now destruct (JsMap.has String.eqb k rest).
Qed.

Lemma hex_has_keys (k : string) (m : HexMap) :
  JsMap.has String.eqb k m = true <-> In k (map fst m).
Proof.
  induction m as [|[h v] rest IH]; simpl.
  - split; [discriminate|contradiction].
  - destruct (String.eqb_spec h k) as [->|Hne]; [tauto|].
    rewrite IH. split; [tauto|]. intros [H|H]; [congruence|exact H].
Qed.

Lemma Forall_set (P : HexStats -> Prop) (k : string) (v : HexStats)
  (m : HexMap) :
  P v -> Forall (fun kv => P (snd kv)) m ->
  Forall (fun kv => P (snd kv)) (JsMap.set String.eqb k v m).
Proof.
  intros Hv. induction 1 as [|[h w] rest Hw Hrest IH]; simpl.
  - repeat constructor. exact Hv.
  - destruct (String.eqb h k); constructor; assumption.
Qed.

Lemma Forall_statsAt (P : HexStats -> Prop) (k : string) (m : HexMap) :
  P zero -> Forall (fun kv => P (snd kv)) m -> P (statsAt k m).
Proof.
  intros Hz. unfold statsAt. induction 1 as [|[h w] rest Hw Hrest IH]; simpl.
  - exact Hz.
  - destruct (String.eqb h k); assumption.
Qed.

(** [touch], run: the entry of the cell is created if needed and updated. *)
Lemma touch_run (hex : string) (f : HexStats -> HexStats) (m : HexMap) :
  touch hex f m
  = JsMap.set String.eqb hex (f (statsAt hex m))
      (if JsMap.has String.eqb hex m then m
       else JsMap.set String.eqb hex zero m).
Proof.
  unfold touch, statsAt. rewrite hex_has_get.
  destruct (JsMap.get String.eqb hex m) as [v|] eqn:G; simpl.
  - now rewrite G.
  - now rewrite hex_get_set_eq.
Qed.

Lemma total_touch (proj : HexStats -> Z) (hex : string)
  (f : HexStats -> HexStats) (m : HexMap) :
  proj zero = 0 ->
  total proj (touch hex f m)
  = total proj m + proj (f (statsAt hex m)) - proj (statsAt hex m).
Proof.
  intros Hz. rewrite touch_run, total_set by exact Hz.
  destruct (JsMap.has String.eqb hex m) eqn:H.
  - lia.
  - rewrite total_set by exact Hz.
    assert (E : statsAt hex (JsMap.set String.eqb hex zero m) = zero)
      by (unfold statsAt; now rewrite hex_get_set_eq).
    rewrite E, Hz.
    assert (E' : statsAt hex m = zero).
    { unfold statsAt. rewrite hex_has_get in H.
      now destruct (JsMap.get String.eqb hex m). }
    rewrite E', Hz. lia.
Qed.

Lemma NoDup_keys_touch (hex : string) (f : HexStats -> HexStats)
  (m : HexMap) :
  NoDup (map fst m) -> NoDup (map fst (touch hex f m)).
Proof.
  intros Hnd. rewrite touch_run, hex_keys_set.
  destruct (JsMap.has String.eqb hex m) eqn:H.
  - now rewrite H.
  - assert (Hin : JsMap.has String.eqb hex (JsMap.set String.eqb hex zero m)
                  = true) by (rewrite hex_has_get, hex_get_set_eq; reflexivity).
    rewrite Hin, hex_keys_set, H.
    apply NoDup_app; [exact Hnd|repeat constructor; simpl; tauto|].
    intros a Ha [<-|[]]. apply hex_has_keys in Ha. congruence.
Qed.

Lemma nonNegative_touch (hex : string) (f : HexStats -> HexStats)
  (m : HexMap) :
  (forall st, nonNegative st -> nonNegative (f st)) ->
  Forall (fun kv => nonNegative (snd kv)) m ->
  Forall (fun kv => nonNegative (snd kv)) (touch hex f m).
Proof.
  intros Hf Hm.
  assert (Hz : nonNegative zero) by (unfold nonNegative; simpl; lia).
  rewrite touch_run. apply Forall_set.
  - apply Hf. now apply Forall_statsAt.
  - destruct (JsMap.has String.eqb hex m); [exact Hm|].
    now apply Forall_set.
Qed.

Section Aggregation.

Variable latLngToCell : Q -> Q -> Z -> option string.
Variable cellToBoundary : string -> option (list (Q * Q)).
Variable h3res : Z.
Variable tauShort : Z.

(** A drop, or a traversal, both of whose ends the library maps to a cell. *)
Definition dropResolves (d : Gps.Drop) : bool :=
  match latLngToCell (Gps.startLat d) (Gps.startLon d) h3res,
        latLngToCell (Gps.endLat d) (Gps.endLon d) h3res with
  | Some _, Some _ => true
  | _, _ => false
  end.

Definition traversalResolves (t : Gps.Traversal) : bool :=
  match latLngToCell (Gps.t_startLat t) (Gps.t_startLon t) h3res,
        latLngToCell (Gps.t_endLat t) (Gps.t_endLon t) h3res with
  | Some _, Some _ => true
  | _, _ => false
  end.

Definition dropCount (m : HexMap) : Z :=
  total shortDrops m + total longDrops m.

Definition wellFormed (m : HexMap) : Prop :=
  NoDup (map fst m) /\ Forall (fun kv => nonNegative (snd kv)) m.

Lemma inc_nonNegative :
  (forall st, nonNegative st -> nonNegative (incShort st)) /\
  (forall st, nonNegative st -> nonNegative (incLong st)) /\
  (forall st, nonNegative st -> nonNegative (incTraversals st)).
Proof. unfold nonNegative; repeat split; simpl; intros; lia. Qed.

Lemma addDrop_effect (m : HexMap) (d : Gps.Drop) :
  wellFormed m ->
  wellFormed (addDrop latLngToCell h3res tauShort m d) /\
  dropCount (addDrop latLngToCell h3res tauShort m d)
    = dropCount m + (if dropResolves d then 2 else 0) /\
  total traversals (addDrop latLngToCell h3res tauShort m d)
    = total traversals m.
Proof.
  intros [Hnd Hnn]. unfold addDrop, dropResolves, dropCount.
  destruct (latLngToCell (Gps.startLat d) (Gps.startLon d) h3res) as [a|];
    [|repeat split; try assumption; lia].
  destruct (latLngToCell (Gps.endLat d) (Gps.endLon d) h3res) as [b|];
    [|repeat split; try assumption; lia].
  destruct inc_nonNegative as (Hs & Hl & _).
  simpl fold_left.
  destruct (Js.leb (Gps.durationSec d) (inject_Z tauShort * (3 # 2)));
    (split; [split; [now repeat apply NoDup_keys_touch
                    |repeat apply nonNegative_touch; assumption]|]);
    rewrite !total_touch by reflexivity; simpl; lia.
Qed.

Lemma addTraversal_effect (m : HexMap) (t : Gps.Traversal) :
  wellFormed m ->
  wellFormed (addTraversal latLngToCell h3res m t) /\
  dropCount (addTraversal latLngToCell h3res m t) = dropCount m /\
  total traversals (addTraversal latLngToCell h3res m t)
    = total traversals m + (if traversalResolves t then 2 else 0).
Proof.
  intros [Hnd Hnn]. unfold addTraversal, traversalResolves, dropCount.
  destruct (latLngToCell (Gps.t_startLat t) (Gps.t_startLon t) h3res) as [a|];
    [|repeat split; try assumption; lia].
  destruct (latLngToCell (Gps.t_endLat t) (Gps.t_endLon t) h3res) as [b|];
    [|repeat split; try assumption; lia].
  destruct inc_nonNegative as (_ & _ & Ht).
  simpl fold_left.
  split; [split; [now repeat apply NoDup_keys_touch
                 |repeat apply nonNegative_touch; assumption]|].
  rewrite !total_touch by reflexivity. simpl. lia.
Qed.

Definition countTrue {A} (f : A -> bool) (l : list A) : Z :=
  Z.of_nat (List.length (filter f l)).

Lemma countTrue_cons {A} (f : A -> bool) (x : A) (l : list A) :
  countTrue f (x :: l) = (if f x then 1 else 0) + countTrue f l.
Proof. unfold countTrue. simpl. destruct (f x); simpl List.length; lia. Qed.

Lemma fold_addDrop (drops : list Gps.Drop) :
  forall m,
    wellFormed m ->
    wellFormed (fold_left (addDrop latLngToCell h3res tauShort) drops m) /\
    dropCount (fold_left (addDrop latLngToCell h3res tauShort) drops m)
      = dropCount m + 2 * countTrue dropResolves drops /\
    total traversals (fold_left (addDrop latLngToCell h3res tauShort) drops m)
      = total traversals m.
Proof.
  induction drops as [|d rest IH]; intros m Hm; simpl fold_left.
  - unfold countTrue. simpl. repeat split; try apply Hm; lia.
  - destruct (addDrop_effect m d Hm) as (Hw & Hd & Ht).
    destruct (IH _ Hw) as (Hw' & Hd' & Ht').
    rewrite countTrue_cons. split; [exact Hw'|]. split; [|lia].
    rewrite Hd', Hd. destruct (dropResolves d); lia.
Qed.

Lemma fold_addTraversal (travs : list Gps.Traversal) :
  forall m,
    wellFormed m ->
    wellFormed (fold_left (addTraversal latLngToCell h3res) travs m) /\
    dropCount (fold_left (addTraversal latLngToCell h3res) travs m)
      = dropCount m /\
    total traversals (fold_left (addTraversal latLngToCell h3res) travs m)
      = total traversals m + 2 * countTrue traversalResolves travs.
Proof.
  induction travs as [|t rest IH]; intros m Hm; simpl fold_left.
  - unfold countTrue. simpl. repeat split; try apply Hm; lia.
  - destruct (addTraversal_effect m t Hm) as (Hw & Hd & Ht).
    destruct (IH _ Hw) as (Hw' & Hd' & Ht').
    rewrite countTrue_cons. split; [exact Hw'|]. split; [lia|].
    rewrite Ht', Ht. destruct (traversalResolves t); lia.
Qed.

Lemma aggregate_wellFormed (drops : list Gps.Drop)
  (travs : list Gps.Traversal) :
  wellFormed (aggregate latLngToCell h3res tauShort drops travs).
Proof.
  unfold aggregate.
  assert (H0 : wellFormed []) by (split; constructor).
  destruct (fold_addDrop drops [] H0) as (Hw & _ & _).
  now destruct (fold_addTraversal travs _ Hw) as (Hw' & _ & _).
Qed.


End Aggregation.

Lemma instability_of_counts (sh lo tr : Z) :
  0 <= sh -> 0 <= lo -> 0 <= tr ->
  let score :=
    Gps.calculateInstabilityScore (inject_Z sh) (inject_Z lo) (inject_Z tr)
                                  1 3 in
  (0 <= score)%Q /\
  (tr = 0 -> score = 0%Q) /\
  (1 <= tr ->
   (score == (inject_Z sh + 3 * inject_Z lo) / inject_Z tr)%Q).
Proof.
  intros Hs Hl Ht score. unfold score, Gps.calculateInstabilityScore.
  assert (Qs : (0 <= inject_Z sh)%Q)
    by (change (inject_Z 0 <= inject_Z sh)%Q; rewrite <- Zle_Qle; lia).
  assert (Ql : (0 <= inject_Z lo)%Q)
    by (change (inject_Z 0 <= inject_Z lo)%Q; rewrite <- Zle_Qle; lia).
  destruct (Z.eq_dec tr 0) as [->|Hne].
  - simpl. repeat split; try reflexivity; try discriminate. lia.
  - assert (H1 : 1 <= tr) by lia.
    assert (Qt : (1 <= inject_Z tr)%Q)
      by (change (inject_Z 1 <= inject_Z tr)%Q; rewrite <- Zle_Qle; lia).
    assert (E0 : Js.eqb (inject_Z tr) 0 = false).
    { apply AlertEngine.eqb_false_of_pos. lra. }
    assert (Emax : Js.Math_max 1 (inject_Z tr) = inject_Z tr).
    { unfold Js.Math_max. now rewrite (proj2 (JsFacts.leb_le _ _) Qt). }
    rewrite E0, Emax. split; [|split].
    + apply Qle_shift_div_l; [lra|]. lra.
    + intros ->. lia.
    + intros _. apply Qdiv_comp; [lra|reflexivity].
Qed.

Section Features.

Variable latLngToCell : Q -> Q -> Z -> option string.
Variable cellToBoundary : string -> option (list (Q * Q)).
Variable h3res : Z.
Variable tauShort : Z.

(** X9.  Every feature of the heatmap reports the counters of one cell of
    the aggregation, and its instability is never negative: it is 0 when no
    traversal touches the cell, however many drops it has, and otherwise the
    short drops plus three times the long drops, per traversal. *)
Theorem heatmap_instability (drops : list Gps.Drop)
  (travs : list Gps.Traversal) (f : Feature) :
  In f (features latLngToCell cellToBoundary h3res tauShort drops travs) ->
  In (hex f, mkHexStats (f_shortDrops f) (f_longDrops f) (f_traversals f))
     (aggregate latLngToCell h3res tauShort drops travs) /\
  (0 <= instability f)%Q /\
  (f_traversals f = 0 -> instability f = 0%Q) /\
  (1 <= f_traversals f ->
   (instability f
    == (inject_Z (f_shortDrops f) + 3 * inject_Z (f_longDrops f))
       / inject_Z (f_traversals f))%Q).
Proof.
  intros Hin. unfold features in Hin. apply in_flat_map in Hin.
  destruct Hin as ([h st] & Hentry & Hf).
  unfold featureOf in Hf.
  destruct (cellToBoundary h) as [boundary|]; [|contradiction].
  destruct Hf as [<-|[]]. simpl.
  destruct (aggregate_wellFormed latLngToCell h3res tauShort drops travs)
    as (_ & Hnn).
  rewrite Forall_forall in Hnn. specialize (Hnn _ Hentry).
  destruct Hnn as (Hs & Hl & Ht). simpl in Hs, Hl, Ht.
  split; [now destruct st|].
  now apply instability_of_counts.
Qed.

End Features.

(** A library stand-in for the examples: one-degree cells, and a triangle as
    the boundary of every cell. *)
Definition cellOfDegrees (la lo : Q) (res : Z) : option string :=
  Some (Gps.latLngToCell CorridorResolver.planarGeo la lo res).

Definition triangle (h : string) : option (list (Q * Q)) :=
  Some [(0 # 1, 0 # 1); (0 # 1, 1 # 1); (1 # 1, 0 # 1)].

Lemma heatmap_instability_witness :
  exists f,
    In f (features cellOfDegrees triangle 7 60
            [CorridorResolver.same_cell_drop] []) /\
    f_shortDrops f + f_longDrops f = 2 /\ f_traversals f = 0 /\
    instability f = 0%Q.
Proof.
  let l := eval vm_compute in
             (features cellOfDegrees triangle 7 60
                [CorridorResolver.same_cell_drop] []) in
  match l with
  | ?f :: _ =>
      exists f;
      assert (Hin : In f (features cellOfDegrees triangle 7 60
                            [CorridorResolver.same_cell_drop] []))
        by (vm_compute; left; reflexivity);
      split; [exact Hin|];
      split; [reflexivity|]; split; [reflexivity|];
      exact (proj1 (proj2 (proj2 (heatmap_instability cellOfDegrees triangle
                                    7 60 [CorridorResolver.same_cell_drop] []
                                    f Hin))) eq_refl)
  end.
Defined.

(** *** Short drops and micro drops *)

(** [isShort] of the aggregation loop. *)
Definition isShort (tauShort : Z) (drop : Gps.Drop) : bool :=
  Js.leb (Gps.durationSec drop) (inject_Z tauShort * (3 # 2))%Q.

Lemma addDrop_isShort (latLngToCell : Q -> Q -> Z -> option string)
  (h3res tauShort : Z) (m : HexMap) (drop : Gps.Drop) (a b : string) :
  latLngToCell (Gps.startLat drop) (Gps.startLon drop) h3res = Some a ->
  latLngToCell (Gps.endLat drop) (Gps.endLon drop) h3res = Some b ->
  addDrop latLngToCell h3res tauShort m drop
  = let f := if isShort tauShort drop then incShort else incLong in
    touch b f (touch a f m).
Proof. intros Ha Hb. unfold addDrop. now rewrite Ha, Hb. Qed.





End HeatmapFacts.

(** ** Keeping the stored baselines up to date *)

Module BaselineUpkeep.

Import Db.

(** The unique key of a row of [corridorStats]. *)
Definition keyOf (b : Baseline.CorridorBaseline) : string * Z :=
  (Baseline.corridorId b, Baseline.bucketHour b).

Definition uniqueStats (s : State) : Prop :=
  NoDup (map keyOf (corridorStats s)).

(** The table after [prisma.corridorStats.upsert]. *)
Definition upserted (b : Baseline.CorridorBaseline)
  (rows : list Baseline.CorridorBaseline) : list Baseline.CorridorBaseline :=
  if existsb (stats_match b) rows
  then map (fun c => if stats_match b c then b else c) rows
  else rows ++ [b].

Lemma stats_match_iff (b c : Baseline.CorridorBaseline) :
  stats_match b c = true <-> keyOf c = keyOf b.
Proof.
  unfold stats_match, keyOf.
  rewrite andb_true_iff, String.eqb_eq, Z.eqb_eq.
  split; [intros [-> ->]; reflexivity|intros [= -> ->]; tauto].
Qed.

Lemma upsert_run (b : Baseline.CorridorBaseline) (s : State) :
  corridorStats_upsert b s
  = (tt, set_corridorStats (upserted b (corridorStats s)) s).
Proof.
  unfold corridorStats_upsert, modify, upserted.
  now destruct (existsb (stats_match b) (corridorStats s)).
Qed.

Lemma upserted_keys (b : Baseline.CorridorBaseline)
  (rows : list Baseline.CorridorBaseline) :
  map keyOf (upserted b rows)
  = if existsb (stats_match b) rows then map keyOf rows
    else map keyOf rows ++ [keyOf b].
Proof.
  unfold upserted. destruct (existsb (stats_match b) rows).
  - rewrite map_map. apply map_ext. intros c.
    destruct (stats_match b c) eqn:E; [|reflexivity].
    symmetry. now apply stats_match_iff.
  - now rewrite map_app.
Qed.

Lemma upserted_NoDup (b : Baseline.CorridorBaseline)
  (rows : list Baseline.CorridorBaseline) :
  NoDup (map keyOf rows) -> NoDup (map keyOf (upserted b rows)).
Proof.
  intros Hnd. rewrite upserted_keys.
  destruct (existsb (stats_match b) rows) eqn:E; [exact Hnd|].
  apply NoDup_app; [exact Hnd|repeat constructor; simpl; tauto|].
  intros k Hk [<-|[]].
  apply in_map_iff in Hk. destruct Hk as (c & Hkey & Hc).
  assert (Hex : existsb (stats_match b) rows = true).
  { apply existsb_exists. exists c. split; [exact Hc|].
    now apply stats_match_iff. }
  congruence.
Qed.

Lemma upserted_In_new (b : Baseline.CorridorBaseline)
  (rows : list Baseline.CorridorBaseline) :
  In b (upserted b rows).
Proof.
  unfold upserted. destruct (existsb (stats_match b) rows) eqn:E.
  - apply existsb_exists in E. destruct E as (c & Hc & Hm).
    apply in_map_iff. exists c. now rewrite Hm.
  - apply in_or_app. right. now left.
Qed.

Lemma upserted_In_other (b c : Baseline.CorridorBaseline)
  (rows : list Baseline.CorridorBaseline) :
  In c rows -> keyOf c <> keyOf b -> In c (upserted b rows).
Proof.
  intros Hc Hne. unfold upserted.
  destruct (existsb (stats_match b) rows).
  - apply in_map_iff. exists c. split; [|exact Hc].
    destruct (stats_match b c) eqn:E; [|reflexivity].
    apply stats_match_iff in E. contradiction.
  - apply in_or_app. now left.
Qed.

Lemma upserted_In_inv (b c : Baseline.CorridorBaseline)
  (rows : list Baseline.CorridorBaseline) :
  In c (upserted b rows) -> c = b \/ In c rows.
Proof.
  unfold upserted. destruct (existsb (stats_match b) rows).
  - intros Hc. apply in_map_iff in Hc. destruct Hc as (c' & E & Hc').
    destruct (stats_match b c'); [left|right]; congruence.
  - intros Hc. apply in_app_or in Hc. destruct Hc as [Hc|[<-|[]]]; tauto.
Qed.

(** The table after the loop [for (const baseline of baselines) upsert]. *)
Lemma forEach_upsert_run (bs : list Baseline.CorridorBaseline) :
  forall s,
    forEach bs corridorStats_upsert s
    = (tt, set_corridorStats
             (fold_left (fun rows b => upserted b rows) bs (corridorStats s))
             s).
Proof.
  induction bs as [|b rest IH]; intros s; simpl.
  - destruct s. reflexivity.
  - unfold bind. rewrite upsert_run, IH. destruct s. reflexivity.
Qed.

Lemma fold_upserted (bs : list Baseline.CorridorBaseline) :
  forall rows,
    NoDup (map keyOf rows) ->
    NoDup (map keyOf bs) ->
    let rows' := fold_left (fun rows b => upserted b rows) bs rows in
    NoDup (map keyOf rows') /\
    (forall b, In b bs -> In b rows') /\
    (forall c, In c rows -> ~ In (keyOf c) (map keyOf bs) -> In c rows') /\
    (forall c, In c rows' -> In c bs \/ In c rows).
Proof.
  induction bs as [|b rest IH]; intros rows Hrows Hbs; simpl.
  - split; [exact Hrows|]. split; [intros b []|]. split; tauto.
  - inversion Hbs as [|? ? Hnotin Hrest]; subst.
    destruct (IH (upserted b rows) (upserted_NoDup b rows Hrows) Hrest)
      as (Hnd & Hnew & Hold & Hinv).
    split; [exact Hnd|]. split; [|split].
    + intros c [<-|Hc]; [|now apply Hnew].
      apply Hold; [apply upserted_In_new|exact Hnotin].
    + intros c Hc Hkey. apply Hold.
      * apply upserted_In_other; [exact Hc|]. intros E. apply Hkey.
        left. now symmetry.
      * intros Hin. apply Hkey. now right.
    + intros c Hc. destruct (Hinv c Hc) as [H|H]; [tauto|].
      destruct (upserted_In_inv _ _ _ H); [subst; tauto|tauto].
Qed.

Lemma computeBaselines_corridorId (cid : string)
  (ts : list Baseline.TraversalData) (minSamples : Z)
  (b : Baseline.CorridorBaseline) :
  In b (Baseline.computeBaselines cid ts minSamples) ->
  Baseline.corridorId b = cid.
Proof.
  unfold Baseline.computeBaselines. rewrite in_app_iff.
  intros [H|H].
  - apply BaselineStore.hourlyBaselines_In in H.
    destruct H as (h & v & _ & _ & ->). reflexivity.
  - destruct (Z.of_nat (List.length ts) >? 0); [|contradiction].
    destruct H as [<-|[]]. reflexivity.
Qed.

Lemma computeBaselines_NoDup_hours (cid : string)
  (ts : list Baseline.TraversalData) (minSamples : Z) :
  NoDup (map Baseline.bucketHour
             (Baseline.computeBaselines cid ts minSamples)).
Proof.
  unfold Baseline.computeBaselines.
  rewrite map_app, BaselineStore.global_part.
  apply NoDup_app.
  - apply BaselineStore.hourlyBaselines_NoDup,
      BaselineStore.NoDup_keys_groupByHour.
  - destruct ts; simpl; repeat constructor; simpl; tauto.
  - intros h Hh Hg.
    apply in_map_iff in Hh. destruct Hh as (b & <- & Hb).
    apply BaselineStore.hourly_hours_in_range in Hb.
    destruct ts; simpl in Hg; [contradiction|].
    destruct Hg as [Hg|[]]. lia.
Qed.

Lemma computeBaselines_NoDup_keys (cid : string)
  (ts : list Baseline.TraversalData) (minSamples : Z) :
  NoDup (map keyOf (Baseline.computeBaselines cid ts minSamples)).
Proof.
  pose proof (computeBaselines_NoDup_hours cid ts minSamples) as Hnd.
  pose proof (computeBaselines_corridorId cid ts minSamples) as Hcid.
  induction (Baseline.computeBaselines cid ts minSamples) as [|b bs IH];
    simpl; [constructor|].
  inversion Hnd as [|? ? Hnotin Hnd']; subst. constructor.
  - intros Hin. apply Hnotin.
    apply in_map_iff in Hin. destruct Hin as (c & Hkey & Hc).
    apply in_map_iff. exists c. split; [|exact Hc].
    unfold keyOf in Hkey. congruence.
  - apply IH; [exact Hnd'|]. intros c Hc. apply Hcid. now right.
Qed.

(** The traversals stored for a corridor, as [computeBaselines] sees them. *)
Definition history (cid : string) (s : State) : list Baseline.TraversalData :=
  map Ingest.toData
      (filter (fun r => String.eqb (tr_corridorId r) cid) (traversals s)).

Definition recomputed (cid : string) (s : State)
  : list Baseline.CorridorBaseline :=
  Baseline.computeBaselines cid (history cid s) Baseline.defaultMinSamples.

Lemma updateCorridorBaselines_run (cid : string) (s : State) :
  Ingest.updateCorridorBaselines cid s
  = (tt,
     match history cid s with
     | [] => s
     | _ => set_corridorStats
              (fold_left (fun rows b => upserted b rows) (recomputed cid s)
                         (corridorStats s)) s
     end).
Proof.
  unfold Ingest.updateCorridorBaselines, bind, traversal_findMany, gets,
    recomputed, history.
  destruct (filter (fun r => String.eqb (tr_corridorId r) cid) (traversals s))
    as [|r rows] eqn:F.
  - reflexivity.
  - replace (Z.of_nat (List.length (r :: rows)) =? 0) with false
      by (symmetry; apply Z.eqb_neq; simpl List.length; lia).
    now rewrite forEach_upsert_run.
Qed.

(** X10.  [updateCorridorBaselines] on a store whose baseline rows have
    distinct (corridor, bucket) keys: when the corridor has at least one
    stored traversal, every baseline recomputed from its traversals is in
    the table afterwards, the keys are still distinct, every row the table
    holds afterwards is a recomputed baseline or a row it held before, and
    every earlier row whose key is not recomputed (other corridors, and
    buckets of this corridor that are no longer produced) is kept: nothing is
    ever deleted.  No other table changes, and with no stored traversal the
    store is left as it is. *)
Theorem updateCorridorBaselines_refreshes (cid : string) (s : State) :
  uniqueStats s ->
  let s' := snd (Ingest.updateCorridorBaselines cid s) in
  (history cid s <> [] ->
   forall b, In b (recomputed cid s) -> In b (corridorStats s')) /\
  uniqueStats s' /\
  (forall c, In c (corridorStats s') ->
             In c (recomputed cid s) \/ In c (corridorStats s)) /\
  (forall c, In c (corridorStats s) ->
             ~ In (keyOf c) (map keyOf (recomputed cid s)) ->
             In c (corridorStats s')) /\
  (forall c, In c (corridorStats s) -> Baseline.corridorId c <> cid ->
             In c (corridorStats s')) /\
  (traversals s', alerts s', emitted s', corridors s', trips s',
   vehicles s', gpsPoints s', drops s')
  = (traversals s, alerts s, emitted s, corridors s, trips s,
     vehicles s, gpsPoints s, drops s) /\
  (history cid s = [] -> s' = s).
Proof.
  intros Huniq s'. unfold s'. rewrite updateCorridorBaselines_run. simpl snd.
  destruct (fold_upserted (recomputed cid s) (corridorStats s) Huniq
              (computeBaselines_NoDup_keys _ _ _))
    as (Hnd & Hnew & Hold & Hinv).
  assert (Hother : forall c, Baseline.corridorId c <> cid ->
                             ~ In (keyOf c) (map keyOf (recomputed cid s))).
  { intros c Hc Hin. apply in_map_iff in Hin.
    destruct Hin as (b & Hkey & Hb).
    apply computeBaselines_corridorId in Hb.
    unfold keyOf in Hkey. congruence. }
  destruct (history cid s) as [|t ts] eqn:H.
  - split; [congruence|]. split; [exact Huniq|].
    repeat split; try tauto.
  - split; [intros _; exact Hnew|]. split; [exact Hnd|].
    split; [exact Hinv|]. split; [exact Hold|].
    split; [intros c Hc Hne; apply Hold; [exact Hc|now apply Hother]|].
    split; [reflexivity|discriminate].
Qed.

(** The store after [good_batch] has been ingested into the empty store:
    one corridor, "id2", with one traversal and its global baseline. *)
Definition ingested : State :=
  snd (Ingest.POST IngestionBoundary.parseTwo CorridorResolver.planarGeo
                   Ingest.defaultConfig IngestionBoundary.good_batch Db.empty).

Lemma ingested_uniqueStats : uniqueStats ingested.
Proof.
  unfold uniqueStats.
  assert (E : map keyOf (corridorStats ingested) = [("id2"%string, -1)])
    by (vm_compute; reflexivity).
  rewrite E. repeat constructor. simpl. tauto.
Qed.

Lemma updateCorridorBaselines_refreshes_witness :
  uniqueStats (snd (Ingest.updateCorridorBaselines "id2" ingested)).
Proof.
  exact (proj1 (proj2 (updateCorridorBaselines_refreshes "id2" ingested
                         ingested_uniqueStats))).
Defined.

Lemma round_close (x : Q) : (x - inject_Z (Js.Math_round x) < 1 # 2)%Q.
Proof.
  unfold Js.Math_round.
  pose proof (Qlt_floor (x + (1 # 2))) as H.
  rewrite inject_Z_plus in H. change (inject_Z 1) with 1%Q in H. lra.
Qed.

Lemma single_sample_baselines (cid : string) (t : Baseline.TraversalData) :
  Baseline.computeBaselines cid [t] Baseline.defaultMinSamples
  = [Baseline.baselineOf cid (-1) [t]].
Proof.
  unfold Baseline.computeBaselines, Baseline.groupByHour.
  cbn [fold_left]. unfold Baseline.groupStep.
  set (h := Baseline.getHourBucket (Baseline.startTs t)).
  unfold JsMap.pushTo, JsMap.push.
  cbn [JsMap.has JsMap.set JsMap.get negb].
  rewrite Z.eqb_refl. cbn [JsMap.set app]. reflexivity.
Qed.

(** X11.  The first traversal of a corridor never raises an alert.  When the
    corridor has exactly one stored traversal and no baseline row yet, the
    ingest sequence for that traversal (recompute the baselines, then check
    for alerts, with a threshold of at least one minute) creates nothing:
    the only baseline is the global one computed from the traversal itself,
    so the delay is below half a second and the speed excess is zero. *)
Theorem first_traversal_raises_no_alert (cid trip veh : string)
  (row : TraversalRow) (s : State) (thr : Z) :
  filter (fun r => String.eqb (tr_corridorId r) cid) (traversals s) = [row] ->
  (forall c, In c (corridorStats s) -> Baseline.corridorId c <> cid) ->
  1 <= thr ->
  let s1 := snd (Ingest.updateCorridorBaselines cid s) in
  let input :=
    AlertService.mkInput cid trip veh (Gps.travelSec (tr_data row))
      (Gps.avgSpeedKmh (tr_data row)) (Gps.t_startTs (tr_data row)) in
  corridorStats s1
    = corridorStats s ++ [Baseline.baselineOf cid (-1) [Ingest.toData row]] /\
  AlertService.checkAndCreateAlerts thr input s1 = (Some [], s1).
Proof.
  intros Hrows Hnone Hthr s1 input.
  set (g := Baseline.baselineOf cid (-1) [Ingest.toData row]).
  assert (Hhist : history cid s = [Ingest.toData row])
    by (unfold history; now rewrite Hrows).
  assert (Hex : existsb (stats_match g) (corridorStats s) = false).
  { destruct (existsb (stats_match g) (corridorStats s)) eqn:E;
      [|reflexivity].
    apply existsb_exists in E. destruct E as (c & Hc & Hm).
    apply stats_match_iff in Hm. unfold keyOf in Hm. simpl in Hm.
    exfalso. apply (Hnone c Hc). congruence. }
  assert (Hstats : corridorStats s1 = corridorStats s ++ [g]).
  { unfold s1. rewrite updateCorridorBaselines_run. simpl snd.
    unfold recomputed. rewrite Hhist, single_sample_baselines. simpl.
    fold g. unfold upserted. now rewrite Hex. }
  split; [exact Hstats|].
  assert (Hfilter :
            filter (fun b => String.eqb (Baseline.corridorId b) cid)
                   (corridorStats s1) = [g]).
  { rewrite Hstats, filter_app. simpl. rewrite String.eqb_refl.
    replace (filter (fun b => String.eqb (Baseline.corridorId b) cid)
                    (corridorStats s)) with (@nil Baseline.CorridorBaseline);
      [reflexivity|].
    symmetry. apply DropFacts.filter_nil_iff. intros c Hc.
    apply String.eqb_neq. now apply Hnone. }
  assert (Happ : AlertEngine.applicable s1 input = Some g).
  { unfold AlertEngine.applicable. simpl AlertService.corridorId.
    rewrite Hfilter. unfold Baseline.getApplicableBaseline.
    cbn [find AlertService.timestamp input].
    change (Baseline.bucketHour g) with (-1).
    pose proof (BaselineStore.hour_range (Gps.t_startTs (tr_data row))) as Hh.
    replace (-1 =? Baseline.getHourBucket (Gps.t_startTs (tr_data row)))
      with false by (symmetry; apply Z.eqb_neq; lia).
    reflexivity. }
  assert (Hd : AlertEngine.delayQualifies thr input g = false).
  { unfold AlertEngine.delayQualifies, Baseline.checkDelayAlert. simpl.
    apply JsFacts.geb_lt.
    change (Stats.at_ [Gps.travelSec (tr_data row)] (1 / 2))
      with (Gps.travelSec (tr_data row)).
    pose proof (round_close (Gps.travelSec (tr_data row))) as Hr.
    assert (Ht : (1 <= inject_Z thr)%Q)
      by (change (inject_Z 1 <= inject_Z thr)%Q; rewrite <- Zle_Qle; lia).
    lra. }
  assert (Ho : AlertEngine.overspeedQualifies input g = false).
  { unfold AlertEngine.overspeedQualifies, Baseline.checkOverspeedAlert.
    cbn [Baseline.o_isAlert]. apply andb_false_iff. left.
    apply JsFacts.gtb_le.
    change (Baseline.p95SpeedKmh g)
      with (Stats.percentile [Gps.avgSpeedKmh (tr_data row)] 95).
    rewrite StatsFacts.percentile_single.
    cbn [AlertService.avgSpeedKmh input]. lra. }
  rewrite AlertEngine.checkAndCreateAlerts_run, Happ.
  assert (Hc : AlertEngine.created thr input s1 = []).
  { unfold AlertEngine.created, AlertEngine.overspeedNew,
      AlertEngine.delayNew. now rewrite Happ, Hd, Ho. }
  now rewrite Hc, AlertEngine.withAlerts_nil.
Qed.

(** A store that holds one traversal of corridor "c1" and nothing else. *)
Definition firstRow : TraversalRow :=
  mkTraversalRow "c1" "t1"
    (Gps.mkTraversal (Gps.mkKey "a" "b" 3) 0 90000 90 40 0 0 0 (1 # 100)).

Definition firstSeen : State := mkState [] [] [] [] [] [firstRow] [] [] [] 0.

Lemma first_traversal_raises_no_alert_witness :
  let s1 := snd (Ingest.updateCorridorBaselines "c1" firstSeen) in
  corridorStats s1 = [Baseline.baselineOf "c1" (-1) [Ingest.toData firstRow]] /\
  AlertService.checkAndCreateAlerts 15
    (AlertService.mkInput "c1" "t1" "v1" 90 40 0) s1 = (Some [], s1).
Proof.
  apply (first_traversal_raises_no_alert "c1" "t1" "v1" firstRow firstSeen 15).
  - reflexivity.
  - intros c [].
  - lia.
Defined.

Lemma key_injective (rows : list Baseline.CorridorBaseline)
  (b c : Baseline.CorridorBaseline) :
  NoDup (map keyOf rows) -> In b rows -> In c rows -> keyOf c = keyOf b ->
  c = b.
Proof.
  induction rows as [|r rest IH]; simpl; [contradiction|].
  intros Hnd Hb Hc Hkey. inversion Hnd as [|? ? Hnotin Hnd']; subst.
  destruct Hb as [->|Hb], Hc as [->|Hc].
  - reflexivity.
  - exfalso. apply Hnotin. rewrite <- Hkey. now apply in_map.
  - exfalso. apply Hnotin. rewrite Hkey. now apply in_map.
  - now apply IH.
Qed.

(** An upsert of a row the table already holds changes nothing. *)
Lemma upserted_present (b : Baseline.CorridorBaseline)
  (rows : list Baseline.CorridorBaseline) :
  NoDup (map keyOf rows) -> In b rows -> upserted b rows = rows.
Proof.
  intros Hnd Hb. unfold upserted.
  assert (Hex : existsb (stats_match b) rows = true).
  { apply existsb_exists. exists b. split; [exact Hb|].
    now apply stats_match_iff. }
  rewrite Hex. rewrite <- (map_id rows) at 2. apply map_ext_in.
  intros c Hc. destruct (stats_match b c) eqn:E; [|reflexivity].
  apply stats_match_iff in E. symmetry. now apply (key_injective rows).
Qed.

Lemma fold_upserted_present (bs : list Baseline.CorridorBaseline) :
  forall rows,
    NoDup (map keyOf rows) ->
    (forall b, In b bs -> In b rows) ->
    fold_left (fun rows b => upserted b rows) bs rows = rows.
Proof.
  induction bs as [|b rest IH]; intros rows Hnd Hin; simpl; [reflexivity|].
  rewrite upserted_present; [|exact Hnd|apply Hin; now left].
  apply IH; [exact Hnd|]. intros c Hc. apply Hin. now right.
Qed.

(** X12.  [updateCorridorBaselines] is idempotent on a store whose baseline
    rows have distinct keys: a second run for the same corridor, with no
    traversal stored in between, leaves every table as the first run left
    it. *)
Theorem updateCorridorBaselines_idempotent (cid : string) (s : State) :
  uniqueStats s ->
  let once := snd (Ingest.updateCorridorBaselines cid s) in
  snd (Ingest.updateCorridorBaselines cid once) = once.
Proof.
  intros Huniq once. unfold once.
  rewrite !updateCorridorBaselines_run. simpl snd.
  destruct (history cid s) as [|t ts] eqn:H.
  - now rewrite H.
  - set (rows' := fold_left (fun rows b => upserted b rows)
                            (recomputed cid s) (corridorStats s)).
    assert (Hh : history cid (set_corridorStats rows' s) = t :: ts)
      by (rewrite <- H; reflexivity).
    rewrite Hh.
    assert (Hr : recomputed cid (set_corridorStats rows' s) = recomputed cid s)
      by reflexivity.
    rewrite Hr. simpl corridorStats.
    destruct (fold_upserted (recomputed cid s) (corridorStats s) Huniq
                (computeBaselines_NoDup_keys _ _ _))
      as (Hnd & Hnew & _ & _).
    fold rows' in Hnd, Hnew.
    rewrite (fold_upserted_present _ rows' Hnd Hnew).
    reflexivity.
Qed.

Lemma updateCorridorBaselines_idempotent_witness :
  let once := snd (Ingest.updateCorridorBaselines "c1" firstSeen) in
  snd (Ingest.updateCorridorBaselines "c1" once) = once.
Proof.
  apply (updateCorridorBaselines_idempotent "c1" firstSeen). constructor.
Defined.

End BaselineUpkeep.

(** ** Trip segmentation of the ingest route *)

Module TripSegmentation.

Import Ingest.

(** The pairs of neighbours of a list. *)
Definition consecutive {A} (l : list A) : list (A * A) := combine l (tl l).

(** [l[l.length - 1]], when [l] is not empty. *)
Definition lastOf {A} (l : list A) : option A := List.last (map Some l) None.

Definition gapMinutes (a b : Point) : Q := (inject_Z (ts b - ts a) / 60000)%Q.

(** No two neighbours of a trip are more than [TRIP_GAP_MINUTES] apart. *)
Definition linked (t : list Point) : Prop :=
  forall a b, In (a, b) (consecutive t) ->
              (gapMinutes a b <= TRIP_GAP_MINUTES)%Q.

(** Each trip ends more than [TRIP_GAP_MINUTES] before the next one starts. *)
Definition separated (trips : list (list Point)) : Prop :=
  forall t1 t2, In (t1, t2) (consecutive trips) ->
    exists a b, lastOf t1 = Some a /\ hd_error t2 = Some b /\
                (TRIP_GAP_MINUTES < gapMinutes a b)%Q.

Definition wellSegmented (trips : list (list Point)) : Prop :=
  Forall (fun t => t <> [] /\ linked t) trips /\ separated trips.

Lemma lastOf_snoc {A} (l : list A) (x : A) : lastOf (l ++ [x]) = Some x.
Proof. unfold lastOf. rewrite map_app. simpl. apply last_last. Qed.

Lemma lastOf_cons {A} (a b : A) (l : list A) :
  lastOf (a :: b :: l) = lastOf (b :: l).
Proof. reflexivity. Qed.

Lemma lastOf_None {A} (l : list A) : lastOf l = None -> l = [].
Proof.
  induction l as [|a [|b r] IH]; [reflexivity|discriminate|].
  rewrite lastOf_cons. intros H. specialize (IH H). discriminate.
Qed.

Lemma lastOf_Some {A} (l : list A) (x : A) : lastOf l = Some x -> l <> [].
Proof. intros H ->. discriminate. Qed.

Lemma consecutive_snoc {A} (l : list A) (x : A) :
  consecutive (l ++ [x])
  = consecutive l ++ match lastOf l with
                     | Some y => [(y, x)]
                     | None => []
                     end.
Proof.
  induction l as [|a [|b r] IH]; [reflexivity|reflexivity|].
  rewrite lastOf_cons.
  change (consecutive ((a :: b :: r) ++ [x]))
    with ((a, b) :: consecutive ((b :: r) ++ [x])).
  rewrite IH. reflexivity.
Qed.

Lemma hd_error_snoc {A} (l : list A) (x : A) :
  l <> [] -> hd_error (l ++ [x]) = hd_error l.
Proof. destruct l; [congruence|reflexivity]. Qed.

Lemma nonempty_length {A} (l : list A) :
  l <> [] -> (Z.of_nat (List.length l) >? 0) = true.
Proof.
  destruct l; [congruence|]. intros _. apply Z.gtb_lt. simpl List.length. lia.
Qed.

(** What the loop keeps true of [trips] and [currentTrip] once the current
    trip has its first point. *)
Lemma segmentTrips_wellSegmented :
  forall sorted currentTrip trips,
    currentTrip <> [] ->
    wellSegmented (trips ++ [currentTrip]) ->
    wellSegmented (segmentTrips sorted currentTrip trips).
Proof.
  induction sorted as [|point rest IH]; intros cur trips Hne Hws.
  - simpl. now rewrite nonempty_length.
  - simpl. fold (lastOf cur).
    destruct (lastOf cur) as [lastPoint|] eqn:L;
      [|apply lastOf_None in L; contradiction].
    fold (gapMinutes lastPoint point).
    destruct Hws as [Hall Hsep].
    apply Forall_app in Hall. destruct Hall as [Htrips Hcur].
    inversion Hcur as [|? ? [_ Hlinked] _]; subst.
    destruct (Js.gtb (gapMinutes lastPoint point) TRIP_GAP_MINUTES) eqn:G.
    + apply JsFacts.gtb_lt in G.
      apply IH; [discriminate|]. split.
      * apply Forall_app. split; [apply Forall_app; now split|].
        constructor; [|constructor]. split; [discriminate|].
        intros a b [].
      * intros t1 t2 Hin. rewrite consecutive_snoc, lastOf_snoc in Hin.
        apply in_app_or in Hin. destruct Hin as [Hin|[[= <- <-]|[]]].
        -- now apply Hsep.
        -- exists lastPoint, point. repeat split; assumption.
    + apply JsFacts.gtb_le in G.
      apply IH; [now destruct cur|]. split.
      * apply Forall_app. split; [exact Htrips|].
        constructor; [|constructor]. split; [now destruct cur|].
        intros a b Hin. rewrite consecutive_snoc, L in Hin.
        apply in_app_or in Hin. destruct Hin as [Hin|[[= <- <-]|[]]].
        -- now apply Hlinked.
        -- exact G.
      * intros t1 t2 Hin. rewrite consecutive_snoc in Hin.
        apply in_app_or in Hin. destruct Hin as [Hin|Hin].
        -- apply Hsep. rewrite consecutive_snoc. apply in_or_app. now left.
        -- destruct (lastOf trips) as [t|] eqn:T; [|contradiction].
           destruct Hin as [[= <- <-]|[]].
           destruct (Hsep t cur) as (a & b & Ha & Hb & Hfar).
           { rewrite consecutive_snoc, T. apply in_or_app. right. now left. }
           exists a, b. rewrite hd_error_snoc by exact Hne. tauto.
Qed.

Lemma segmentTrips_concat :
  forall sorted currentTrip trips,
    List.concat (segmentTrips sorted currentTrip trips)
    = List.concat trips ++ currentTrip ++ sorted.
Proof.
  induction sorted as [|point rest IH]; intros cur trips.
  - simpl. destruct cur as [|c cs].
    + simpl. now rewrite app_nil_r.
    + rewrite nonempty_length by discriminate.
      rewrite List.concat_app. simpl. now rewrite !app_nil_r.
  - simpl. fold (lastOf cur).
    destruct (lastOf cur) as [lastPoint|] eqn:L.
    + destruct (Js.gtb _ TRIP_GAP_MINUTES); rewrite IH.
      * rewrite List.concat_app. simpl. rewrite app_nil_r.
        now rewrite <- app_assoc.
      * now rewrite <- app_assoc.
    + apply lastOf_None in L. subst cur. now rewrite IH.
Qed.

Lemma segmentTrips_start (sorted : list Point) :
  wellSegmented (segmentTrips sorted [] []).
Proof.
  destruct sorted as [|point rest].
  - split; [constructor|intros t1 t2 []].
  - simpl. apply segmentTrips_wellSegmented; [discriminate|].
    split.
    + constructor; [|constructor]. split; [discriminate|]. intros a b [].
    + intros t1 t2 [].
Qed.

(** X13.  The segmentation loop of the ingest route loses, duplicates and
    reorders nothing: the trips, one after the other, are the sorted points
    of the vehicle, and no trip is empty. *)
Theorem segmentTrips_partitions (sorted : list Point) :
  let trips := segmentTrips sorted [] [] in
  List.concat trips = sorted /\
  Forall (fun t => t <> []) trips /\
  (sorted <> [] -> trips <> []).
Proof.
  intros trips.
  assert (Hc : List.concat trips = sorted) by apply segmentTrips_concat.
  split; [exact Hc|]. split.
  - destruct (segmentTrips_start sorted) as [Hall _].
    eapply Forall_impl; [|exact Hall]. now intros t [H _].
  - intros Hne E. rewrite E in Hc. simpl in Hc. congruence.
Qed.

(** X14.  The segmentation loop cuts exactly at the gaps of more than
    [TRIP_GAP_MINUTES] = 20 minutes: inside a trip no two neighbouring points
    are more than 20 minutes apart, and every trip ends more than 20 minutes
    before the next one starts. *)
Theorem segmentTrips_cuts_at_long_gaps (sorted : list Point) :
  let trips := segmentTrips sorted [] [] in
  (forall t a b, In t trips -> In (a, b) (consecutive t) ->
                 (gapMinutes a b <= 20)%Q) /\
  (forall t1 t2, In (t1, t2) (consecutive trips) ->
     exists a b, lastOf t1 = Some a /\ hd_error t2 = Some b /\
                 (20 < gapMinutes a b)%Q).
Proof.
  intros trips. destruct (segmentTrips_start sorted) as [Hall Hsep].
  split.
  - intros t a b Ht Hab.
    apply (proj1 (Forall_forall _ _) Hall) in Ht. destruct Ht as [_ Hl].
    now apply Hl.
  - exact Hsep.
Qed.

(** Sorting an array that is already in order leaves it as it is. *)
Lemma sortBy_sorted_id {A} (key : A -> Z) (l : list A) :
  Sorted (SortFacts.keyLe key) l -> Js.sortBy key l = l.
Proof.
  induction 1 as [|x l Hs IH Hd]; simpl; [reflexivity|].
  rewrite IH. destruct Hd as [|y l Hxy]; simpl; [reflexivity|].
  unfold SortFacts.keyLe in Hxy.
  now replace (key x <=? key y) with true by (symmetry; apply Z.leb_le; lia).
Qed.

Lemma StronglySorted_app_l {A} (R : A -> A -> Prop) (l1 l2 : list A) :
  StronglySorted R (l1 ++ l2) -> StronglySorted R l1.
Proof.
  induction l1 as [|x l1 IH]; simpl; intros H; [constructor|].
  inversion H as [|? ? Hs Hall]; subst. constructor; [now apply IH|].
  apply Forall_app in Hall. tauto.
Qed.

Lemma StronglySorted_app_r {A} (R : A -> A -> Prop) (l1 l2 : list A) :
  StronglySorted R (l1 ++ l2) -> StronglySorted R l2.
Proof.
  induction l1 as [|x l1 IH]; simpl; intros H; [exact H|].
  inversion H; subst. now apply IH.
Qed.

Lemma StronglySorted_concat {A} (R : A -> A -> Prop) (ls : list (list A))
  (l : list A) :
  StronglySorted R (List.concat ls) -> In l ls -> StronglySorted R l.
Proof.
  induction ls as [|l0 ls IH]; simpl; [contradiction|].
  intros Hs [->|Hin].
  - now apply StronglySorted_app_l in Hs.
  - apply IH; [|exact Hin]. now apply StronglySorted_app_r in Hs.
Qed.

(** Every trip cut from the sorted points of a vehicle is in time order, so
    the sort inside [detectDrops] leaves its fixes where they are. *)
Lemma trip_fixes_sorted (points t : list Point) :
  In t (segmentTrips (Js.sortBy ts points) [] []) ->
  Gps.sortByTs (map toFix t) = map toFix t.
Proof.
  intros Hin. unfold Gps.sortByTs. apply sortBy_sorted_id.
  assert (Hs : StronglySorted (SortFacts.keyLe ts) t).
  { apply (StronglySorted_concat _ (segmentTrips (Js.sortBy ts points) [] []));
      [|exact Hin].
    rewrite segmentTrips_concat. simpl.
    apply Sorted_StronglySorted.
    - intros a b c. unfold SortFacts.keyLe. lia.
    - apply SortFacts.sortBy_sorted. }
  apply StronglySorted_Sorted in Hs. clear Hin.
  induction Hs as [|x l Hs IH Hd]; simpl; constructor.
  - exact IH.
  - destruct Hd as [|y l Hxy]; simpl; constructor. exact Hxy.
Qed.

Lemma adjacent_fixes (t : list Point) (p c : Gps.GPSFix) :
  In (p, c) (DropFacts.adjacent (map toFix t)) ->
  exists a b, In (a, b) (consecutive t) /\ p = toFix a /\ c = toFix b.
Proof.
  induction t as [|x [|y r] IH]; [intros []|intros []|].
  change (DropFacts.adjacent (map toFix (x :: y :: r)))
    with ((toFix x, toFix y) :: DropFacts.adjacent (map toFix (y :: r))).
  change (consecutive (x :: y :: r)) with ((x, y) :: consecutive (y :: r)).
  intros [[= <- <-]|Hin].
  - exists x, y. split; [now left|tauto].
  - destruct (IH Hin) as (a & b & Hab & Hp & Hc).
    exists a, b. split; [now right|tauto].
Qed.

(** X15.  The drops the ingest route detects in a trip never last longer
    than 20 minutes (1200 s): a longer silence cuts the trip in two instead
    and is recorded nowhere.  So a drop it stores as [long_gap] lasts between
    10 and 20 minutes. *)
Theorem ingested_drops_last_at_most_20_minutes (points t : list Point)
  (tauShort : Q) (d : Gps.Drop) :
  In t (segmentTrips (Js.sortBy ts points) [] []) ->
  In d (Gps.detectDrops (map toFix t) tauShort) ->
  (tauShort < Gps.durationSec d)%Q /\
  (Gps.durationSec d <= 1200)%Q /\
  (Gps.reason d = Gps.long_gap -> (600 < Gps.durationSec d)%Q).
Proof.
  intros Ht Hd.
  rewrite DropFacts.detectDrops_filter_map, (trip_fixes_sorted points t Ht)
    in Hd.
  apply in_map_iff in Hd. destruct Hd as ([p c] & <- & Hpc).
  apply filter_In in Hpc. destruct Hpc as [Hadj Hfar].
  unfold DropFacts.farApart in Hfar. simpl in Hfar.
  apply JsFacts.gtb_lt in Hfar.
  destruct (adjacent_fixes t p c Hadj) as (a & b & Hab & -> & ->).
  destruct (segmentTrips_start (Js.sortBy ts points)) as [Hall _].
  pose proof (proj1 (Forall_forall _ _) Hall t Ht) as [_ Hl].
  specialize (Hl a b Hab). unfold gapMinutes, TRIP_GAP_MINUTES in Hl.
  unfold Gps.dropOf, Gps.gapSecOf in *. simpl in *.
  unfold Js.getTime in *.
  set (x := inject_Z (ts b - ts a)) in *.
  assert (Hle : (x / 1000 <= 1200)%Q).
  { unfold Qdiv in *. change (/ 60000)%Q with (1 # 60000)%Q in Hl.
    change (/ 1000)%Q with (1 # 1000)%Q. lra. }
  split; [exact Hfar|]. split; [exact Hle|].
  unfold Gps.classify.
  destruct (Js.gtb (x / 1000) 600) eqn:G.
  - intros _. now apply JsFacts.gtb_lt.
  - destruct (Js.leb _ _); discriminate.
Qed.

(** Five points of one vehicle, with a silence of 15 minutes after the second
    and of 25 minutes after the third; the first trip is made of the first
    three, and its one drop is the silence of 15 minutes. *)
Definition at_ms (t : Z) : Point := mkPt "v1" None t 13 100 None None None.

Definition five_points : list Point :=
  [at_ms 2430000; at_ms 0; at_ms 30000; at_ms 2460000; at_ms 930000].

Definition first_trip : list Point := [at_ms 0; at_ms 30000; at_ms 930000].

Definition outage : Gps.Drop :=
  Gps.dropOf (toFix (at_ms 30000)) (toFix (at_ms 930000)) 60.

Lemma ingested_drops_last_at_most_20_minutes_witness :
  (60 < Gps.durationSec outage)%Q /\
  (Gps.durationSec outage <= 1200)%Q /\
  (Gps.reason outage = Gps.long_gap -> (600 < Gps.durationSec outage)%Q).
Proof.
  apply (ingested_drops_last_at_most_20_minutes five_points first_trip 60).
  - vm_compute. left. reflexivity.
  - vm_compute. left. reflexivity.
Defined.

End TripSegmentation.

(** ** Grouping by vehicle in the ingest route *)

Module VehicleGrouping.

Import Ingest.

(** The points of vehicle [v], in arrival order. *)
Definition ofVehicle (points : list Point) (v : string) : list Point :=
  filter (fun p => String.eqb (vehicleId p) v) points.

Definition grown (o : option (list Point)) (l : list Point)
  : option (list Point) :=
  match o, l with
  | None, [] => None
  | _, _ => Some (MapFacts.bucket o ++ l)
  end.

Lemma get_fold_pushTo (v : string) :
  forall points m,
    JsMap.get String.eqb v
      (fold_left
         (fun m point => JsMap.pushTo String.eqb (vehicleId point) point m)
         points m)
    = grown (JsMap.get String.eqb v m) (ofVehicle points v).
Proof.
  induction points as [|p points IH]; intros m; simpl.
  - destruct (JsMap.get String.eqb v m); simpl;
      [now rewrite app_nil_r|reflexivity].
  - rewrite IH, (MapFacts.get_pushTo String.eqb String.eqb_eq).
    destruct (String.eqb_spec (vehicleId p) v) as [->|Hne].
    + destruct (JsMap.get String.eqb v m) as [b|]; simpl.
      * now rewrite <- app_assoc.
      * reflexivity.
    + reflexivity.
Qed.

Lemma NoDup_keys_fold_pushTo :
  forall points m,
    NoDup (MapFacts.keys m) ->
    NoDup (MapFacts.keys
             (fold_left
                (fun m point =>
                   JsMap.pushTo String.eqb (vehicleId point) point m)
                points m)).
Proof.
  induction points as [|p points IH]; intros m Hnd; simpl; [exact Hnd|].
  apply IH. now apply (MapFacts.NoDup_keys_pushTo String.eqb String.eqb_eq).
Qed.

(** X16.  The grouping loop of the ingest route makes one group per vehicle
    that occurs in the batch: the group of a vehicle holds exactly the points
    of that vehicle, in arrival order, and no vehicle has two groups. *)
Theorem groupByVehicle_partitions (points : list Point) :
  NoDup (map fst (groupByVehicle points)) /\
  (forall v ps, In (v, ps) (groupByVehicle points) <->
                ps <> [] /\ ps = ofVehicle points v) /\
  (forall p, In p points ->
             exists ps, In (vehicleId p, ps) (groupByVehicle points) /\
                        In p ps).
Proof.
  assert (Hnd : NoDup (MapFacts.keys (groupByVehicle points)))
    by (apply NoDup_keys_fold_pushTo; constructor).
  assert (G : forall v, JsMap.get String.eqb v (groupByVehicle points)
                        = grown None (ofVehicle points v))
    by (intros v; apply get_fold_pushTo).
  assert (Hiff : forall v ps, In (v, ps) (groupByVehicle points) <->
                              ps <> [] /\ ps = ofVehicle points v).
  { intros v ps. split.
    - intros Hin.
      apply (MapFacts.In_get String.eqb String.eqb_eq) in Hin; [|exact Hnd].
      rewrite G in Hin. destruct (ofVehicle points v); simpl in Hin.
      + discriminate.
      + injection Hin as <-. split; [discriminate|reflexivity].
    - intros [Hne ->]. apply (MapFacts.get_In String.eqb String.eqb_eq).
      rewrite G. destruct (ofVehicle points v); [congruence|reflexivity]. }
  split; [exact Hnd|]. split; [exact Hiff|].
  intros p Hp.
  assert (Hin : In p (ofVehicle points (vehicleId p))).
  { apply filter_In. split; [exact Hp|apply String.eqb_refl]. }
  exists (ofVehicle points (vehicleId p)). split; [|exact Hin].
  apply Hiff. split; [|reflexivity].
  intros E. rewrite E in Hin. contradiction.
Qed.

End VehicleGrouping.

(** ** Drop detection and the quality of the fixes *)

Module SignalQuality.

Import Gps.

(** What [detectDrops] reads of a fix. *)
Definition core (p : GPSFix) : Js.Date * Q * Q := (ts p, lat p, lon p).

(** A fix with the optional fields left out. *)
Definition bare (p : GPSFix) : GPSFix :=
  mkFix (ts p) (lat p) (lon p) None None None.

Lemma insertBy_bare (x : GPSFix) (l : list GPSFix) :
  Js.insertBy (fun p => Js.getTime (ts p)) (bare x) (map bare l)
  = map bare (Js.insertBy (fun p => Js.getTime (ts p)) x l).
Proof.
  induction l as [|y ys IH]; simpl; [reflexivity|].
  destruct (Js.getTime (ts x) <=? Js.getTime (ts y)); simpl;
    [reflexivity|now rewrite IH].
Qed.

Lemma sortByTs_bare (l : list GPSFix) :
  sortByTs (map bare l) = map bare (sortByTs l).
Proof.
  unfold sortByTs. induction l as [|x xs IH]; simpl; [reflexivity|].
  now rewrite IH, insertBy_bare.
Qed.

Lemma scanGaps_bare (tauShort : Q) :
  forall rest prev,
    scanGaps tauShort (bare prev) (map bare rest)
    = scanGaps tauShort prev rest.
Proof.
  induction rest as [|curr rest IH]; intros prev; simpl; [reflexivity|].
  now rewrite IH.
Qed.

Lemma detectDrops_bare (points : list GPSFix) (tauShort : Q) :
  detectDrops (map bare points) tauShort = detectDrops points tauShort.
Proof.
  rewrite !DropFacts.detectDrops_gapEvents, sortByTs_bare.
  unfold gapEvents. destruct (sortByTs points) as [|p rest]; [reflexivity|].
  apply scanGaps_bare.
Qed.

Lemma bare_of_core (l l' : list GPSFix) :
  map core l = map core l' -> map bare l = map bare l'.
Proof.
  revert l'. induction l as [|x xs IH]; intros [|y ys]; simpl;
    try discriminate; [reflexivity|].
  unfold core at 1 3. intros [= Ht Hlat Hlon Hrest].
  unfold bare at 1 3. rewrite Ht, Hlat, Hlon. f_equal. now apply IH.
Qed.

(** X17.  [detectDrops] looks at the time and the position of the fixes
    only: two trips that agree on those yield the same events, whatever the
    accuracy, speed and heading of their fixes.  In particular
    [isStrongFix] plays no part: a fix it calls weak is treated like any
    other. *)
Theorem detectDrops_ignores_signal_quality (points points' : list GPSFix)
  (tauShort : Q) :
  map core points = map core points' ->
  detectDrops points tauShort = detectDrops points' tauShort.
Proof.
  intros H. rewrite <- (detectDrops_bare points), <- (detectDrops_bare points').
  now rewrite (bare_of_core _ _ H).
Qed.

(** Three fixes 30 s apart with an accuracy of 500 m, which [isStrongFix]
    calls weak, and the same fixes without an accuracy. *)
Definition weak_fixes : list GPSFix :=
  map (fun t => mkFix t 13 100 None (Some (500 # 1)) None) [0; 30000; 60000].

Definition plain_fixes : list GPSFix :=
  map (fun t => mkFix t 13 100 None None None) [0; 30000; 60000].

Lemma detectDrops_ignores_signal_quality_witness :
  forallb isStrongFix weak_fixes = false /\
  forallb isStrongFix plain_fixes = true /\
  detectDrops weak_fixes 60 = detectDrops plain_fixes 60.
Proof.
  split; [reflexivity|]. split; [reflexivity|].
  apply (detectDrops_ignores_signal_quality weak_fixes plain_fixes 60).
  reflexivity.
Defined.

End SignalQuality.

(** ** Invariants of the ingest route *)

Module IngestInvariants.

Import Db.
Import Ingest.
Local Open Scope db_scope.

Section Steps.

(** A relation between the store before and after a run, kept by every
    write of the route. *)
Variable R : State -> State -> Prop.
Hypothesis R_refl : forall s, R s s.
Hypothesis R_trans : forall a b c, R a b -> R b c -> R a c.

Definition steps {A} (m : M A) : Prop := forall s, R s (snd (m s)).

Lemma steps_ret {A} (a : A) : steps (ret a).
Proof. intros s. apply R_refl. Qed.

Lemma steps_gets {A} (f : State -> A) : steps (gets f).
Proof. intros s. apply R_refl. Qed.

Lemma steps_bind {A B} (c : M A) (k : A -> M B) :
  steps c -> (forall a, steps (k a)) -> steps (bind c k).
Proof.
  intros Hc Hk s. unfold bind. specialize (Hc s).
  destruct (c s) as [a s']. simpl in Hc.
  eapply R_trans; [exact Hc|apply Hk].
Qed.

Lemma steps_andThen {A B} (c : M (Outcome A)) (k : A -> M (Outcome B)) :
  steps c -> (forall a, steps (k a)) -> steps (andThen c k).
Proof.
  intros Hc Hk. unfold andThen. apply steps_bind; [exact Hc|].
  intros [a|]; [apply Hk|apply steps_ret].
Qed.

(** A find-or-create pair followed by the rest of the loop body. *)
Lemma steps_bind_pair {A B C} (c : M A) (k : A -> M B) (h : B -> M C) :
  steps (bind c k) -> (forall b, steps (h b)) ->
  steps (bind c (fun a => bind (k a) h)).
Proof.
  intros Hck Hh s. specialize (Hck s). unfold bind in *.
  destruct (c s) as [a s1]. destruct (k a s1) as [b s2]. simpl in Hck.
  eapply R_trans; [exact Hck|apply Hh].
Qed.

Lemma steps_forEach {A} (l : list A) (body : A -> M unit) :
  (forall x, steps (body x)) -> steps (forEach l body).
Proof.
  intros Hb. induction l as [|x rest IH]; simpl.
  - apply steps_ret.
  - apply steps_bind; [apply Hb|intros _; exact IH].
Qed.

Lemma steps_forEach_In {A} (l : list A) (body : A -> M unit) :
  (forall x, In x l -> steps (body x)) -> steps (forEach l body).
Proof.
  induction l as [|x rest IH]; simpl; intros Hb.
  - apply steps_ret.
  - apply steps_bind; [apply Hb; now left|]. intros _.
    apply IH. intros y Hy. apply Hb. now right.
Qed.

Lemma updateCorridorBaselines_steps (cid : string) :
  (forall b, steps (corridorStats_upsert b)) ->
  steps (updateCorridorBaselines cid).
Proof.
  intros upsert_step. unfold updateCorridorBaselines. apply steps_bind.
  - apply steps_gets.
  - intros rows. destruct (Z.of_nat (List.length rows) =? 0).
    + apply steps_ret.
    + apply steps_forEach. intros b. apply upsert_step.
Qed.

(** The body of the loop over the traversals of a trip.  Storing a
    traversal and refreshing the baselines of its corridor count as one
    write. *)
Lemma processTraversal_steps (config : Config)
  (Good : Gps.Traversal -> Prop) :
  (forall key,
     steps (found <- corridor_findUnique key ;;
            match found with
            | Some c => ret c
            | None => corridor_create key
            end)) ->
  (forall row,
     Good (tr_data row) ->
     steps (traversal_create row ;;;
            updateCorridorBaselines (tr_corridorId row))) ->
  (forall thr input, steps (AlertService.checkAndCreateAlerts thr input)) ->
  forall (trip : Trip) (vehicle : Vehicle) (traversal : Gps.Traversal),
    Good traversal ->
    steps (processTraversal config trip vehicle traversal).
Proof.
  intros corridor_step learn_step check_step trip vehicle traversal Hgood.
  unfold processTraversal.
  apply steps_bind_pair; [apply corridor_step|]. intros corridor.
  apply steps_bind_pair.
  - apply (learn_step (mkTraversalRow (c_id corridor) (trip_id trip)
                                      traversal)).
    exact Hgood.
  - intros _. apply steps_bind; [apply check_step|]. intros _.
    apply steps_ret.
Qed.

Variable parseDatetime : string -> option Js.Date.
Variable geo : Gps.Geo.
Variable config : Config.

(** What is known of the traversals the route stores: they come from
    [extractCorridors] run on the events of [detectDrops]. *)
Variable Good : Gps.Traversal -> Prop.
Hypothesis Good_learnt : forall points t,
  In t (Gps.extractCorridors geo
          (Gps.detectDrops points (inject_Z (TAU_SHORT config)))
          (H3_RESOLUTION config)) ->
  Good t.

(** The writes of the route. *)
Hypothesis vehicle_step : forall name,
  steps (found <- vehicle_findUnique name ;;
         match found with
         | Some v => ret v
         | None => vehicle_create name
         end).
Hypothesis trip_create_step : forall v a b src, steps (trip_create v a b src).
Hypothesis trip_update_step : forall id e, steps (trip_update id e).
Hypothesis points_step : forall rows, steps (gPSPoint_createMany rows).
Hypothesis drops_step : forall rows, steps (drop_createMany rows).
Hypothesis traversal_unit : forall trip vehicle traversal,
  Good traversal -> steps (processTraversal config trip vehicle traversal).

Lemma processTrip_steps (vehicle : Vehicle) (tripPoints : list Point) :
  steps (processTrip geo config vehicle tripPoints).
Proof.
  unfold processTrip. destruct tripPoints as [|first [|second rest]];
    try apply steps_ret.
  apply steps_bind.
  { destruct (tripId first) as [id|]; [|apply steps_ret].
    destruct (String.eqb id ""); [apply steps_ret|apply steps_gets]. }
  intros found. apply steps_bind.
  { destruct found as [t|]; [|apply trip_create_step].
    apply steps_bind; [apply trip_update_step|]. intros _. apply steps_ret. }
  intros trip. apply steps_bind; [apply points_step|]. intros _.
  apply steps_bind.
  { match goal with |- steps (if ?c then _ else _) => destruct c end;
      [apply drops_step|apply steps_ret]. }
  intros _.
  match goal with |- steps (if ?c then _ else _) => destruct c end;
    [apply steps_ret|].
  apply steps_bind.
  { apply steps_forEach_In. intros t Ht. apply traversal_unit.
    exact (Good_learnt _ _ Ht). }
  intros _. apply steps_ret.
Qed.

Lemma processTrips_steps (vehicle : Vehicle) (trips : list (list Point)) :
  steps (processTrips geo config vehicle trips).
Proof.
  induction trips as [|t rest IH]; simpl; [apply steps_ret|].
  apply steps_andThen; [apply processTrip_steps|]. intros r.
  apply steps_andThen; [exact IH|]. intros rs. apply steps_ret.
Qed.

Lemma processVehicle_steps (entry : string * list Point) :
  steps (processVehicle geo config entry).
Proof.
  unfold processVehicle. destruct entry as [vehicleId vehiclePoints].
  apply steps_bind_pair; [apply vehicle_step|].
  intros vehicle. apply processTrips_steps.
Qed.

Lemma processVehicles_steps (entries : list (string * list Point)) :
  steps (processVehicles geo config entries).
Proof.
  induction entries as [|e rest IH]; simpl; [apply steps_ret|].
  apply steps_andThen; [apply processVehicle_steps|]. intros rs.
  apply steps_andThen; [exact IH|]. intros rs'. apply steps_ret.
Qed.

Lemma ingestPoints_steps (points : list RawPoint) :
  steps (ingestPoints parseDatetime geo config points).
Proof.
  unfold ingestPoints.
  destruct (validateBatch parseDatetime points)
    as [validatedPoints|]; [|apply steps_ret].
  destruct (Z.of_nat (List.length validatedPoints) =? 0); [apply steps_ret|].
  apply steps_bind; [apply processVehicles_steps|].
  intros [rows|]; apply steps_ret.
Qed.

Lemma POST_route_steps (body : Body) :
  steps (POST parseDatetime geo config body).
Proof.
  destruct body; simpl; try apply ingestPoints_steps. apply steps_ret.
Qed.

End Steps.

(** The same, from the writes inside the loop over the traversals. *)
Lemma POST_steps (R : State -> State -> Prop) :
  (forall s, R s s) -> (forall a b c, R a b -> R b c -> R a c) ->
  forall (parseDatetime : string -> option Js.Date) (geo : Gps.Geo)
         (config : Config) (Good : Gps.Traversal -> Prop),
    (forall points t,
       In t (Gps.extractCorridors geo
               (Gps.detectDrops points (inject_Z (TAU_SHORT config)))
               (H3_RESOLUTION config)) ->
       Good t) ->
    (forall name,
       steps R (found <- vehicle_findUnique name ;;
                match found with
                | Some v => ret v
                | None => vehicle_create name
                end)) ->
    (forall key,
       steps R (found <- corridor_findUnique key ;;
                match found with
                | Some c => ret c
                | None => corridor_create key
                end)) ->
    (forall v a b src, steps R (trip_create v a b src)) ->
    (forall id e, steps R (trip_update id e)) ->
    (forall rows, steps R (gPSPoint_createMany rows)) ->
    (forall rows, steps R (drop_createMany rows)) ->
    (forall row,
       Good (tr_data row) ->
       steps R (traversal_create row ;;;
                updateCorridorBaselines (tr_corridorId row))) ->
    (forall thr input,
       steps R (AlertService.checkAndCreateAlerts thr input)) ->
    forall body, steps R (POST parseDatetime geo config body).
Proof.
  intros Hrefl Htrans parseDatetime geo config Good Hgood Hvehicle Hcorridor
    Hcreate Hupdate Hpoints Hdrops Hlearn Hcheck.
  apply (POST_route_steps R Hrefl Htrans parseDatetime geo config Good);
    try assumption.
  apply (processTraversal_steps R Hrefl Htrans config Good); assumption.
Qed.

(** A relation kept by each of the two writes is kept by the pair. *)
Lemma learn_of_writes (R : State -> State -> Prop) :
  (forall s, R s s) -> (forall a b c, R a b -> R b c -> R a c) ->
  (forall row, steps R (traversal_create row)) ->
  (forall b, steps R (corridorStats_upsert b)) ->
  forall row, steps R (traversal_create row ;;;
                       updateCorridorBaselines (tr_corridorId row)).
Proof.
  intros Hrefl Htrans Hcreate Hupsert row.
  apply steps_bind; [exact Htrans|apply Hcreate|]. intros _.
  apply updateCorridorBaselines_steps; assumption.
Qed.

(** *** The alert log *)

(** The alert table and the stream only grow, by the same rows, and the rule
    of one unresolved alert per (type, trip, corridor) is kept. *)
Definition alertLog (s s' : State) : Prop :=
  (exists new,
     alerts s' = alerts s ++ new /\ emitted s' = emitted s ++ new) /\
  (AlertEngine.atMostOneUnresolved s -> AlertEngine.atMostOneUnresolved s').

Lemma alertLog_refl (s : State) : alertLog s s.
Proof.
  split; [|tauto]. exists []. now rewrite !app_nil_r.
Qed.

Lemma alertLog_trans (a b c : State) :
  alertLog a b -> alertLog b c -> alertLog a c.
Proof.
  intros [(n1 & A1 & E1) H1] [(n2 & A2 & E2) H2]. split; [|tauto].
  exists (n1 ++ n2). rewrite A2, E2, A1, E1. now rewrite <- !app_assoc.
Qed.

Lemma alertLog_quiet (s s' : State) :
  alerts s' = alerts s -> emitted s' = emitted s -> alertLog s s'.
Proof.
  intros A E. split.
  - exists []. now rewrite !app_nil_r.
  - unfold AlertEngine.atMostOneUnresolved, AlertEngine.unresolvedFor.
    now rewrite A.
Qed.

Lemma checkAndCreateAlerts_alertLog (thr : Z)
  (input : AlertService.AlertInput) :
  steps alertLog (AlertService.checkAndCreateAlerts thr input).
Proof.
  intros s. split.
  - rewrite AlertEngine.checkAndCreateAlerts_run. simpl.
    exists (AlertEngine.created thr input s). tauto.
  - intros H type trip cid.
    rewrite AlertEngine.unresolvedFor_after, length_app.
    specialize (H type trip cid).
    destruct (AlertEngine.created_in_class type trip cid thr input s)
      as [->|(a & -> & _ & Hnone)]; simpl.
    + lia.
    + rewrite Hnone. simpl. lia.
Qed.

Lemma POST_alertLog (parseDatetime : string -> option Js.Date)
  (geo : Gps.Geo) (config : Config) (body : Body) :
  steps alertLog (POST parseDatetime geo config body).
Proof.
  apply (POST_steps alertLog alertLog_refl alertLog_trans
                    parseDatetime geo config (fun _ => True)).
  - trivial.
  - intros name s. unfold bind, vehicle_findUnique, gets.
    destruct (find _ (vehicles s)); apply alertLog_quiet; reflexivity.
  - intros key s. unfold bind, corridor_findUnique, gets.
    destruct (find _ (corridors s)); apply alertLog_quiet; reflexivity.
  - intros v a b src s. apply alertLog_quiet; reflexivity.
  - intros id e s. apply alertLog_quiet; reflexivity.
  - intros rows s. apply alertLog_quiet; reflexivity.
  - intros rows s. apply alertLog_quiet; reflexivity.
  - intros row _.
    apply (learn_of_writes alertLog alertLog_refl alertLog_trans).
    + intros row' s. apply alertLog_quiet; reflexivity.
    + intros b s. unfold corridorStats_upsert, modify. simpl.
      destruct (existsb _ (corridorStats s)); apply alertLog_quiet;
        reflexivity.
  - apply checkAndCreateAlerts_alertLog.
Qed.

(** X18.  One ingest request only ever appends to the alert table, and what
    it appends is exactly what it sends to the alert stream, in the same
    order; no stored alert is changed or removed.  If the table held at most
    one unresolved alert per (type, trip, corridor) before the request, it
    still does afterwards. *)
Theorem ingest_appends_and_emits_alerts
  (parseDatetime : string -> option Js.Date) (geo : Gps.Geo)
  (config : Config) (body : Body) (s : State) :
  let s' := snd (POST parseDatetime geo config body s) in
  (exists new,
     alerts s' = alerts s ++ new /\ emitted s' = emitted s ++ new) /\
  (AlertEngine.atMostOneUnresolved s -> AlertEngine.atMostOneUnresolved s').
Proof. exact (POST_alertLog parseDatetime geo config body s). Qed.

(** *** The unique keys *)

Definition uniqueVehicles (s : State) : Prop :=
  NoDup (map v_name (vehicles s)).

Definition uniqueCorridors (s : State) : Prop :=
  NoDup (map c_key (corridors s)).

Definition keysKept (s s' : State) : Prop :=
  (uniqueVehicles s -> uniqueVehicles s') /\
  (uniqueCorridors s -> uniqueCorridors s') /\
  (BaselineUpkeep.uniqueStats s -> BaselineUpkeep.uniqueStats s').

Lemma keysKept_refl (s : State) : keysKept s s.
Proof. unfold keysKept. tauto. Qed.

Lemma keysKept_trans (a b c : State) :
  keysKept a b -> keysKept b c -> keysKept a c.
Proof. unfold keysKept. tauto. Qed.

Lemma keysKept_quiet (s s' : State) :
  vehicles s' = vehicles s -> corridors s' = corridors s ->
  corridorStats s' = corridorStats s -> keysKept s s'.
Proof.
  intros V C B.
  unfold keysKept, uniqueVehicles, uniqueCorridors, BaselineUpkeep.uniqueStats.
  rewrite V, C, B. tauto.
Qed.

Lemma key_eqb_eq (a b : Gps.CorridorKey) : key_eqb a b = true <-> a = b.
Proof.
  unfold key_eqb. rewrite !andb_true_iff, !String.eqb_eq, Z.eqb_eq.
  destruct a, b; simpl. split.
  - intros [[-> ->] ->]. reflexivity.
  - intros [= -> -> ->]. tauto.
Qed.

Lemma NoDup_snoc {A K} (f : A -> K) (l : list A) (x : A) :
  NoDup (map f l) -> ~ In (f x) (map f l) -> NoDup (map f (l ++ [x])).
Proof.
  intros Hnd Hx. rewrite map_app. apply NoDup_app; [exact Hnd| |].
  - repeat constructor. simpl. tauto.
  - intros k Hk [<-|[]]. contradiction.
Qed.

Lemma POST_keysKept (parseDatetime : string -> option Js.Date)
  (geo : Gps.Geo) (config : Config) (body : Body) :
  steps keysKept (POST parseDatetime geo config body).
Proof.
  apply (POST_steps keysKept keysKept_refl keysKept_trans
                    parseDatetime geo config (fun _ => True)); [trivial|..].
  - intros name s. unfold bind, vehicle_findUnique, gets.
    destruct (find _ (vehicles s)) as [v|] eqn:F; [apply keysKept_refl|].
    simpl. split; [|split; intros H; exact H].
    intros Hnd. unfold uniqueVehicles. simpl.
    apply NoDup_snoc; [exact Hnd|]. simpl. intros Hin.
    apply in_map_iff in Hin. destruct Hin as (v & Hname & Hv).
    pose proof (find_none _ _ F v Hv) as Hf. simpl in Hf.
    rewrite Hname, String.eqb_refl in Hf. discriminate.
  - intros key s. unfold bind, corridor_findUnique, gets.
    destruct (find _ (corridors s)) as [c|] eqn:F; [apply keysKept_refl|].
    simpl. split; [intros H; exact H|]. split; [|intros H; exact H].
    intros Hnd. unfold uniqueCorridors. simpl.
    apply NoDup_snoc; [exact Hnd|]. simpl. intros Hin.
    apply in_map_iff in Hin. destruct Hin as (c & Hkey & Hc).
    pose proof (find_none _ _ F c Hc) as Hf. simpl in Hf.
    rewrite (proj2 (key_eqb_eq _ _) Hkey) in Hf. discriminate.
  - intros v a b src s. apply keysKept_quiet; reflexivity.
  - intros id e s. apply keysKept_quiet; reflexivity.
  - intros rows s. apply keysKept_quiet; reflexivity.
  - intros rows s. apply keysKept_quiet; reflexivity.
  - intros row _.
    apply (learn_of_writes keysKept keysKept_refl keysKept_trans).
    + intros row' s. apply keysKept_quiet; reflexivity.
    + intros b s. rewrite BaselineUpkeep.upsert_run. simpl.
      split; [intros H; exact H|]. split; [intros H; exact H|].
      apply BaselineUpkeep.upserted_NoDup.
  - intros thr input s. rewrite AlertEngine.checkAndCreateAlerts_run.
    apply keysKept_quiet; reflexivity.
Qed.

(** X19.  One ingest request never stores a second vehicle under a name, a
    second corridor under a key (aH3, bH3, direction), or a second baseline
    row under a (corridorId, bucketHour): where the names and keys were
    distinct before the request, they are distinct afterwards. *)
Theorem ingest_keeps_keys_unique
  (parseDatetime : string -> option Js.Date) (geo : Gps.Geo)
  (config : Config) (body : Body) (s : State) :
  let s' := snd (POST parseDatetime geo config body s) in
  (uniqueVehicles s -> uniqueVehicles s') /\
  (uniqueCorridors s -> uniqueCorridors s') /\
  (BaselineUpkeep.uniqueStats s -> BaselineUpkeep.uniqueStats s').
Proof. exact (POST_keysKept parseDatetime geo config body s). Qed.

(** *** Stores built by ingestion alone *)

(** The store after a sequence of requests. *)
Definition ingestAll (parseDatetime : string -> option Js.Date)
  (geo : Gps.Geo) (config : Config) (bodies : list Body) (s : State)
  : State :=
  fold_left (fun s body => snd (POST parseDatetime geo config body s))
            bodies s.

Definition consistent (s : State) : Prop :=
  AlertEngine.atMostOneUnresolved s /\
  uniqueVehicles s /\ uniqueCorridors s /\ BaselineUpkeep.uniqueStats s /\
  emitted s = alerts s.

(** X20.  Every store built from the empty one by ingest requests alone is
    consistent: at most one unresolved alert per (type, trip, corridor),
    distinct vehicle names, corridor keys and baseline keys, and an alert
    stream that carries exactly the stored alerts, in order. *)
Theorem ingested_stores_are_consistent
  (parseDatetime : string -> option Js.Date) (geo : Gps.Geo)
  (config : Config) (bodies : list Body) :
  consistent (ingestAll parseDatetime geo config bodies Db.empty).
Proof.
  assert (H : forall s, consistent s ->
                        consistent (ingestAll parseDatetime geo config bodies s)).
  { unfold ingestAll. induction bodies as [|body rest IH]; intros s Hs;
      simpl; [exact Hs|].
    apply IH. destruct Hs as (Ha & Hv & Hc & Hb & He).
    destruct (POST_alertLog parseDatetime geo config body s)
      as [(new & A & E) Ha'].
    destruct (POST_keysKept parseDatetime geo config body s)
      as (Hv' & Hc' & Hb').
    repeat split; try tauto. now rewrite A, E, He. }
  apply H. unfold consistent, AlertEngine.atMostOneUnresolved,
    uniqueVehicles, uniqueCorridors, BaselineUpkeep.uniqueStats. simpl.
  repeat split; try constructor. intros. simpl. lia.
Qed.

(** *** A request with one point *)

(** X22.  A request that carries one valid point, alone or in an array of
    one, is answered 200 with an empty result list, and the point is stored
    nowhere: the trip it would form has fewer than two points and is
    skipped.  The only thing the request can leave behind is the vehicle,
    which is registered if its name was unknown. *)
Theorem lone_point_is_not_stored
  (parseDatetime : string -> option Js.Date) (geo : Gps.Geo)
  (config : Config) (body : Body) (p : RawPoint) (v : Point) (s : State) :
  body = Single p \/ body = Batch [p] ->
  validatePoint parseDatetime p = Some v ->
  let r := POST parseDatetime geo config body s in
  fst r = Ok200 [] /\
  (trips (snd r), gpsPoints (snd r), drops (snd r), corridors (snd r),
   traversals (snd r), corridorStats (snd r), alerts (snd r), emitted (snd r))
  = (trips s, gpsPoints s, drops s, corridors s, traversals s,
     corridorStats s, alerts s, emitted s) /\
  vehicles (snd r)
  = match find (fun x => String.eqb (v_name x) (vehicleId v)) (vehicles s) with
    | Some _ => vehicles s
    | None => vehicles s ++ [mkVehicle (idOf (nextId s)) (vehicleId v)]
    end.
Proof.
  intros Hbody Hv r.
  assert (E : r = POST parseDatetime geo config (Batch [p]) s)
    by (destruct Hbody as [->| ->]; reflexivity).
  rewrite E. unfold POST, ingestPoints. cbn [validateBatch]. rewrite Hv.
  cbn [List.length Z.of_nat Z.eqb Pos.of_succ_nat].
  unfold groupByVehicle. cbn [fold_left].
  unfold JsMap.pushTo, JsMap.push.
  cbn [JsMap.has JsMap.set JsMap.get negb]. rewrite String.eqb_refl.
  cbn [JsMap.set app processVehicles].
  unfold andThen, bind, processVehicle, bind, vehicle_findUnique, gets.
  destruct (find _ (vehicles s)) as [x|]; simpl; repeat split.
Qed.

Lemma lone_point_is_not_stored_witness :
  let r := POST IngestionBoundary.parseTwo CorridorResolver.planarGeo
             defaultConfig
             (Single (IngestionBoundary.raw "2024-01-01T10:00:00Z" 13 100))
             Db.empty in
  fst r = Ok200 [] /\ gpsPoints (snd r) = [] /\
  map v_name (vehicles (snd r)) = ["truck-1"%string].
Proof.
  destruct (lone_point_is_not_stored IngestionBoundary.parseTwo
              CorridorResolver.planarGeo defaultConfig
              (Single (IngestionBoundary.raw "2024-01-01T10:00:00Z" 13 100))
              (IngestionBoundary.raw "2024-01-01T10:00:00Z" 13 100)
              (mkPt "truck-1" None 1704103200000 13 100 None None None)
              Db.empty (or_introl eq_refl) eq_refl)
    as (H1 & H2 & H3).
  split; [exact H1|]. split.
  - exact (f_equal
             (fun t => snd (fst (fst (fst (fst (fst (fst t))))))) H2).
  - rewrite H3. reflexivity.
Defined.

End IngestInvariants.

(** ** The batch alert check *)

Module AlertBatchFacts.

Import Db.
Import AlertBatch.

(** The row comes with its trip. *)
Definition joined (row : TraversalRow * option Trip) : bool :=
  match snd row with Some _ => true | None => false end.

(** The check of the row finds a baseline to compare the traversal with. *)
Definition hasBaseline (s : State) (row : TraversalRow * option Trip) : bool :=
  match snd row with
  | Some trip =>
      match AlertEngine.applicable s (inputOf (fst row) trip) with
      | Some _ => true
      | None => false
      end
  | None => false
  end.

Definition count {A} (f : A -> bool) (l : list A) : Z :=
  Z.of_nat (List.length (filter f l)).

Lemma count_cons {A} (f : A -> bool) (x : A) (l : list A) :
  count f (x :: l) = (if f x then 1 else 0) + count f l.
Proof.
  unfold count. simpl. destruct (f x); simpl List.length; lia.
Qed.

Lemma count_nonneg {A} (f : A -> bool) (l : list A) : 0 <= count f l.
Proof. unfold count. lia. Qed.

Lemma hasBaseline_stats (s s' : State) (rows : list (TraversalRow * option Trip)) :
  corridorStats s' = corridorStats s ->
  count (hasBaseline s') rows = count (hasBaseline s) rows.
Proof.
  intros E. unfold count. f_equal. f_equal. apply filter_ext.
  intros [r [t|]]; [|reflexivity].
  unfold hasBaseline, AlertEngine.applicable. simpl. now rewrite E.
Qed.

Lemma created_none (thr : Z) (input : AlertService.AlertInput) (s : State) :
  AlertEngine.applicable s input = None ->
  AlertEngine.created thr input s = [].
Proof.
  intros H. unfold AlertEngine.created, AlertEngine.overspeedNew,
    AlertEngine.delayNew. now rewrite H.
Qed.

Lemma created_at_most_two (thr : Z) (input : AlertService.AlertInput)
  (s : State) :
  (List.length (AlertEngine.created thr input s) <= 2)%nat.
Proof.
  unfold AlertEngine.created. rewrite length_app.
  destruct (AlertEngine.delayNew_cases thr input s)
    as [[-> _]|(b & _ & _ & _ & ->)];
    destruct (AlertEngine.overspeedNew_cases thr input s)
      as [[-> _]|(b' & _ & _ & _ & ->)]; simpl; lia.
Qed.

Lemma triple_eq (x x' y y' z z' : Z) :
  x = x' -> y = y' -> z = z' -> (x, y, z) = (x', y', z').
Proof. congruence. Qed.

(** The loop, run: what the three counters hold at the end and what has
    happened to the store. *)
Lemma checkAll_run (thr : Z) :
  forall rows c a e s,
    let r := checkAll thr rows (c, a, e) s in
    fst r = (c + count joined rows,
             a + count (hasBaseline s) rows,
             e + count (fun row => negb (joined row)) rows) /\
    corridorStats (snd r) = corridorStats s /\
    exists new,
      alerts (snd r) = alerts s ++ new /\
      Z.of_nat (List.length new) <= 2 * count (hasBaseline s) rows.
Proof.
  induction rows as [|[traversal [trip|]] rest IH]; intros c a e s.
  - simpl. unfold count. simpl. rewrite !Z.add_0_r.
    split; [reflexivity|]. split; [reflexivity|].
    exists []. rewrite app_nil_r. split; [reflexivity|simpl; lia].
  - cbn [checkAll]. unfold bind.
    rewrite AlertEngine.checkAndCreateAlerts_run.
    set (input := inputOf traversal trip).
    set (s1 := AlertEngine.withAlerts (AlertEngine.created thr input s) s).
    rewrite !count_cons.
    assert (Hstats : corridorStats s1 = corridorStats s) by reflexivity.
    change (joined (traversal, Some trip)) with true.
    change (negb true) with false.
    change (hasBaseline s (traversal, Some trip))
      with (match AlertEngine.applicable s input with
            | Some _ => true
            | None => false
            end).
    destruct (AlertEngine.applicable s input) as [b|] eqn:Happ.
    + destruct (IH (c + 1) (a + 1) e s1) as (Hfst & Hcs & new & Hal & Hlen).
      rewrite (hasBaseline_stats s s1 rest Hstats) in Hfst, Hlen.
      split; [rewrite Hfst; apply triple_eq; lia|].
      split; [congruence|].
      exists (AlertEngine.created thr input s ++ new). split.
      * rewrite Hal. unfold s1, AlertEngine.withAlerts. simpl.
        now rewrite app_assoc.
      * rewrite length_app.
        pose proof (created_at_most_two thr input s). lia.
    + destruct (IH (c + 1) a e s1) as (Hfst & Hcs & new & Hal & Hlen).
      rewrite (hasBaseline_stats s s1 rest Hstats) in Hfst, Hlen.
      split; [rewrite Hfst; apply triple_eq; lia|].
      split; [congruence|].
      exists new. split; [|lia].
      rewrite Hal. unfold s1. rewrite (created_none thr input s Happ).
      now rewrite AlertEngine.withAlerts_nil.
  - cbn [checkAll]. rewrite !count_cons.
    change (joined (traversal, None)) with false.
    change (hasBaseline s (traversal, None)) with false.
    change (negb false) with true.
    destruct (IH c a (e + 1) s) as (Hfst & Hcs & new & Hal & Hlen).
    split; [rewrite Hfst; apply triple_eq; lia|].
    split; [exact Hcs|]. exists new. split; [exact Hal|lia].
Qed.

(** X21.  The batch alert check answers with [total] = the number of
    traversals of the last 24 hours and [checked + errors = total].  Its
    [alertsCreated] is the number of checked traversals whose corridor has an
    applicable baseline, whether or not the check created an alert for them:
    the alerts actually added to the table are appended after the old ones
    and number anything from none to twice [alertsCreated]. *)
Theorem batch_counts_checks_with_a_baseline (now : Js.Date) (thr : Z)
  (s : State) :
  let rows := fst (recentTraversals now s) in
  let summary := fst (POST now thr s) in
  let s' := snd (POST now thr s) in
  total summary = Z.of_nat (List.length rows) /\
  checked summary + errors summary = total summary /\
  alertsCreated summary = count (hasBaseline s) rows /\
  exists new,
    alerts s' = alerts s ++ new /\
    Z.of_nat (List.length new) <= 2 * alertsCreated summary.
Proof.
  intros rows summary s'. unfold summary, s', POST, bind.
  change (recentTraversals now s) with (rows, s). cbv iota.
  destruct (checkAll_run thr rows 0 0 0 s) as (Hfst & _ & new & Hal & Hlen).
  destruct (checkAll thr rows (0, 0, 0) s) as [[[c a] e] s1].
  simpl in Hfst, Hal. injection Hfst as -> -> ->. simpl.
  split; [reflexivity|]. split.
  - unfold count. rewrite <- Nat2Z.inj_add. f_equal.
    clear. induction rows as [|x l IH]; simpl; [reflexivity|].
    destruct (joined x); simpl; lia.
  - split; [reflexivity|]. exists new. split; [exact Hal|exact Hlen].
Qed.

(** On the store left by one ingested trip, checked five minutes later: the
    one traversal has a baseline (its own), so the answer says
    [alertsCreated = 1], and no alert is created. *)
Example batch_reports_one_and_creates_none :
  let r := POST 1704103500000 15 BaselineUpkeep.ingested in
  alertsCreated (fst r) = 1 /\ total (fst r) = 1 /\
  alerts (snd r) = [] /\ emitted (snd r) = [].
Proof. vm_compute. repeat split. Qed.

End AlertBatchFacts.

(** ** The severity of the alerts that are created *)

Module AlertSeverity.

Import Db.
Import AlertService.








End AlertSeverity.

(** ** The batch baseline computation *)

Module BaselineBatchFacts.

Import Db.

(** The traversals stored for a corridor, as the batch route hands them to
    [computeBaselines]. *)
Definition history (cid : string) (s : State) : list Baseline.TraversalData :=
  map BaselineBatch.toData
      (filter (fun r => String.eqb (tr_corridorId r) cid) (traversals s)).

Definition recomputed (cid : string) (s : State)
  : list Baseline.CorridorBaseline :=
  Baseline.computeBaselines cid (history cid s) Baseline.defaultMinSamples.

(** The baseline table after the loop body has run for one corridor. *)
Definition refreshed (s : State) (rows : list Baseline.CorridorBaseline)
  (c : Corridor) : list Baseline.CorridorBaseline :=
  fold_left (fun rows b => BaselineUpkeep.upserted b rows)
            (recomputed (c_id c) s) rows.

Definition hasTraversal (s : State) (c : Corridor) : bool :=
  existsb (fun r => String.eqb (tr_corridorId r) (c_id c)) (traversals s).

Lemma filter_nil_existsb {A} (f : A -> bool) (l : list A) :
  filter f l = [] -> existsb f l = false.
Proof.
  induction l as [|x xs IH]; simpl; [reflexivity|].
  destruct (f x); [discriminate|exact IH].
Qed.

Lemma filter_cons_existsb {A} (f : A -> bool) (l : list A) (x : A)
  (xs : list A) :
  filter f l = x :: xs -> existsb f l = true.
Proof.
  intros H. apply existsb_exists. exists x.
  assert (Hin : In x (filter f l)) by (rewrite H; now left).
  apply filter_In in Hin. exact Hin.
Qed.

(** The loop, run from a store that differs from [s] in the baseline table
    only. *)
Lemma recomputeAll_run (s : State) :
  forall cs n rows,
    BaselineBatch.recomputeAll cs n (set_corridorStats rows s)
    = (n + AlertBatchFacts.count (hasTraversal s) cs,
       set_corridorStats (fold_left (refreshed s) cs rows) s).
Proof.
  induction cs as [|c cs IH]; intros n rows.
  - simpl. unfold AlertBatchFacts.count. simpl. now rewrite Z.add_0_r.
  - cbn [BaselineBatch.recomputeAll fold_left].
    rewrite AlertBatchFacts.count_cons.
    unfold bind at 1. unfold traversal_findMany, gets.
    change (traversals (set_corridorStats rows s)) with (traversals s).
    unfold refreshed at 2, recomputed, history, hasTraversal at 1.
    destruct (filter (fun r => String.eqb (tr_corridorId r) (c_id c))
                     (traversals s)) as [|r rs] eqn:F.
    + rewrite (filter_nil_existsb _ _ F). simpl. rewrite IH. f_equal; lia.
    + rewrite (filter_cons_existsb _ _ _ _ F).
      replace (Z.of_nat (List.length (r :: rs)) =? 0) with false
        by (symmetry; apply Z.eqb_neq; simpl List.length; lia).
      unfold bind. rewrite BaselineUpkeep.forEach_upsert_run.
      change (corridorStats (set_corridorStats rows s)) with rows.
      set (rows' := fold_left _ _ rows).
      change (set_corridorStats rows' (set_corridorStats rows s))
        with (set_corridorStats rows' s).
      rewrite IH. f_equal; lia.
Qed.

Lemma set_corridorStats_same (s : State) :
  set_corridorStats (corridorStats s) s = s.
Proof. now destruct s. Qed.

Lemma POST_run (s : State) :
  BaselineBatch.POST s
  = (BaselineBatch.mkSummary
       (AlertBatchFacts.count (hasTraversal s) (corridors s)) 0
       (Z.of_nat (List.length (corridors s))),
     set_corridorStats
       (fold_left (refreshed s) (corridors s) (corridorStats s)) s).
Proof.
  unfold BaselineBatch.POST, bind, BaselineBatch.corridor_findMany, gets.
  pose proof (recomputeAll_run s (corridors s) 0 (corridorStats s)) as H.
  rewrite set_corridorStats_same in H. rewrite H. reflexivity.
Qed.

(** A baseline row is settled when it is one of the rows recomputed for its
    own corridor: refreshing any corridor keeps it. *)
Definition settled (s : State) (b : Baseline.CorridorBaseline) : Prop :=
  In b (recomputed (Baseline.corridorId b) s).

Lemma recomputed_settled (s : State) (cid : string)
  (b : Baseline.CorridorBaseline) :
  In b (recomputed cid s) -> settled s b.
Proof.
  intros H. unfold settled.
  now rewrite (BaselineUpkeep.computeBaselines_corridorId _ _ _ _ H).
Qed.

Lemma refreshed_facts (s : State) (rows : list Baseline.CorridorBaseline)
  (c : Corridor) :
  NoDup (map BaselineUpkeep.keyOf rows) ->
  NoDup (map BaselineUpkeep.keyOf (refreshed s rows c)) /\
  (forall b, In b (recomputed (c_id c) s) -> In b (refreshed s rows c)) /\
  (forall b, In b rows -> settled s b -> In b (refreshed s rows c)) /\
  (forall b, In b rows -> Baseline.corridorId b <> c_id c ->
             In b (refreshed s rows c)) /\
  (forall b, In b (refreshed s rows c) ->
             In b rows \/ In b (recomputed (c_id c) s)).
Proof.
  intros Hnd.
  destruct (BaselineUpkeep.fold_upserted (recomputed (c_id c) s) rows Hnd
              (BaselineUpkeep.computeBaselines_NoDup_keys _ _ _))
    as (Hnd' & Hnew & Hold & Hinv).
  assert (Hother : forall b, In b rows -> Baseline.corridorId b <> c_id c ->
                             In b (refreshed s rows c)).
  { intros b Hb Hne. apply Hold; [exact Hb|]. intros Hin.
    apply in_map_iff in Hin. destruct Hin as (b' & Hkey & Hb').
    apply BaselineUpkeep.computeBaselines_corridorId in Hb'.
    unfold BaselineUpkeep.keyOf in Hkey. congruence. }
  split; [exact Hnd'|]. split; [exact Hnew|]. split; [|split].
  - intros b Hb Hs.
    destruct (string_dec (Baseline.corridorId b) (c_id c)) as [E|Hne].
    + apply Hnew. unfold settled in Hs. now rewrite E in Hs.
    + now apply Hother.
  - exact Hother.
  - intros b Hb. destruct (Hinv b Hb); tauto.
Qed.

Lemma fold_refreshed (s : State) :
  forall cs rows,
    NoDup (map BaselineUpkeep.keyOf rows) ->
    let rows' := fold_left (refreshed s) cs rows in
    NoDup (map BaselineUpkeep.keyOf rows') /\
    (forall c b, In c cs -> In b (recomputed (c_id c) s) -> In b rows') /\
    (forall b, In b rows -> settled s b -> In b rows') /\
    (forall b, In b rows -> (forall c, In c cs -> Baseline.corridorId b <> c_id c) ->
               In b rows') /\
    (forall b, In b rows' ->
               In b rows \/ exists c, In c cs /\ In b (recomputed (c_id c) s)).
Proof.
  induction cs as [|c cs IH]; intros rows Hnd; simpl.
  - split; [exact Hnd|]. split; [intros c b []|]. repeat split; tauto.
  - destruct (refreshed_facts s rows c Hnd)
      as (Hnd1 & Hnew1 & Hkeep1 & Hother1 & Hinv1).
    destruct (IH (refreshed s rows c) Hnd1)
      as (Hnd2 & Hnew2 & Hkeep2 & Hother2 & Hinv2).
    split; [exact Hnd2|]. split; [|split; [|split]].
    + intros c' b [<-|Hc'] Hb.
      * apply Hkeep2; [now apply Hnew1|]. now apply (recomputed_settled s (c_id c)).
      * now apply (Hnew2 c').
    + intros b Hb Hs. apply Hkeep2; [now apply Hkeep1|exact Hs].
    + intros b Hb Hne. apply Hother2.
      * apply Hother1; [exact Hb|]. apply Hne. now left.
      * intros c' Hc'. apply Hne. now right.
    + intros b Hb. destruct (Hinv2 b Hb) as [H|(c' & Hc' & H)].
      * destruct (Hinv1 b H) as [H'|H']; [now left|].
        right. exists c. split; [now left|exact H'].
      * right. exists c'. split; [now right|exact H].
Qed.

(** X24.  The batch baseline computation, on a store whose baseline rows
    have distinct keys, answers with [total] = the number of corridors and
    [processed] = the number of corridors that have a stored traversal.
    Afterwards the keys are still distinct, the table holds every baseline
    computed from the traversals of every corridor, rows of corridors that
    are not in the corridor table are kept, every row is an earlier row or a
    computed one, and no other table has changed. *)
Theorem batch_recompute_refreshes_every_corridor (s : State) :
  BaselineUpkeep.uniqueStats s ->
  let summary := fst (BaselineBatch.POST s) in
  let s' := snd (BaselineBatch.POST s) in
  BaselineBatch.total summary = Z.of_nat (List.length (corridors s)) /\
  BaselineBatch.processed summary
    = AlertBatchFacts.count (hasTraversal s) (corridors s) /\
  BaselineUpkeep.uniqueStats s' /\
  (forall c b, In c (corridors s) -> In b (recomputed (c_id c) s) ->
               In b (corridorStats s')) /\
  (forall b, In b (corridorStats s) ->
             (forall c, In c (corridors s) -> Baseline.corridorId b <> c_id c) ->
             In b (corridorStats s')) /\
  (forall b, In b (corridorStats s') ->
             In b (corridorStats s) \/
             exists c, In c (corridors s) /\ In b (recomputed (c_id c) s)) /\
  s' = set_corridorStats (corridorStats s') s.
Proof.
  intros Huniq summary s'. unfold summary, s'. rewrite POST_run. simpl.
  destruct (fold_refreshed s (corridors s) (corridorStats s) Huniq)
    as (Hnd & Hnew & _ & Hother & Hinv).
  repeat split; assumption.
Qed.

Lemma batch_recompute_refreshes_every_corridor_witness :
  let r := BaselineBatch.POST BaselineUpkeep.ingested in
  BaselineBatch.processed (fst r) = 1 /\
  BaselineBatch.total (fst r) = 1 /\
  BaselineUpkeep.uniqueStats (snd r).
Proof.
  destruct (batch_recompute_refreshes_every_corridor BaselineUpkeep.ingested
              BaselineUpkeep.ingested_uniqueStats)
    as (Ht & Hp & Hu & _).
  split; [rewrite Hp; reflexivity|].
  split; [rewrite Ht; reflexivity|exact Hu].
Defined.

(** *** After ingestion *)

(** The baseline table holds every baseline that [updateCorridorBaselines]
    would compute for any corridor. *)
Definition fresh (s : State) : Prop :=
  forall cid b,
    In b (BaselineUpkeep.recomputed cid s) -> In b (corridorStats s).

Definition positiveSpeeds (s : State) : Prop :=
  forall r, In r (traversals s) -> (0 < Gps.avgSpeedKmh (tr_data r))%Q.

Definition maintained (s : State) : Prop :=
  BaselineUpkeep.uniqueStats s /\ fresh s /\ positiveSpeeds s.

Definition upkeep (s s' : State) : Prop := maintained s -> maintained s'.

Lemma upkeep_refl (s : State) : upkeep s s.
Proof. unfold upkeep. tauto. Qed.

Lemma upkeep_trans (a b c : State) : upkeep a b -> upkeep b c -> upkeep a c.
Proof. unfold upkeep. tauto. Qed.

Lemma upkeep_quiet (s s' : State) :
  traversals s' = traversals s -> corridorStats s' = corridorStats s ->
  upkeep s s'.
Proof.
  intros T C (Hu & Hf & Hp). split; [|split].
  - unfold BaselineUpkeep.uniqueStats. now rewrite C.
  - intros cid b Hb. rewrite C. apply (Hf cid).
    unfold BaselineUpkeep.recomputed, BaselineUpkeep.history in *.
    now rewrite T in Hb.
  - intros r Hr. apply Hp. now rewrite T in Hr.
Qed.

Lemma history_snoc (cid : string) (row : TraversalRow) (s : State) :
  BaselineUpkeep.history cid (set_traversals (traversals s ++ [row]) s)
  = BaselineUpkeep.history cid s
      ++ (if String.eqb (tr_corridorId row) cid
          then [Ingest.toData row] else []).
Proof.
  unfold BaselineUpkeep.history. simpl. rewrite filter_app, map_app. simpl.
  now destruct (String.eqb (tr_corridorId row) cid).
Qed.

(** Storing a traversal and refreshing the baselines of its corridor leaves
    the table fresh. *)
Lemma learn_upkeep (row : TraversalRow) :
  (0 < Gps.avgSpeedKmh (tr_data row))%Q ->
  IngestInvariants.steps upkeep
    (bind (traversal_create row)
          (fun _ => Ingest.updateCorridorBaselines (tr_corridorId row))).
Proof.
  intros Hgood s (Hu & Hf & Hp).
  unfold bind, traversal_create, modify.
  set (cid := tr_corridorId row).
  set (s1 := set_traversals (traversals s ++ [row]) s).
  rewrite BaselineUpkeep.updateCorridorBaselines_run. simpl snd.
  assert (Hh : BaselineUpkeep.history cid s1
               = BaselineUpkeep.history cid s ++ [Ingest.toData row]).
  { unfold s1. rewrite history_snoc. unfold cid.
    now rewrite String.eqb_refl. }
  destruct (BaselineUpkeep.history cid s1) as [|t ts] eqn:H;
    [destruct (BaselineUpkeep.history cid s); discriminate|].
  destruct (BaselineUpkeep.fold_upserted (BaselineUpkeep.recomputed cid s1)
              (corridorStats s) Hu
              (BaselineUpkeep.computeBaselines_NoDup_keys _ _ _))
    as (Hnd & Hnew & Hold & _).
  split; [exact Hnd|]. split.
  - intros cid' b Hb.
    change (In b (BaselineUpkeep.recomputed cid' s1)) in Hb.
    change (In b (fold_left (fun rows b => BaselineUpkeep.upserted b rows)
                            (BaselineUpkeep.recomputed cid s1)
                            (corridorStats s))).
    destruct (string_dec cid' cid) as [->|Hne]; [now apply Hnew|].
    assert (Hsame : BaselineUpkeep.recomputed cid' s1
                    = BaselineUpkeep.recomputed cid' s).
    { unfold BaselineUpkeep.recomputed, s1. rewrite history_snoc.
      fold cid.
      replace (String.eqb cid cid') with false
        by (symmetry; apply String.eqb_neq; congruence).
      now rewrite app_nil_r. }
    rewrite Hsame in Hb. apply Hold; [now apply (Hf cid')|].
    intros Hin. apply in_map_iff in Hin. destruct Hin as (b' & Hkey & Hb').
    apply BaselineUpkeep.computeBaselines_corridorId in Hb, Hb'.
    unfold BaselineUpkeep.keyOf in Hkey. congruence.
  - intros r Hr. change (In r (traversals s ++ [row])) in Hr.
    apply in_app_or in Hr. destruct Hr as [Hr|[<-|[]]];
      [now apply Hp|exact Hgood].
Qed.

Lemma POST_upkeep (parseDatetime : string -> option Js.Date)
  (geo : Gps.Geo) (config : Ingest.Config) (body : Ingest.Body) :
  0 <= Ingest.TAU_SHORT config ->
  IngestInvariants.steps upkeep (Ingest.POST parseDatetime geo config body).
Proof.
  intros Htau.
  apply (IngestInvariants.POST_steps upkeep upkeep_refl upkeep_trans
           parseDatetime geo config
           (fun t => (0 < Gps.avgSpeedKmh t)%Q)).
  - intros points t Ht.
    apply (CorridorFacts.learnt_speed_positive geo points
             (inject_Z (Ingest.TAU_SHORT config))
             (Ingest.H3_RESOLUTION config)); [|exact Ht].
    change (inject_Z 0 <= inject_Z (Ingest.TAU_SHORT config))%Q.
    now rewrite <- Zle_Qle.
  - intros name s. unfold bind, vehicle_findUnique, gets.
    destruct (find _ (vehicles s)); apply upkeep_quiet; reflexivity.
  - intros key s. unfold bind, corridor_findUnique, gets.
    destruct (find _ (corridors s)); apply upkeep_quiet; reflexivity.
  - intros v a b src s. apply upkeep_quiet; reflexivity.
  - intros id e s. apply upkeep_quiet; reflexivity.
  - intros rows s. apply upkeep_quiet; reflexivity.
  - intros rows s. apply upkeep_quiet; reflexivity.
  - intros row Hgood. now apply learn_upkeep.
  - intros thr input s. rewrite AlertEngine.checkAndCreateAlerts_run.
    apply upkeep_quiet; reflexivity.
Qed.

Lemma ingestAll_maintained (parseDatetime : string -> option Js.Date)
  (geo : Gps.Geo) (config : Ingest.Config) (bodies : list Ingest.Body) :
  0 <= Ingest.TAU_SHORT config ->
  maintained (IngestInvariants.ingestAll parseDatetime geo config bodies
                                         Db.empty).
Proof.
  intros Htau.
  assert (H : forall s, maintained s ->
                        maintained (IngestInvariants.ingestAll parseDatetime
                                      geo config bodies s)).
  { unfold IngestInvariants.ingestAll.
    induction bodies as [|body rest IH]; intros s Hs; simpl; [exact Hs|].
    apply IH. now apply (POST_upkeep parseDatetime geo config body Htau s). }
  apply H. split; [constructor|]. split.
  - intros cid b [].
  - intros r [].
Qed.

Lemma orZero_positive (x : Q) : (0 < x)%Q -> AlertBatch.orZero x = x.
Proof.
  intros H. unfold AlertBatch.orZero.
  now rewrite (AlertEngine.eqb_false_of_pos x H).
Qed.

Lemma recomputed_agree (s : State) (cid : string) :
  positiveSpeeds s -> recomputed cid s = BaselineUpkeep.recomputed cid s.
Proof.
  intros Hp. unfold recomputed, BaselineUpkeep.recomputed, history,
    BaselineUpkeep.history. f_equal. apply map_ext_in. intros r Hr.
  apply filter_In in Hr. destruct Hr as [Hr _].
  unfold BaselineBatch.toData, Ingest.toData.
  now rewrite (orZero_positive _ (Hp r Hr)).
Qed.

Lemma maintained_fixpoint (s : State) :
  maintained s ->
  forall cs, fold_left (refreshed s) cs (corridorStats s) = corridorStats s.
Proof.
  intros (Hu & Hf & Hp). induction cs as [|c cs IH]; simpl; [reflexivity|].
  assert (E : refreshed s (corridorStats s) c = corridorStats s).
  { unfold refreshed. rewrite (recomputed_agree s (c_id c) Hp).
    apply BaselineUpkeep.fold_upserted_present; [exact Hu|].
    intros b. apply Hf. }
  now rewrite E.
Qed.

(** X25.  After ingestion, the batch baseline computation has nothing left
    to do: on every store built from the empty one by ingest requests (with
    a [TAU_SHORT] that is not negative), it changes no table.  The ingest
    route has already stored, for every corridor, the baselines the batch
    would compute. *)
Theorem recompute_after_ingest_changes_nothing
  (parseDatetime : string -> option Js.Date) (geo : Gps.Geo)
  (config : Ingest.Config) (bodies : list Ingest.Body) :
  0 <= Ingest.TAU_SHORT config ->
  let s := IngestInvariants.ingestAll parseDatetime geo config bodies
                                      Db.empty in
  snd (BaselineBatch.POST s) = s /\
  BaselineBatch.total (fst (BaselineBatch.POST s))
  = Z.of_nat (List.length (corridors s)).
Proof.
  intros Htau s.
  pose proof (ingestAll_maintained parseDatetime geo config bodies Htau)
    as Hm.
  fold s in Hm. rewrite POST_run. simpl. split; [|reflexivity].
  rewrite (maintained_fixpoint s Hm). apply set_corridorStats_same.
Qed.

Lemma recompute_after_ingest_changes_nothing_witness :
  let s := IngestInvariants.ingestAll IngestionBoundary.parseTwo
             CorridorResolver.planarGeo Ingest.defaultConfig
             [IngestionBoundary.good_batch] Db.empty in
  snd (BaselineBatch.POST s) = s /\ List.length (corridorStats s) = 1%nat.
Proof.
  split; [|reflexivity].
  apply (recompute_after_ingest_changes_nothing IngestionBoundary.parseTwo
           CorridorResolver.planarGeo Ingest.defaultConfig
           [IngestionBoundary.good_batch]).
  discriminate.
Defined.

End BaselineBatchFacts.

(** ** The answer of the ingest route *)

Module IngestResponse.

Import Db.
Import Ingest.
Local Open Scope db_scope.

(** A result row is sound when it counts at least two points, at most one
    drop per pair of neighbouring points, and at most one traversal per
    drop. *)
Definition sound (r : TripResult) : Prop :=
  2 <= pointsProcessed r /\
  0 <= corridorsTraversed r <= dropsDetected r /\
  dropsDetected r <= pointsProcessed r - 1.

Lemma detectDrops_length (points : list Gps.GPSFix) (tauShort : Q) :
  (List.length (Gps.detectDrops points tauShort)
   <= List.length points - 1)%nat.
Proof.
  rewrite DropFacts.detectDrops_filter_map, length_map.
  eapply Nat.le_trans; [apply filter_length_le|].
  rewrite DropFacts.adjacent_length. unfold Gps.sortByTs.
  now rewrite SortFacts.sortBy_length.
Qed.

Lemma extractCorridors_length (geo : Gps.Geo) (drops : list Gps.Drop)
  (h3Resolution : Z) :
  (List.length (Gps.extractCorridors geo drops h3Resolution)
   <= List.length drops)%nat.
Proof.
  rewrite CorridorResolver.extractCorridors_flat_map.
  induction drops as [|d rest IH]; simpl; [lia|].
  rewrite length_app. unfold CorridorResolver.emitted at 1.
  destruct (Gps.resolveDrop geo h3Resolution d); simpl; lia.
Qed.

Section Handler.

Variable parseDatetime : string -> option Js.Date.
Variable geo : Gps.Geo.
Variable config : Config.

(** The drop table is left as it is. *)
Definition keepsDrops (s s' : State) : Prop := drops s' = drops s.

Lemma keepsDrops_refl (s : State) : keepsDrops s s.
Proof. reflexivity. Qed.

Lemma keepsDrops_trans (a b c : State) :
  keepsDrops a b -> keepsDrops b c -> keepsDrops a c.
Proof. unfold keepsDrops. congruence. Qed.

Lemma processTraversal_keepsDrops (trip : Trip) (vehicle : Vehicle)
  (t : Gps.Traversal) :
  IngestInvariants.steps keepsDrops (processTraversal config trip vehicle t).
Proof.
  apply (IngestInvariants.processTraversal_steps keepsDrops
           keepsDrops_refl keepsDrops_trans config (fun _ => True));
    [| | |exact I].
  - intros key s. unfold bind, corridor_findUnique, gets.
    destruct (find _ (corridors s)); reflexivity.
  - intros row _.
    apply (IngestInvariants.learn_of_writes keepsDrops keepsDrops_refl
             keepsDrops_trans).
    + intros row' s. reflexivity.
    + intros b s. rewrite BaselineUpkeep.upsert_run. reflexivity.
  - intros thr input s. rewrite AlertEngine.checkAndCreateAlerts_run.
    reflexivity.
Qed.

(** What a part of the [try] block leaves behind.  The drop table never
    shrinks; a value that is returned satisfies [Q]; and an exception is
    thrown only when [H3_RESOLUTION] is not a resolution of the grid, after
    at least one drop has been stored. *)
Definition outcome {A} (Q : A -> Prop) (m : M (Outcome A)) : Prop :=
  forall s,
    (List.length (drops s) <= List.length (drops (snd (m s))))%nat /\
    match fst (m s) with
    | Returned a => Q a
    | Thrown =>
        Gps.validResolution (H3_RESOLUTION config) = false /\
        (List.length (drops s) < List.length (drops (snd (m s))))%nat
    end.

Lemma outcome_ret {A} (Q : A -> Prop) (a : A) :
  Q a -> outcome Q (ret (Returned a)).
Proof. intros H s. simpl. split; [lia|exact H]. Qed.

Lemma outcome_after {A B} (Q : A -> Prop) (c : M B)
  (k : B -> M (Outcome A)) :
  IngestInvariants.steps keepsDrops c ->
  (forall b, outcome Q (k b)) -> outcome Q (bind c k).
Proof.
  intros Hc Hk s. unfold bind. specialize (Hc s).
  destruct (c s) as [b s1]. unfold keepsDrops in Hc. simpl in Hc.
  specialize (Hk b s1). rewrite Hc in Hk. exact Hk.
Qed.

Lemma outcome_andThen {A B} (P : A -> Prop) (Q : B -> Prop)
  (c : M (Outcome A)) (k : A -> M (Outcome B)) :
  outcome P c -> (forall a, P a -> outcome Q (k a)) ->
  outcome Q (andThen c k).
Proof.
  intros Hc Hk s. unfold andThen, bind. specialize (Hc s).
  destruct (c s) as [[a|] s1]; simpl in Hc.
  - destruct Hc as [Hle Ha]. specialize (Hk a Ha s1).
    destruct (k a s1) as [[b|] s2]; simpl in *.
    + split; [lia|tauto].
    + split; [lia|]. split; [tauto|lia].
  - simpl. exact Hc.
Qed.

Lemma processTrip_outcome (vehicle : Vehicle) (tripPoints : list Point) :
  outcome (fun r => match r with Some x => sound x | None => True end)
          (processTrip geo config vehicle tripPoints).
Proof.
  unfold processTrip. destruct tripPoints as [|first [|second rest]];
    try (apply outcome_ret; exact I).
  set (pts := first :: second :: rest).
  apply outcome_after.
  { destruct (tripId first) as [id|]; [|intros s; reflexivity].
    destruct (String.eqb id ""); intros s; reflexivity. }
  intros found. apply outcome_after.
  { destruct found as [t|]; intros s; reflexivity. }
  intros trip. apply outcome_after; [intros s; reflexivity|]. intros _.
  set (found_drops := Gps.detectDrops (map toFix pts)
                                      (inject_Z (TAU_SHORT config))).
  destruct (Gps.extractionThrows found_drops (H3_RESOLUTION config)) eqn:T.
  - unfold Gps.extractionThrows in T. apply andb_true_iff in T.
    destruct T as [Tv Te]. apply negb_true_iff in Tv.
    apply existsb_exists in Te. destruct Te as (d & Hd & _).
    assert (Hlen : (0 < List.length found_drops)%nat)
      by (destruct found_drops; [contradiction|simpl; lia]).
    replace (Z.of_nat (List.length found_drops) >? 0) with true
      by (symmetry; apply Z.gtb_lt; lia).
    intros s. unfold bind, drop_createMany, modify, ret. simpl.
    rewrite length_app, length_map. split; [lia|]. split; [exact Tv|lia].
  - intros s. unfold bind.
    destruct ((if Z.of_nat (List.length found_drops) >? 0
               then drop_createMany (map (mkDropRow (trip_id trip)) found_drops)
               else ret tt) s) as [u s1] eqn:E1.
    assert (H1 : (List.length (drops s) <= List.length (drops s1))%nat).
    { destruct (Z.of_nat (List.length found_drops) >? 0);
        unfold drop_createMany, modify, ret in E1; inversion E1; simpl;
        rewrite ?length_app; lia. }
    pose proof (IngestInvariants.steps_forEach keepsDrops keepsDrops_refl
                  keepsDrops_trans
                  (Gps.extractCorridors geo found_drops (H3_RESOLUTION config))
                  (processTraversal config trip vehicle)
                  (processTraversal_keepsDrops trip vehicle) s1) as H2.
    destruct (forEach _ _ s1) as [u2 s2]. unfold keepsDrops in H2.
    cbn [snd] in H2. unfold ret. cbn [fst snd]. rewrite H2.
    split; [exact H1|].
    unfold sound. cbn [pointsProcessed dropsDetected corridorsTraversed].
    pose proof (detectDrops_length (map toFix pts)
                  (inject_Z (TAU_SHORT config))) as Hd.
    pose proof (extractCorridors_length geo found_drops
                  (H3_RESOLUTION config)) as Ht.
    fold found_drops in Hd. rewrite length_map in Hd.
    assert (Hp : (2 <= List.length pts)%nat) by (simpl; lia).
    lia.
Qed.

Lemma processTrips_outcome (vehicle : Vehicle) (trips : list (list Point)) :
  outcome (Forall sound) (processTrips geo config vehicle trips).
Proof.
  induction trips as [|t rest IH]; simpl;
    [apply outcome_ret; constructor|].
  eapply outcome_andThen; [apply processTrip_outcome|]. intros r Hr.
  eapply outcome_andThen; [exact IH|]. intros rs Hrs.
  apply outcome_ret. destruct r as [x|]; [now constructor|exact Hrs].
Qed.

Lemma processVehicle_outcome (entry : string * list Point) :
  outcome (Forall sound) (processVehicle geo config entry).
Proof.
  unfold processVehicle. destruct entry as [vehicleId vehiclePoints].
  apply outcome_after; [intros s; reflexivity|]. intros found.
  apply outcome_after; [destruct found; intros s; reflexivity|].
  intros vehicle. apply processTrips_outcome.
Qed.

Lemma processVehicles_outcome (entries : list (string * list Point)) :
  outcome (Forall sound) (processVehicles geo config entries).
Proof.
  induction entries as [|e rest IH]; simpl;
    [apply outcome_ret; constructor|].
  eapply outcome_andThen; [apply processVehicle_outcome|]. intros rs Hrs.
  eapply outcome_andThen; [exact IH|]. intros rs' Hrs'.
  apply outcome_ret. apply Forall_app. now split.
Qed.

(** X27.  What the ingest route answers.  A body that is not JSON is
    answered 500, and the store is untouched.  A rejected body is answered
    with one of the two 400 errors, and then the store is untouched too.
    Every row of a 200 answer describes a trip of at least two points, with
    at most one drop per pair of neighbouring points and at most one
    traversal per drop.  A JSON body is answered 500 only when
    [H3_RESOLUTION] is not one of the resolutions 0 to 15 of the grid, and
    then the request has left at least one new drop in the store. *)
Theorem ingest_answer_is_sound (body : Body) (s : State) :
  let r := POST parseDatetime geo config body s in
  (body = NotJson -> r = (Error500, s)) /\
  match fst r with
  | Ok200 results => body <> NotJson /\ Forall sound results
  | Error400 error =>
      body <> NotJson /\
      (error = "Validation error"%string \/
       error = "No points provided"%string) /\
      snd r = s
  | Error500 =>
      body = NotJson \/
      (Gps.validResolution (H3_RESOLUTION config) = false /\
       (List.length (drops s) < List.length (drops (snd r)))%nat)
  end.
Proof.
  intros r. split; [intros ->; reflexivity|].
  assert (H : forall points,
             match fst (ingestPoints parseDatetime geo config points s) with
             | Ok200 results => Forall sound results
             | Error400 error =>
                 (error = "Validation error"%string \/
                  error = "No points provided"%string) /\
                 snd (ingestPoints parseDatetime geo config points s) = s
             | Error500 =>
                 Gps.validResolution (H3_RESOLUTION config) = false /\
                 (List.length (drops s)
                  < List.length
                      (drops (snd (ingestPoints parseDatetime geo config
                                     points s))))%nat
             end).
  { intros points. unfold ingestPoints.
    destruct (validateBatch parseDatetime points) as [validatedPoints|];
      [|simpl; tauto].
    destruct (Z.of_nat (List.length validatedPoints) =? 0); [simpl; tauto|].
    unfold bind.
    pose proof (processVehicles_outcome (groupByVehicle validatedPoints) s)
      as [_ Ho].
    destruct (processVehicles geo config (groupByVehicle validatedPoints) s)
      as [[rows|] s']; exact Ho. }
  unfold r. destruct body as [p|ps|]; cbn [POST].
  - specialize (H [p]).
    destruct (fst (ingestPoints parseDatetime geo config [p] s));
      [split; [discriminate|exact H]
      |split; [discriminate|exact H]
      |right; exact H].
  - specialize (H ps).
    destruct (fst (ingestPoints parseDatetime geo config ps s));
      [split; [discriminate|exact H]
      |split; [discriminate|exact H]
      |right; exact H].
  - left. reflexivity.
Qed.

End Handler.

(** The batch [good_batch] with [H3_RESOLUTION] set to 16: the request is
    answered 500 after the vehicle, the trip, its two points and its drop
    have been stored; no corridor, traversal or baseline is. *)
Example invalid_resolution_is_a_500 :
  let r := POST IngestionBoundary.parseTwo CorridorResolver.planarGeo
             (mkConfig 60 16 15) IngestionBoundary.good_batch Db.empty in
  fst r = Error500 /\
  (List.length (vehicles (snd r)), List.length (trips (snd r)),
   List.length (gpsPoints (snd r)), List.length (drops (snd r)),
   List.length (corridors (snd r)), List.length (traversals (snd r)),
   List.length (corridorStats (snd r)), List.length (alerts (snd r)))
  = (1, 1, 2, 1, 0, 0, 0, 0)%nat /\
  POST IngestionBoundary.parseTwo CorridorResolver.planarGeo
    (mkConfig 60 16 15) NotJson Db.empty = (Error500, Db.empty).
Proof. vm_compute. repeat split. Qed.

End IngestResponse.

(** ** The trip row of an ingested trip *)

Module TripUpkeep.

Import Db.
Import Ingest.
Local Open Scope db_scope.

(** The trip, point and vehicle tables are left as they are. *)
Definition keepsTrips (s s' : State) : Prop :=
  trips s' = trips s /\ gpsPoints s' = gpsPoints s /\
  vehicles s' = vehicles s.

Lemma keepsTrips_refl (s : State) : keepsTrips s s.
Proof. unfold keepsTrips. tauto. Qed.

Lemma keepsTrips_trans (a b c : State) :
  keepsTrips a b -> keepsTrips b c -> keepsTrips a c.
Proof. unfold keepsTrips. intros (-> & -> & ->) (-> & -> & ->). tauto. Qed.

Section Handler.

Variable geo : Gps.Geo.
Variable config : Config.

(** The part of the loop body that follows the storing of the points. *)
Definition afterPoints (vehicle : Vehicle) (tripPoints : list Point)
  (trip : Trip) : M (Outcome (option TripResult)) :=
  let gpsFixes := map toFix tripPoints in
  let drops := Gps.detectDrops gpsFixes (inject_Z (TAU_SHORT config)) in
  (if (Z.of_nat (List.length drops) >? 0)
   then drop_createMany (map (mkDropRow (trip_id trip)) drops)
   else ret tt) ;;;
  if Gps.extractionThrows drops (H3_RESOLUTION config) then ret Thrown
  else
    let traversals := Gps.extractCorridors geo drops (H3_RESOLUTION config) in
    forEach traversals (processTraversal config trip vehicle) ;;;
    ret (Returned
           (Some (mkResult (trip_id trip) (v_id vehicle)
                    (Z.of_nat (List.length tripPoints))
                    (Z.of_nat (List.length drops))
                    (Z.of_nat (List.length traversals))))).

(** Whether [extractCorridors] throws on the drops of a trip. *)
Definition throwsOn (tripPoints : list Point) : bool :=
  Gps.extractionThrows
    (Gps.detectDrops (map toFix tripPoints) (inject_Z (TAU_SHORT config)))
    (H3_RESOLUTION config).

(** What the loop body comes to for a trip stored under [id]: a result row
    that names [id], or the exception of [extractCorridors], the one exactly
    when [extractCorridors] returns and the other when it throws. *)
Definition answersFor (id : string) (tripPoints : list Point)
  (o : Outcome (option TripResult)) : Prop :=
  match o with
  | Returned row =>
      option_map res_tripId row = Some id /\ throwsOn tripPoints = false
  | Thrown => throwsOn tripPoints = true
  end.

Lemma processTrip_unfold (vehicle : Vehicle) (first second : Point)
  (rest : list Point) :
  let tripPoints := first :: second :: rest in
  processTrip geo config vehicle tripPoints
  = (found <- match tripId first with
              | Some id =>
                  if String.eqb id "" then ret None else trip_findUnique id
              | None => ret None
              end ;;
     trip <- match found with
             | None => trip_create (v_id vehicle) (ts first)
                         (ts (List.last tripPoints first)) "api_ingest"
             | Some t =>
                 trip_update (trip_id t) (ts (List.last tripPoints first)) ;;;
                 ret t
             end ;;
     gPSPoint_createMany
       (map (fun p => mkGPSPoint (trip_id trip) (toFix p)) tripPoints) ;;;
     afterPoints vehicle tripPoints trip).
Proof. reflexivity. Qed.

Lemma afterPoints_keepsTrips (vehicle : Vehicle) (tripPoints : list Point)
  (trip : Trip) :
  IngestInvariants.steps keepsTrips (afterPoints vehicle tripPoints trip).
Proof.
  unfold afterPoints.
  apply (IngestInvariants.steps_bind keepsTrips keepsTrips_trans).
  { match goal with
    | |- IngestInvariants.steps _ (if ?c then _ else _) => destruct c
    end; intros s; unfold keepsTrips; simpl; tauto. }
  intros _.
  match goal with
  | |- IngestInvariants.steps _ (if ?c then _ else _) => destruct c
  end; [intros s; apply keepsTrips_refl|].
  apply (IngestInvariants.steps_bind keepsTrips keepsTrips_trans).
  { apply (IngestInvariants.steps_forEach keepsTrips keepsTrips_refl
             keepsTrips_trans).
    intros t.
    apply (IngestInvariants.processTraversal_steps keepsTrips
             keepsTrips_refl keepsTrips_trans config (fun _ => True));
      [| | |exact I].
    - intros key s. unfold bind, corridor_findUnique, gets.
      destruct (find _ (corridors s)); unfold keepsTrips; simpl; tauto.
    - intros row _.
      apply (IngestInvariants.learn_of_writes keepsTrips keepsTrips_refl
               keepsTrips_trans).
      + intros row' s. unfold keepsTrips. simpl. tauto.
      + intros b s. rewrite BaselineUpkeep.upsert_run.
        unfold keepsTrips. simpl. tauto.
    - intros thr input s. rewrite AlertEngine.checkAndCreateAlerts_run.
      unfold keepsTrips. simpl. tauto. }
  intros _. intros s. apply keepsTrips_refl.
Qed.

Lemma afterPoints_answer (vehicle : Vehicle) (tripPoints : list Point)
  (trip : Trip) (s : State) :
  answersFor (trip_id trip) tripPoints
             (fst (afterPoints vehicle tripPoints trip s)).
Proof.
  unfold answersFor, throwsOn, afterPoints, bind.
  destruct (Gps.extractionThrows _ _);
    repeat match goal with
           | |- context [let (_, _) := ?c in _] => destruct c
           end;
    simpl; auto.
Qed.

Lemma bind_run {A B} (c : M A) (k : A -> M B) (s s1 : State) (a : A) :
  c s = (a, s1) -> bind c k s = k a s1.
Proof. unfold bind. now intros ->. Qed.

(** X28.  A trip of the batch whose first point names a stored trip is
    attached to that trip, whichever vehicle the stored trip belongs to: its
    points are stored under the trip's id, and the only change to the trip
    row is its [endTime], which is overwritten with the time of the last
    point of the batch (whether that is later than the stored one or not);
    [startTime], vehicle and source stay as they were.  No trip and no
    vehicle is created.  The loop body then returns a result row that names
    the trip, unless [extractCorridors] throws on the drops of the trip
    ([H3_RESOLUTION] is not a resolution of the grid and some drop is not a
    long gap); the writes above are made in both cases. *)
Theorem named_trip_is_extended (vehicle : Vehicle) (first second : Point)
  (rest : list Point) (id : string) (t : Trip) (s : State) :
  tripId first = Some id ->
  id <> ""%string ->
  find (fun x => String.eqb (trip_id x) id) (trips s) = Some t ->
  let tripPoints := first :: second :: rest in
  let endTime' := ts (List.last tripPoints first) in
  let r := processTrip geo config vehicle tripPoints s in
  trip_id t = id /\
  trips (snd r)
  = map (fun x =>
           if String.eqb (trip_id x) id
           then mkTrip (trip_id x) (trip_vehicleId x) (startTime x) endTime'
                       (source x)
           else x) (trips s) /\
  gpsPoints (snd r)
  = gpsPoints s ++ map (fun p => mkGPSPoint id (toFix p)) tripPoints /\
  vehicles (snd r) = vehicles s /\
  answersFor id tripPoints (fst r).
Proof.
  intros Hid Hne Hfind tripPoints endTime' r.
  assert (Et : trip_id t = id).
  { apply find_some in Hfind. now apply String.eqb_eq. }
  split; [exact Et|].
  set (s_a := snd (trip_update (trip_id t) endTime' s)).
  set (s_b := snd (gPSPoint_createMany
                     (map (fun p => mkGPSPoint (trip_id t) (toFix p))
                          tripPoints) s_a)).
  assert (E : r = afterPoints vehicle tripPoints t s_b).
  { unfold r, tripPoints. rewrite processTrip_unfold. cbv zeta.
    rewrite (bind_run _ _ s s (Some t)).
    - rewrite (bind_run _ _ s s_a t); [|reflexivity].
      now rewrite (bind_run _ _ s_a s_b tt).
    - rewrite Hid.
      replace (String.eqb id "") with false
        by (symmetry; now apply String.eqb_neq).
      unfold trip_findUnique, gets. now rewrite Hfind. }
  rewrite E.
  destruct (afterPoints_keepsTrips vehicle tripPoints t s_b)
    as (Ht & Hg & Hv).
  pose proof (afterPoints_answer vehicle tripPoints t s_b) as Ha.
  rewrite Et in Ha.
  rewrite Ht, Hg, Hv.
  split; [|split; [|split; [|exact Ha]]];
    unfold s_b, s_a; simpl; rewrite ?Et; reflexivity.
Qed.

(** X29.  A trip of the batch whose first point names no stored trip (no
    [tripId], an empty one, or one that is not in the table) gets a new
    trip row with a generated id: it belongs to the vehicle of the batch,
    runs from the first to the last point, and has source [api_ingest]; the
    points are stored under the generated id, and a [tripId] the client
    sent is not used.  The loop body then returns a result row that names
    the new trip, unless [extractCorridors] throws on the drops of the trip;
    the writes above are made in both cases. *)
Theorem unnamed_trip_is_created (vehicle : Vehicle) (first second : Point)
  (rest : list Point) (s : State) :
  match tripId first with
  | Some id =>
      id = ""%string \/
      find (fun x => String.eqb (trip_id x) id) (trips s) = None
  | None => True
  end ->
  let tripPoints := first :: second :: rest in
  let id' := idOf (nextId s) in
  let r := processTrip geo config vehicle tripPoints s in
  trips (snd r)
  = trips s ++ [mkTrip id' (v_id vehicle) (ts first)
                       (ts (List.last tripPoints first)) "api_ingest"] /\
  gpsPoints (snd r)
  = gpsPoints s ++ map (fun p => mkGPSPoint id' (toFix p)) tripPoints /\
  vehicles (snd r) = vehicles s /\
  answersFor id' tripPoints (fst r).
Proof.
  intros Hnone tripPoints id' r.
  set (created := trip_create (v_id vehicle) (ts first)
                    (ts (List.last tripPoints first)) "api_ingest" s).
  set (s_b := snd (gPSPoint_createMany
                     (map (fun p => mkGPSPoint (trip_id (fst created))
                                               (toFix p))
                          tripPoints) (snd created))).
  assert (E : r = afterPoints vehicle tripPoints (fst created) s_b).
  { unfold r, tripPoints. rewrite processTrip_unfold. cbv zeta.
    rewrite (bind_run _ _ s s None).
    - rewrite (bind_run _ _ s (snd created) (fst created)); [|reflexivity].
      now rewrite (bind_run _ _ (snd created) s_b tt).
    - destruct (tripId first) as [id|]; [|reflexivity].
      destruct (String.eqb_spec id "") as [->|Hne]; [reflexivity|].
      destruct Hnone as [E|Hf]; [contradiction|].
      unfold trip_findUnique, gets. now rewrite Hf. }
  rewrite E.
  destruct (afterPoints_keepsTrips vehicle tripPoints (fst created) s_b)
    as (Ht & Hg & Hv).
  pose proof (afterPoints_answer vehicle tripPoints (fst created) s_b) as Ha.
  rewrite Ht, Hg, Hv.
  split; [|split; [|split; [|exact Ha]]];
    unfold s_b, created; simpl; reflexivity.
Qed.

End Handler.

(** Two points that name the trip "id1" of the store [ingested], sent for
    another vehicle and dated long before the stored trip: they are attached
    to that trip, whose end moves back to the second point. *)
Definition early (t : Z) : Point :=
  mkPt "other" (Some "id1"%string) t 13 100 None None None.

Lemma named_trip_is_extended_witness :
  let r := processTrip CorridorResolver.planarGeo defaultConfig
             (mkVehicle "id9" "other") [early 1000; early 2000]
             BaselineUpkeep.ingested in
  map (fun x => (trip_id x, trip_vehicleId x, startTime x, endTime x))
      (trips (snd r))
  = [("id1"%string, "id0"%string, 1704103200000, 2000)] /\
  answersFor defaultConfig "id1" [early 1000; early 2000] (fst r).
Proof.
  destruct (named_trip_is_extended CorridorResolver.planarGeo defaultConfig
              (mkVehicle "id9" "other") (early 1000) (early 2000) [] "id1"
              (mkTrip "id1" "id0" 1704103200000 1704103380000 "api_ingest")
              BaselineUpkeep.ingested)
    as (_ & Ht & _ & _ & Hr).
  - reflexivity.
  - discriminate.
  - vm_compute. reflexivity.
  - split; [rewrite Ht; vm_compute; reflexivity|exact Hr].
Defined.

(** Two points that name a trip the empty store does not hold. *)
Definition unknown (t : Z) : Point :=
  mkPt "truck-1" (Some "client-trip"%string) t 13 100 None None None.

Lemma unnamed_trip_is_created_witness :
  let r := processTrip CorridorResolver.planarGeo defaultConfig
             (mkVehicle "id7" "truck-1") [unknown 0; unknown 30000]
             Db.empty in
  trips (snd r) = [mkTrip "id0" "id7" 0 30000 "api_ingest"] /\
  answersFor defaultConfig "id0" [unknown 0; unknown 30000] (fst r).
Proof.
  destruct (unnamed_trip_is_created CorridorResolver.planarGeo defaultConfig
              (mkVehicle "id7" "truck-1") (unknown 0) (unknown 30000) []
              Db.empty)
    as (Ht & _ & _ & Hr).
  - right. reflexivity.
  - split; [exact Ht|exact Hr].
Defined.

End TripUpkeep.

(** ** Traversals and their corridors *)

Module CorridorLinks.

Import Db.
Import Ingest.
Local Open Scope db_scope.

(** Every stored traversal refers to a stored corridor, and that corridor
    has the key of the traversal. *)
Definition linked (s : State) : Prop :=
  forall r, In r (traversals s) ->
    exists c, In c (corridors s) /\ c_id c = tr_corridorId r /\
              c_key c = Gps.corridorKey (tr_data r).

Definition wellKeyed (s : State) : Prop :=
  IngestInvariants.uniqueCorridors s /\ linked s.

Definition keeps (s s' : State) : Prop := wellKeyed s -> wellKeyed s'.

Lemma keeps_refl (s : State) : keeps s s.
Proof. unfold keeps. tauto. Qed.

Lemma keeps_trans (a b c : State) : keeps a b -> keeps b c -> keeps a c.
Proof. unfold keeps. tauto. Qed.

Lemma keeps_quiet (s s' : State) :
  corridors s' = corridors s -> traversals s' = traversals s -> keeps s s'.
Proof.
  intros C T. unfold keeps, wellKeyed, linked, IngestInvariants.uniqueCorridors.
  now rewrite C, T.
Qed.

Lemma NoDup_map_injective {A K} (f : A -> K) (l : list A) (a b : A) :
  NoDup (map f l) -> In a l -> In b l -> f a = f b -> a = b.
Proof.
  induction l as [|x l IH]; simpl; [contradiction|].
  intros Hnd Ha Hb E. inversion Hnd as [|? ? Hnotin Hnd']; subst.
  destruct Ha as [->|Ha], Hb as [->|Hb].
  - reflexivity.
  - exfalso. apply Hnotin. rewrite E. now apply in_map.
  - exfalso. apply Hnotin. rewrite <- E. now apply in_map.
  - now apply IH.
Qed.

(** The end of the loop body, after the traversal is stored. *)
Lemma tail_keeps (cid : string) (thr : Z) (input : AlertService.AlertInput) :
  IngestInvariants.steps keeps
    (updateCorridorBaselines cid ;;;
     AlertService.checkAndCreateAlerts thr input ;;; ret tt).
Proof.
  apply (IngestInvariants.steps_bind keeps keeps_trans).
  - apply (IngestInvariants.updateCorridorBaselines_steps keeps keeps_refl
             keeps_trans).
    intros b s. rewrite BaselineUpkeep.upsert_run.
    apply keeps_quiet; reflexivity.
  - intros _. apply (IngestInvariants.steps_bind keeps keeps_trans).
    + intros s. rewrite AlertEngine.checkAndCreateAlerts_run.
      apply keeps_quiet; reflexivity.
    + intros _ s. apply keeps_refl.
Qed.

(** The loop body finds or creates the corridor of the traversal's key and
    stores the traversal under its id. *)
Lemma processTraversal_keeps (config : Config) (trip : Trip)
  (vehicle : Vehicle) (traversal : Gps.Traversal) :
  IngestInvariants.steps keeps (processTraversal config trip vehicle traversal).
Proof.
  intros s (Hu & Hl). unfold processTraversal.
  set (key := Gps.corridorKey traversal).
  destruct (find (fun c => key_eqb (c_key c) key) (corridors s))
    as [c|] eqn:F.
  - rewrite (TripUpkeep.bind_run _ _ s s (Some c))
      by (unfold corridor_findUnique, gets; now rewrite F).
    rewrite (TripUpkeep.bind_run _ _ s s c) by reflexivity.
    set (row := mkTraversalRow (c_id c) (trip_id trip) traversal).
    rewrite (TripUpkeep.bind_run _ _ s
               (set_traversals (traversals s ++ [row]) s) tt)
      by reflexivity.
    apply tail_keeps. split; [exact Hu|].
    intros r Hr. change (In r (traversals s ++ [row])) in Hr.
    change (exists c0, In c0 (corridors s) /\ c_id c0 = tr_corridorId r /\
                       c_key c0 = Gps.corridorKey (tr_data r)).
    apply in_app_or in Hr. destruct Hr as [Hr|[<-|[]]]; [now apply Hl|].
    apply find_some in F. destruct F as [Hc Hkey].
    apply IngestInvariants.key_eqb_eq in Hkey.
    exists c. repeat split; assumption.
  - rewrite (TripUpkeep.bind_run _ _ s s None)
      by (unfold corridor_findUnique, gets; now rewrite F).
    set (c := mkCorridor (idOf (nextId s)) key).
    set (s_a := snd (corridor_create key s)).
    rewrite (TripUpkeep.bind_run _ _ s s_a c) by reflexivity.
    set (row := mkTraversalRow (c_id c) (trip_id trip) traversal).
    rewrite (TripUpkeep.bind_run _ _ s_a
               (set_traversals (traversals s_a ++ [row]) s_a) tt)
      by reflexivity.
    apply tail_keeps. split.
    + unfold IngestInvariants.uniqueCorridors. simpl.
      apply IngestInvariants.NoDup_snoc; [exact Hu|]. simpl. intros Hin.
      apply in_map_iff in Hin. destruct Hin as (c' & Hkey & Hc').
      pose proof (find_none _ _ F c' Hc') as Hf. simpl in Hf.
      rewrite (proj2 (IngestInvariants.key_eqb_eq _ _) Hkey) in Hf.
      discriminate.
    + intros r Hr. change (In r (traversals s ++ [row])) in Hr.
      change (exists c0, In c0 (corridors s ++ [c]) /\
                         c_id c0 = tr_corridorId r /\
                         c_key c0 = Gps.corridorKey (tr_data r)).
      apply in_app_or in Hr. destruct Hr as [Hr|[<-|[]]].
      * destruct (Hl r Hr) as (c' & Hc' & Hid & Hkey).
        exists c'. split; [apply in_or_app; now left|tauto].
      * exists c. split; [apply in_or_app; right; now left|].
        split; reflexivity.
Qed.

Lemma POST_keeps (parseDatetime : string -> option Js.Date)
  (geo : Gps.Geo) (config : Config) (body : Body) :
  IngestInvariants.steps keeps (POST parseDatetime geo config body).
Proof.
  apply (IngestInvariants.POST_route_steps keeps keeps_refl keeps_trans
           parseDatetime geo config (fun _ => True)).
  - trivial.
  - intros name s. unfold bind, vehicle_findUnique, gets.
    destruct (find _ (vehicles s)); apply keeps_quiet; reflexivity.
  - intros v a b src s. apply keeps_quiet; reflexivity.
  - intros id e s. apply keeps_quiet; reflexivity.
  - intros rows s. apply keeps_quiet; reflexivity.
  - intros rows s. apply keeps_quiet; reflexivity.
  - intros trip vehicle traversal _. apply processTraversal_keeps.
Qed.

(** X30.  In every store built from the empty one by ingest requests, each
    stored traversal refers to a stored corridor that has the traversal's
    key (aH3, bH3, direction), and traversals with the same key are stored
    under the same corridor: the find-or-create of the loop body never
    splits a corridor in two. *)
Theorem ingested_traversals_share_corridors
  (parseDatetime : string -> option Js.Date) (geo : Gps.Geo)
  (config : Config) (bodies : list Body) :
  let s := IngestInvariants.ingestAll parseDatetime geo config bodies
                                      Db.empty in
  linked s /\
  (forall r1 r2,
     In r1 (traversals s) -> In r2 (traversals s) ->
     Gps.corridorKey (tr_data r1) = Gps.corridorKey (tr_data r2) ->
     tr_corridorId r1 = tr_corridorId r2).
Proof.
  intros s.
  assert (H : forall s0, wellKeyed s0 ->
                         wellKeyed (IngestInvariants.ingestAll parseDatetime
                                      geo config bodies s0)).
  { unfold IngestInvariants.ingestAll.
    induction bodies as [|body rest IH]; intros s0 Hs; simpl; [exact Hs|].
    apply IH. now apply (POST_keeps parseDatetime geo config body s0). }
  destruct (H Db.empty) as [Hu Hl].
  { split; [constructor|intros r []]. }
  fold s in Hu, Hl. split; [exact Hl|].
  intros r1 r2 H1 H2 Hkey.
  destruct (Hl r1 H1) as (c1 & Hc1 & <- & Hk1).
  destruct (Hl r2 H2) as (c2 & Hc2 & <- & Hk2).
  f_equal. apply (NoDup_map_injective c_key (corridors s)); try assumption.
  congruence.
Qed.

End CorridorLinks.
